(** * File sorter and divisor lister: a shallow embedding of main.py and
      factorize.py

    Python [str] values are lists of Unicode code points ([N]); a [Path] is
    the list of its components.  The module-level lists and sets of main.py
    (the extension buckets, [FOLDERS], [EXTENSIONS], [UNKNOWN]) form one
    record that every call threads through; the file system the handlers
    act on is a finite map from paths to nodes.  Operations of the Python
    library ([str.upper], the regular expression class \W, [Path.suffix],
    [os.path.splitext], [str.replace], [shutil.move] ...) are written out
    after the library's own code. *)

From Stdlib Require Import ZArith NArith Ascii String.
From stdpp Require Import gmap list sorting.

Local Open Scope N_scope.
#[local] Set Warnings "-register-all".

(** ** Strings *)

(** A string literal of the source, for names written in ASCII. *)
Definition lit (s : string) : list N :=
  N_of_ascii <$> list_ascii_of_string s.

(** The part of the Unicode character database the code reaches through
    [str.upper] and the regular expression class \w on characters that are
    neither ASCII nor Cyrillic letters.  Nothing below depends on what it
    answers. *)
Class Unicode := {
  uni_isalnum : N → bool;
  uni_upper : N → list N;
}.

(** The database that knows no character beyond ASCII. *)
Definition ascii_only : Unicode :=
  {| uni_isalnum := λ _, false; uni_upper := λ c, [c] |}.

Definition between (lo hi c : N) : bool := (lo <=? c) && (c <=? hi).

Definition dot : N := 46.
Definition slash : N := 47.
Definition underscore : N := 95.

Section Strings.
Context {U : Unicode}.

(** [str.upper] on one character: a-z, the Cyrillic small letters
    U+0430..U+045F and U+0491 have a one-character capital. *)
Definition upper_char (c : N) : list N :=
  if between 97 122 c then [c - 32]
  else if c <? 128 then [c]
  else if between 0x430 0x44F c then [c - 0x20]
  else if between 0x450 0x45F c then [c - 0x50]
  else if c =? 0x491 then [0x490]
  else uni_upper c.

Definition upper (s : list N) : list N := s ≫= upper_char.

(** One-character [ord]. *)
Definition ord (s : list N) : N := hd 0 s.

(** \w of a [str] pattern: [[a-zA-Z0-9_]] and the Unicode alphanumerics. *)
Definition is_word (c : N) : bool :=
  if c <? 128
  then between 48 57 c || between 65 90 c || between 97 122 c || (c =? underscore)
  else uni_isalnum c.

(** [re.sub(pattern, "_", s)] with [pattern = r"\W"]: every character that
    is not a word character becomes one underscore. *)
Definition sub_nonword (s : list N) : list N :=
  (λ c, if is_word c then c else underscore) <$> s.

(** [s.rfind(c)], [None] for -1. *)
Fixpoint rfind (c : N) (s : list N) : option nat :=
  match s with
  | [] => None
  | x :: s' =>
      match rfind c s' with
      | Some i => Some (S i)
      | None => if x =? c then Some 0%nat else None
      end
  end.

(** [s.split(sep)] for a one-character separator. *)
Fixpoint split_on (sep : N) (s : list N) : list (list N) :=
  match s with
  | [] => [[]]
  | x :: s' =>
      match split_on sep s' with
      | p :: ps => if x =? sep then [] :: p :: ps else (x :: p) :: ps
      | [] => [[x]]
      end
  end.

(** [PurePosixPath(s).name]: the last component that is neither empty
    nor ".". *)
Definition path_name (s : list N) : list N :=
  default [] (last (filter (λ p, p ≠ [] ∧ p ≠ [dot]) (split_on slash s))).

(** [PurePath.suffix] of a final component. *)
Definition suffix (name : list N) : list N :=
  match rfind dot name with
  | Some i =>
      if bool_decide (0 < i ∧ i < length name - 1)%nat then drop i name else []
  | None => []
  end.

(** [MediaHandler.get_extension]. *)
Definition get_extension (name : list N) : list N :=
  upper (drop 1 (suffix (path_name name))).

(** [os.path.splitext] (posixpath: separator "/", no alternative
    separator). *)
Definition splitext (p : list N) : list N * list N :=
  let start := match rfind slash p with Some i => S i | None => 0%nat end in
  match rfind dot p with
  | Some d =>
      if bool_decide (start ≤ d)%nat
           && existsb (λ c, negb (c =? dot)) (take (d - start) (drop start p))
      then (take d p, drop d p)
      else (p, [])
  | None => (p, [])
  end.

(** [str.replace(old, new)]: occurrences of [old] are replaced from the
    left, without overlap; an empty [old] matches before every character
    and at the end.  [skip] counts the characters of a match still to be
    dropped. *)
Fixpoint replace_from (old new : list N) (skip : nat) (s : list N) : list N :=
  match s with
  | [] => []
  | x :: s' =>
      match skip with
      | S k => replace_from old new k s'
      | O =>
          if bool_decide (old `prefix_of` s)
          then new ++ replace_from old new (length old - 1) s'
          else x :: replace_from old new 0 s'
      end
  end.

Definition replace (old new s : list N) : list N :=
  match old with
  | [] => new ++ (s ≫= λ c, c :: new)
  | _ => replace_from old new 0 s
  end.

(** ** The transliteration table *)

Definition CYRILLIC_SYMBOLS : list N :=
  [0x430; 0x431; 0x432; 0x433; 0x434; 0x435; 0x451; 0x436; 0x437; 0x438;
   0x439; 0x43A; 0x43B; 0x43C; 0x43D; 0x43E; 0x43F; 0x440; 0x441; 0x442;
   0x443; 0x444; 0x445; 0x446; 0x447; 0x448; 0x449; 0x44A; 0x44B; 0x44C;
   0x44D; 0x44E; 0x44F; 0x454; 0x456; 0x457; 0x491].

Definition TRANSLATION : list (list N) :=
  lit <$> ["a"; "b"; "v"; "g"; "d"; "e"; "yo"; "zh"; "z"; "i"; "y"; "k"; "l";
           "m"; "n"; "o"; "p"; "r"; "s"; "t"; "u"; "f"; "kh"; "ts"; "ch";
           "sh"; "shch"; "'"; "y"; "'"; "e"; "yu"; "ya"; "ye"; "i"; "yi";
           "g"]%string.

(** The loop that fills [TRANS]: a later assignment to a key replaces an
    earlier one. *)
Definition TRANS : gmap N (list N) :=
  foldl (λ T cl, <[ord (upper [cl.1]) := upper cl.2]> (<[cl.1 := cl.2]> T))
        ∅ (zip CYRILLIC_SYMBOLS TRANSLATION).

(** The shape of an entry of [TRANS]: the key is beyond U+0400, the value
    a non-empty string of ASCII characters. *)
Definition trans_entry_ok (c : N) (v : list N) : bool :=
  (0x400 <=? c) && negb (bool_decide (v = [])) && forallb (λ x, x <? 128) v.

(** A character that [normalize] leaves alone in a stem: a word character
    that [TRANS] does not translate. *)
Definition settled (c : N) : Prop := is_word c = true ∧ TRANS !! c = None.

(** [s.translate(TRANS)]. *)
Definition translate (s : list N) : list N :=
  s ≫= λ c, default [c] (TRANS !! c).

(** [MediaHandler.normalize]. *)
Definition normalize (name : list N) : list N :=
  let '(filename, ext) := splitext name in
  sub_nonword (translate filename) ++ ext.

End Strings.

(** ** Paths, buckets and the module-level state *)

Abbreviation path := (list (list N)).

(** [p / name] for a name of one component; joining [""] changes
    nothing. *)
Definition joinpath (p : path) (name : list N) : path :=
  if decide (name = []) then p else p ++ [name].

Infix "/:" := joinpath (at level 40, left associativity).

(** [p.name]. *)
Definition final_name (p : path) : list N := default [] (last p).

(** [p.parent]. *)
Definition parent (p : path) : path := take (length p - 1) p.

(** The module-level lists that receive scanned files.  ["ZIP"], ["GZ"] and
    ["TAR"] name one and the same list, [ARCHIVES]. *)
Inductive bucket :=
  | JPEG_IMAGES | JPG_IMAGES | PNG_IMAGES | SVG_IMAGES
  | MP3_AUDIO | OGG_AUDIO | WAV_AUDIO | AMR_AUDIO
  | AVI_VIDEO | MP4_VIDEO | MOV_VIDEO | MKV_VIDEO
  | DOC_DOCS | DOCX_DOCS | TXT_DOCS | PDF_DOCS | XLSX_DOCS | PPTX_DOCS
  | ARCHIVES | MY_OTHER.

#[global] Instance bucket_eq_dec : EqDecision bucket.
Proof. solve_decision. Defined.

Definition REGISTER_EXTENSION : gmap (list N) bucket :=
  list_to_map
    [ (lit "JPEG", JPEG_IMAGES); (lit "JPG", JPG_IMAGES);
      (lit "PNG", PNG_IMAGES); (lit "SVG", SVG_IMAGES);
      (lit "MP3", MP3_AUDIO); (lit "OGG", OGG_AUDIO);
      (lit "WAV", WAV_AUDIO); (lit "AMR", AMR_AUDIO);
      (lit "AVI", AVI_VIDEO); (lit "MP4", MP4_VIDEO);
      (lit "MOV", MOV_VIDEO); (lit "MKV", MKV_VIDEO);
      (lit "DOC", DOC_DOCS); (lit "DOCX", DOCX_DOCS);
      (lit "TXT", TXT_DOCS); (lit "PDF", PDF_DOCS);
      (lit "XLSX", XLSX_DOCS); (lit "PPTX", PPTX_DOCS);
      (lit "ZIP", ARCHIVES); (lit "GZ", ARCHIVES); (lit "TAR", ARCHIVES) ].

(** Everything main.py keeps at module level and mutates while it scans. *)
Record globals := Globals {
  contents : bucket → list path;
  FOLDERS : list path;
  EXTENSIONS : gset (list N);
  UNKNOWN : gset (list N);
}.

(** The state right after the module is imported. *)
Definition fresh_globals : globals :=
  {| contents := λ _, []; FOLDERS := []; EXTENSIONS := ∅; UNKNOWN := ∅ |}.

(** [b.append(p)] on the list named [b]. *)
Definition append_to (b : bucket) (p : path) (st : globals) : globals :=
  {| contents := λ b', if decide (b' = b) then contents st b' ++ [p]
                       else contents st b';
     FOLDERS := FOLDERS st;
     EXTENSIONS := EXTENSIONS st;
     UNKNOWN := UNKNOWN st |}.

Definition add_folder (p : path) (st : globals) : globals :=
  {| contents := contents st; FOLDERS := FOLDERS st ++ [p];
     EXTENSIONS := EXTENSIONS st; UNKNOWN := UNKNOWN st |}.

Definition add_extension (e : list N) (st : globals) : globals :=
  {| contents := contents st; FOLDERS := FOLDERS st;
     EXTENSIONS := {[ e ]} ∪ EXTENSIONS st; UNKNOWN := UNKNOWN st |}.

Definition add_unknown (e : list N) (st : globals) : globals :=
  {| contents := contents st; FOLDERS := FOLDERS st;
     EXTENSIONS := EXTENSIONS st; UNKNOWN := {[ e ]} ∪ UNKNOWN st |}.

(** The categories, as [process_folder] groups the lists into its six
    tasks. *)
Inductive category := Image | Audio | Video | Document | Archive | Other.

Definition category_of (b : bucket) : category :=
  match b with
  | JPEG_IMAGES | JPG_IMAGES | PNG_IMAGES | SVG_IMAGES => Image
  | MP3_AUDIO | OGG_AUDIO | WAV_AUDIO | AMR_AUDIO => Audio
  | AVI_VIDEO | MP4_VIDEO | MOV_VIDEO | MKV_VIDEO => Video
  | DOC_DOCS | DOCX_DOCS | TXT_DOCS | PDF_DOCS | XLSX_DOCS | PPTX_DOCS => Document
  | ARCHIVES => Archive
  | MY_OTHER => Other
  end.

(** The characters of the keys of [REGISTER_EXTENSION]: capital ASCII
    letters and digits. *)
Definition key_char (c : N) : bool := between 65 90 c || between 48 57 c.

(** ** Scanning *)

(** What [folder.iterdir()] and [item.is_dir()] show of a directory: its
    entries in the order the operating system lists them. *)
Inductive entry :=
  | File (name : list N)
  | Dir (name : list N) (children : list entry).

Definition entry_name (e : entry) : list N :=
  match e with File n => n | Dir n _ => n end.

(** The directory names [scan] does not enter. *)
Definition skipped_names : list (list N) :=
  lit <$> ["archives"; "video"; "audio"; "documents"; "images";
           "MY_OTHER"]%string.

Section Scan.
Context {U : Unicode}.

(** The body of the loop of [scan] for an entry that is not a
    directory. *)
Definition scan_file (folder : path) (name : list N) (st : globals) : globals :=
  let extension := get_extension name in
  let full_name := folder /: name in
  if decide (extension = []) then append_to MY_OTHER full_name st
  else
    match REGISTER_EXTENSION !! extension with
    | Some b => add_extension extension (append_to b full_name st)
    | None => append_to MY_OTHER full_name (add_unknown extension st)
    end.

(** The list [scan] appends a file of this name to. *)
Definition bucket_of (name : list N) : bucket :=
  let extension := get_extension name in
  if decide (extension = []) then MY_OTHER
  else default MY_OTHER (REGISTER_EXTENSION !! extension).

(** The category a file of this name ends in. *)
Definition classify (name : list N) : category := category_of (bucket_of name).

(** One turn of the loop of [MediaHandler.scan] over [folder.iterdir()],
    for the entry [e] of [folder]; the recursive call scans the listing of
    a subdirectory that is not skipped. *)
Fixpoint scan_entry (folder : path) (e : entry) (st : globals) : globals :=
  match e with
  | File name => scan_file folder name st
  | Dir name children =>
      if decide (name ∈ skipped_names) then st
      else
        let item := folder /: name in
        foldl (λ st e, scan_entry item e st) (add_folder item st) children
  end.

(** [MediaHandler.scan] on the listing [items] of [folder]. *)
Definition scan (folder : path) (items : list entry) (st : globals) : globals :=
  foldl (λ st e, scan_entry folder e st) st items.

(** The files [scan] reaches, each with the folder it is in, in the order
    of the walk. *)
Fixpoint visited_entry (folder : path) (e : entry) : list (path * list N) :=
  match e with
  | File name => [(folder, name)]
  | Dir name children =>
      if decide (name ∈ skipped_names) then []
      else children ≫= visited_entry (folder /: name)
  end.

Definition visited (folder : path) (items : list entry) : list (path * list N) :=
  items ≫= visited_entry folder.

(** The paths among [l] that go to the list [b]. *)
Definition paths_for (b : bucket) (l : list (path * list N)) : list path :=
  (λ fn, fn.1 /: fn.2) <$> filter (λ fn, bucket_of fn.2 = b) l.

(** The extension [scan] records as unknown for a file of this name, if
    any. *)
Definition unknown_of (name : list N) : gset (list N) :=
  let extension := get_extension name in
  if decide (extension = []) then ∅
  else match REGISTER_EXTENSION !! extension with
       | Some _ => ∅
       | None => {[ extension ]}
       end.

End Scan.

(** Letter case in ASCII: [s] is a casing of [e] when it differs from [e]
    in the case of letters only. *)
Definition ascii_lower (c : N) : N := if between 65 90 c then c + 32 else c.

Definition casing_of (s e : list N) : Prop :=
  Forall2 (λ c d, c = d ∨ c = ascii_lower d) s e.

(** ** The file system and the handlers' effects *)

(** What a file holds: a file that was there before the run, or the
    member [member] extracted from the archive [archive]. *)
Inductive data :=
  | Original (id : N)
  | Member (archive : data) (member : path).

Inductive node :=
  | NDir
  | NFile (d : data).

#[global] Instance data_eq_dec : EqDecision data.
Proof. solve_decision. Defined.
#[global] Instance node_eq_dec : EqDecision node.
Proof. solve_decision. Defined.

(** The world the handlers act on: the file system, every path taken
    from the working directory [[]], and the messages handed to the
    logger. *)
Record world := World {
  files : gmap path node;
  log : list (list N);
}.

Definition set_files (f : gmap path node) (w : world) : world :=
  {| files := f; log := log w |}.

(** The exceptions the library calls raise. *)
Inductive exn :=
  | FileNotFoundError
  | FileExistsError
  | NotADirectoryError
  | IsADirectoryError
  | DirectoryNotEmpty
  | ShutilError
  | ReadError
  | ExtractionError.

#[global] Instance exn_eq_dec : EqDecision exn.
Proof. solve_decision. Defined.

(** A computation changes the world and returns a value or raises; what
    it changed before it raised stays changed. *)
Definition M (A : Type) : Type := world → world * (exn + A).

#[global] Instance M_ret : MRet M := λ A a w, (w, inr a).
#[global] Instance M_bind : MBind M := λ A B k m w,
  match m w with
  | (w', inr a) => k a w'
  | (w', inl e) => (w', inl e)
  end.

Definition raise {A} (e : exn) : M A := λ w, (w, inl e).

(** [try: m except Exception: pass]. *)
Definition try_pass (m : M unit) : M unit := λ w,
  match m w with
  | (w', _) => (w', inr ())
  end.

(** [try: m except exc: h; return] followed by [k]: the handler [h] runs
    when [m] raises [exc] and ends the function; any other exception goes
    up; [k] runs when [m] returns. *)
Definition try_except_return (m : M unit) (exc : exn) (h k : M unit) : M unit :=
  λ w,
    match m w with
    | (w', inl e) => if decide (e = exc) then h w' else (w', inl e)
    | (w', inr _) => k w'
    end.

(** A [for] loop: the first exception ends it. *)
Definition for_each {A} (body : A → M unit) : list A → M unit :=
  fix go l :=
    match l with
    | [] => mret ()
    | x :: l' => body x ;; go l'
    end.

(** The non-empty prefixes of [p], shortest first. *)
Definition prefixes (p : path) : list path :=
  (λ n, take n p) <$> seq 1 (length p).

Definition is_dir (f : gmap path node) (p : path) : bool :=
  bool_decide (p = [] ∨ f !! p = Some NDir).

Definition exists_at (f : gmap path node) (p : path) : bool :=
  bool_decide (p = [] ∨ is_Some (f !! p)).

Definition is_file_node (n : option node) : bool :=
  match n with Some (NFile _) => true | _ => false end.

(** [p.mkdir(exist_ok=True, parents=True)]: a file at [p] or above it
    makes the call fail before anything is created. *)
Definition mkdir_p (p : path) : M unit := λ w,
  if is_file_node (files w !! p) then (w, inl FileExistsError)
  else if existsb (λ q, is_file_node (files w !! q)) (prefixes p)
  then (w, inl NotADirectoryError)
  else (set_files (foldr (λ q f, <[q := NDir]> f) (files w) (prefixes p)) w,
        inr ()).

(** [p.mkdir(exist_ok=True)]. *)
Definition mkdir_exist_ok (p : path) : M unit := λ w,
  if is_dir (files w) p then (w, inr ())
  else if exists_at (files w) p then (w, inl FileExistsError)
  else if is_dir (files w) (parent p)
  then (set_files (<[p := NDir]> (files w)) w, inr ())
  else (w, inl FileNotFoundError).

(** [p.rmdir()]. *)
Definition rmdir (p : path) : M unit := λ w,
  match files w !! p with
  | Some NDir =>
      if bool_decide (map_Forall (λ q _, ¬ (p `prefix_of` q ∧ q ≠ p)) (files w))
      then (set_files (delete p (files w)) w, inr ())
      else (w, inl DirectoryNotEmpty)
  | Some (NFile _) => (w, inl NotADirectoryError)
  | None => (w, inl FileNotFoundError)
  end.

(** [p.unlink()]. *)
Definition unlink (p : path) : M unit := λ w,
  match files w !! p with
  | Some (NFile _) => (set_files (delete p (files w)) w, inr ())
  | Some NDir => (w, inl IsADirectoryError)
  | None => (w, inl FileNotFoundError)
  end.

(** The directory [src] and all below it, renamed to [dst]. *)
Definition rename_tree (src dst : path) (f : gmap path node) : gmap path node :=
  list_to_map
    ((λ kv, (dst ++ drop (length src) kv.1, kv.2))
       <$> map_to_list (filter (λ kv, src `prefix_of` kv.1) f))
  ∪ filter (λ kv, ¬ src `prefix_of` kv.1) f.

(** [shutil.move(src, dst)]: into [dst] when [dst] is a directory, and
    else onto [dst], replacing a file that is there. *)
Definition move (src dst : path) : M unit := λ w,
  let f := files w in
  if is_dir f dst && bool_decide (src = dst) then (w, inr ())
  else
    let real_dst := if is_dir f dst then dst /: final_name src else dst in
    if is_dir f dst && exists_at f real_dst then (w, inl ShutilError)
    else
      match f !! src with
      | None => (w, inl FileNotFoundError)
      | Some (NFile d) =>
          if is_dir f (parent real_dst)
          then (set_files (<[real_dst := NFile d]> (delete src f)) w, inr ())
          else (w, inl FileNotFoundError)
      | Some NDir =>
          if exists_at f real_dst then (w, inl FileExistsError)
          else if bool_decide (src `prefix_of` real_dst) then (w, inl ShutilError)
          else if is_dir f (parent real_dst)
          then (set_files (rename_tree src real_dst f) w, inr ())
          else (w, inl FileNotFoundError)
      end.

(** The unpackers [shutil] registers, found by the end of the file
    name. *)
Inductive format := Zip | Tar.

Definition find_unpack_format (name : list N) : option format :=
  if bool_decide (Exists (λ e, lit e `suffix_of` name)
                    [".tar"; ".tar.gz"; ".tgz"; ".tar.bz2"; ".tbz2";
                     ".tar.xz"; ".txz"]%string)
  then Some Tar
  else if bool_decide (lit ".zip" `suffix_of` name) then Some Zip
  else None.

(** What reading an archive file comes to. *)
Inductive unpack_result :=
  | Unpacked (members : list path)
      (** the archive is read to its end: the files it holds, as paths
          below the directory it is extracted to *)
  | NotAnArchive
      (** [shutil.ReadError]: the file is not of the format its name
          announces; nothing is written *)
  | Broken (members : list path).
      (** reading stops with another exception after these members are
          written *)

(** What the unpackers make of a file's content. *)
Class Archives := read_archive : format → data → unpack_result.

(** One extracted member: the directories above it are made, then the
    file is written. *)
Definition write_file (target : path) (d : data) : M unit := λ w,
  if is_dir (files w) target then (w, inl IsADirectoryError)
  else (set_files (<[target := NFile d]> (files w)) w, inr ()).

Definition write_member (base : path) (d : data) (m : path) : M unit :=
  mkdir_p (parent (base ++ m)) ;; write_file (base ++ m) (Member d m).

(** How extraction into [base] may change a file system: a path keeps
    what it had, or becomes a directory on the way to a member, or
    receives a member in place of anything but a directory. *)
Definition extends (base : path) (f f' : gmap path node) : Prop :=
  ∀ q, f' !! q = f !! q
       ∨ (f !! q = None ∧ f' !! q = Some NDir ∧ q ≠ []
          ∧ ∃ m, q `prefix_of` base ++ m)
       ∨ (f !! q ≠ Some NDir
          ∧ ∃ d m, q = base ++ m ∧ f' !! q = Some (NFile (Member d m))).

Section Handlers.
Context {U : Unicode} {A : Archives}.

(** [shutil.unpack_archive(filename, extract_dir)]. *)
Definition unpack_archive (filename extract_dir : path) : M unit := λ w,
  match find_unpack_format (final_name filename) with
  | None => (w, inl ReadError)
  | Some fmt =>
      match files w !! filename with
      | Some (NFile d) =>
          match read_archive fmt d with
          | Unpacked ms => for_each (write_member extract_dir d) ms w
          | NotAnArchive => (w, inl ReadError)
          | Broken ms =>
              (for_each (write_member extract_dir d) ms ;; raise ExtractionError) w
          end
      | Some NDir =>
          (w, inl (match fmt with Zip => ReadError | Tar => IsADirectoryError end))
      | None =>
          (w, inl (match fmt with Zip => ReadError | Tar => FileNotFoundError end))
      end
  end.

(** The body of the [try] of [handle_media]. *)
Definition relocate (file_name target_folder : path) : M unit :=
  mkdir_p target_folder ;;
  let new_file_path := target_folder /: normalize (final_name file_name) in
  move file_name new_file_path.

(** [MediaHandler.handle_media]. *)
Definition handle_media (file_name target_folder : path) : M unit :=
  try_pass (relocate file_name target_folder).

(** The directory [handle_archive] unpacks into. *)
Definition folder_for_file (file_name target_folder : path) : path :=
  target_folder /:
    normalize (replace (suffix (final_name file_name)) [] (final_name file_name)).

(** [PurePath.stem]: the final component without its last suffix. *)
Definition stem (name : list N) : list N :=
  take (length name - length (suffix name)) name.

(** The folder named after the normalized stem, the extension stripped
    at the end of the name only. *)
Definition folder_for_stem (file_name target_folder : path) : path :=
  target_folder /: normalize (stem (final_name file_name)).

(** [MediaHandler.handle_archive]: only [shutil.ReadError] is handled. *)
Definition handle_archive (file_name target_folder : path) : M unit :=
  mkdir_p target_folder ;;
  mkdir_p (folder_for_file file_name target_folder) ;;
  try_except_return
    (unpack_archive file_name (folder_for_file file_name target_folder))
    ReadError
    (rmdir (folder_for_file file_name target_folder))
    (unlink file_name).

(** [MediaHandler.process_files]. *)
Definition process_files (file_list : list path) (target_folder : path) : M unit :=
  for_each (λ file, handle_media file target_folder) file_list.

(** [MediaHandler.process_archives]. *)
Definition process_archives (archives : list path) (target_folder : path) : M unit :=
  for_each (λ archive, handle_archive archive target_folder) archives.

(** [process_images], [process_audio], [process_video] and
    [process_documents] hand their list to [process_files]. *)
Definition process_images := process_files.
Definition process_audio := process_files.
Definition process_video := process_files.
Definition process_documents := process_files.

(** ** Dispatch *)

Definition result_folder : path := [lit "result"].

(** The argument lists of the six tasks, as [process_folder] builds them
    when it submits. *)
Definition images (st : globals) : list path :=
  contents st JPEG_IMAGES ++ contents st JPG_IMAGES
    ++ contents st PNG_IMAGES ++ contents st SVG_IMAGES.
Definition audio (st : globals) : list path :=
  contents st MP3_AUDIO ++ contents st OGG_AUDIO
    ++ contents st WAV_AUDIO ++ contents st AMR_AUDIO.
Definition video (st : globals) : list path :=
  contents st AVI_VIDEO ++ contents st MP4_VIDEO
    ++ contents st MOV_VIDEO ++ contents st MKV_VIDEO.
Definition documents (st : globals) : list path :=
  contents st DOC_DOCS ++ contents st DOCX_DOCS ++ contents st TXT_DOCS
    ++ contents st PDF_DOCS ++ contents st XLSX_DOCS ++ contents st PPTX_DOCS.

(** [executor.submit(task)], the task run at once and to its end: what
    it raises stays in its future, which nobody reads. *)
Definition submit (task : M unit) : M unit := try_pass task.

(** The six tasks every call of [process_folder] submits. *)
Definition dispatch (st : globals) : M unit :=
  submit (process_images (images st) (result_folder /: lit "images")) ;;
  submit (process_audio (audio st) (result_folder /: lit "audio")) ;;
  submit (process_video (video st) (result_folder /: lit "video")) ;;
  submit (process_documents (documents st) (result_folder /: lit "documents")) ;;
  submit (process_archives (contents st ARCHIVES) (result_folder /: lit "archives")) ;;
  submit (process_files (contents st MY_OTHER) (result_folder /: lit "MY_OTHER")).

(** What the loop over [local_folders] submits for one entry of the
    folder: for a directory, [process_folder] on it. *)
Fixpoint process_subfolder (st : globals) (e : entry) : M unit :=
  match e with
  | File _ => mret ()
  | Dir _ children =>
      submit (mkdir_exist_ok result_folder ;;
              for_each (process_subfolder st) children ;;
              dispatch st)
  end.

(** [MediaHandler.process_folder] on a folder with the listing [items],
    the submitted tasks run one after the other in the order of
    submission. *)
Definition process_folder (st : globals) (items : list entry) : M unit :=
  mkdir_exist_ok result_folder ;;
  for_each (process_subfolder st) items ;;
  dispatch st.

(** [MediaHandler.run]: the scan fills the module-level state, the
    dispatch reads it. *)
Definition run (folder : path) (items : list entry) (st : globals) (w : world)
  : globals * (world * (exn + ())) :=
  let st' := scan folder items st in
  (st', process_folder st' items w).

(** *** Runs under any order of the workers

    The pool runs the submitted tasks side by side.  Whatever the order,
    a run is a sequence of handler calls, each on a record of the scanned
    state with the folder of its category, and of calls that make the
    result folder. *)
Inductive job :=
  | MakeResult
  | Relocate (file_name target_folder : path)
  | Unpack (file_name target_folder : path).

#[global] Instance job_eq_dec : EqDecision job.
Proof. solve_decision. Defined.

Definition exec_job (j : job) : M unit :=
  match j with
  | MakeResult => mkdir_exist_ok result_folder
  | Relocate f t => handle_media f t
  | Unpack a t => handle_archive a t
  end.

Definition run_jobs (sched : list job) (w : world) : world :=
  foldl (λ w j, (exec_job j w).1) w sched.

(** The handler calls of the five tasks that relocate, and of the task
    that unpacks. *)
Definition relocations (st : globals) : list job :=
  ((λ f, Relocate f (result_folder /: lit "images")) <$> images st)
  ++ ((λ f, Relocate f (result_folder /: lit "audio")) <$> audio st)
  ++ ((λ f, Relocate f (result_folder /: lit "video")) <$> video st)
  ++ ((λ f, Relocate f (result_folder /: lit "documents")) <$> documents st)
  ++ ((λ f, Relocate f (result_folder /: lit "MY_OTHER")) <$> contents st MY_OTHER).

Definition unpackings (st : globals) : list job :=
  (λ a, Unpack a (result_folder /: lit "archives")) <$> contents st ARCHIVES.

(** The calls a dispatch of [st] can make. *)
Definition valid_job (st : globals) (j : job) : Prop :=
  j = MakeResult ∨ j ∈ relocations st ∨ j ∈ unpackings st.

(** A schedule of a dispatch of [st]: it holds calls of the dispatch
    only, and every relocation at least once ([process_files] goes
    through its whole list). *)
Definition schedule_of (st : globals) (sched : list job) : Prop :=
  Forall (valid_job st) sched ∧ ∀ j, j ∈ relocations st → j ∈ sched.

(** The file a handler call is about, and where a relocation takes it. *)
Definition source_of (j : job) : path :=
  match j with
  | MakeResult => []
  | Relocate f _ => f
  | Unpack a _ => a
  end.

Definition destination (j : job) : path :=
  match j with
  | Relocate f t => t /: normalize (final_name f)
  | _ => []
  end.

(** The folder a handler call is handed. *)
Definition target_of (j : job) : path :=
  match j with
  | MakeResult => []
  | Relocate _ t => t
  | Unpack _ t => t
  end.

(** The folder [t] cannot be made: a regular file is in its place or in
    the place of a folder above it, so [t.mkdir(exist_ok=True,
    parents=True)] raises. *)
Definition blocked (f : gmap path node) (t : path) : Prop :=
  Exists (λ q, is_file_node (f !! q) = true) (prefixes t).

Definition sources (st : globals) : list path :=
  source_of <$> (relocations st ++ unpackings st).

Definition destinations (st : globals) : list path :=
  destination <$> relocations st.

(** A node that no extraction has written. *)
Definition is_original (n : node) : bool :=
  match n with
  | NFile (Member _ _) => false
  | _ => true
  end.

(** A run starts clean when nothing lies deeper under result/ than the
    entries of result/ itself (which may be folders, or regular files in
    the way of folders), every file is one of its own, the scanned records
    are files with a name outside result/, each once, and no two
    relocations go to the same place. *)
Record clean_start (st : globals) (f : gmap path node) : Prop := {
  cs_fresh : ∀ q, result_folder `prefix_of` q →
    f !! q = None ∨ (length q ≤ 2)%nat;
  cs_outside : ∀ p, p ∈ sources st → ¬ result_folder `prefix_of` p;
  cs_original : ∀ q d, f !! q = Some (NFile d) → ∃ i, d = Original i;
  cs_one_path : ∀ p q d,
    f !! p = Some (NFile d) → f !! q = Some (NFile d) → p = q;
  cs_sources : ∀ p,
    p ∈ sources st → is_file_node (f !! p) = true ∧ final_name p ≠ [];
  cs_nodup_sources : NoDup (sources st);
  cs_nodup_destinations : NoDup (destinations st);
}.

(** Where the file [d], at [p] in [f0] when the run started, is in [f']
    after the handler calls [handled].  A file with a relocation: at [p]
    and nowhere else when its folder is blocked (the relocation fails),
    and else at the destination of its relocation and nowhere else.  An
    archive: nowhere but at [p]; there still when its folder is blocked;
    and gone only when [handle_archive] was called on it.  A file that
    was not scanned: at [p] and nowhere else. *)
Definition placed (st : globals) (f0 : gmap path node) (handled : list job)
    (p : path) (d : data) (f' : gmap path node) : Prop :=
  (∀ t, Relocate p t ∈ relocations st →
     (blocked f0 t → ∀ q, f' !! q = Some (NFile d) ↔ q = p)
     ∧ (¬ blocked f0 t →
        result_folder `prefix_of` t /: normalize (final_name p)
        ∧ ∀ q, f' !! q = Some (NFile d) ↔ q = t /: normalize (final_name p)))
  ∧ (∀ t, Unpack p t ∈ unpackings st →
     (∀ q, f' !! q = Some (NFile d) → q = p)
     ∧ (blocked f0 t → f' !! p = Some (NFile d))
     ∧ (f' !! p = None → Unpack p t ∈ handled))
  ∧ (p ∉ sources st → ∀ q, f' !! q = Some (NFile d) ↔ q = p).

(** Where the records of [st] are in [f], for a run that started in
    [f0]: a relocated file is at its source or at its destination, at its
    source as long as its relocation is not among [attempted] or when its
    folder is blocked, and at its destination once an attempt was made
    with the folder not blocked; an archive is where it was, or gone
    after a call on it with its folder not blocked; under result/ a
    regular file of the start stays, and what else is there is a
    directory or an extracted member; everything else is as it was. *)
Record underway (st : globals) (f0 : gmap path node) (attempted : list job)
    (f : gmap path node) : Prop := {
  uw_relocated : ∀ j, j ∈ relocations st →
    (f !! source_of j = f0 !! source_of j ∧ f !! destination j = None
     ∧ (blocked f0 (target_of j) ∨ j ∉ attempted))
    ∨ (¬ blocked f0 (target_of j)
       ∧ f !! source_of j = None ∧ f !! destination j = f0 !! source_of j);
  uw_archives : ∀ j, j ∈ unpackings st →
    f !! source_of j = f0 !! source_of j
    ∨ (f !! source_of j = None ∧ j ∈ attempted
       ∧ ¬ blocked f0 (target_of j));
  uw_elsewhere : ∀ q,
    ¬ result_folder `prefix_of` q → q ∉ sources st → f !! q = f0 !! q;
  uw_result : ∀ q,
    result_folder `prefix_of` q → q ∉ destinations st →
    (is_file_node (f0 !! q) = true → f !! q = f0 !! q)
    ∧ (is_file_node (f0 !! q) = false →
       f !! q = None ∨ f !! q = Some NDir
       ∨ ∃ d m, f !! q = Some (NFile (Member d m)));
  uw_folders : ∀ q,
    q = result_folder ∨ (∃ j, j ∈ relocations st ∧ q = target_of j) →
    is_file_node (f0 !! q) = false →
    f !! q = None ∨ f !! q = Some NDir;
}.

(** What a call of [handle_archive] on the archive [a] with the folder
    [result/archives] can change. *)
Definition archive_step (a : path) (f f' : gmap path node) : Prop :=
  ∀ q, f' !! q = f !! q
       ∨ (q = result_folder ∧ f' !! q = Some NDir)
       ∨ (result_folder /: lit "archives" `prefix_of` q
          ∧ (f' !! q = None ∨ f' !! q = Some NDir
             ∨ ∃ d m, f' !! q = Some (NFile (Member d m))))
       ∨ (q = a ∧ f' !! q = None).

End Handlers.

(** ** A sample folder

    The folder [in] holds photo.JPG, notes.txt, archive.zip (with one
    member, readme.txt), broken.zip (not an archive) and a picture with a
    Cyrillic name; truncated.zip is an archive whose extraction raises
    after its first member. *)
Definition sample_archives : Archives := λ _ d,
  match d with
  | Original 3 => Unpacked [[lit "readme.txt"]]
  | Original 6 => Broken [[lit "part"]]
  | _ => NotAnArchive
  end.

Definition sample_listing : list entry :=
  [ File (lit "photo.JPG"); File (lit "notes.txt"); File (lit "archive.zip");
    File (lit "broken.zip");
    File ([0x444; 0x43E; 0x442; 0x43E] ++ lit ".png") ].

Definition sample_world : world :=
  {| files := list_to_map
       [ ([lit "in"], NDir);
         ([lit "in"; lit "photo.JPG"], NFile (Original 1));
         ([lit "in"; lit "notes.txt"], NFile (Original 2));
         ([lit "in"; lit "archive.zip"], NFile (Original 3));
         ([lit "in"; lit "broken.zip"], NFile (Original 4));
         ([lit "in"; [0x444; 0x43E; 0x442; 0x43E] ++ lit ".png"],
          NFile (Original 5)) ];
     log := [] |}.

Definition truncated_world : world :=
  {| files := {[ [lit "in"; lit "truncated.zip"] := NFile (Original 6) ]};
     log := [] |}.

(** The sample folder beside a result folder that holds a regular file
    named documents, in the way of the folder for documents. *)
Definition obstructed_world : world :=
  {| files := <[[lit "result"] := NDir]>
                (<[[lit "result"; lit "documents"] := NFile (Original 7)]>
                   (files sample_world));
     log := [] |}.

(** A folder with two files whose names normalize to the same name. *)
Definition colliding_listing : list entry :=
  [ File (lit "a b.txt"); File (lit "a_b.txt") ].

Definition colliding_world : world :=
  {| files := list_to_map
       [ ([lit "in"], NDir);
         ([lit "in"; lit "a b.txt"], NFile (Original 1));
         ([lit "in"; lit "a_b.txt"], NFile (Original 2)) ];
     log := [] |}.

(** ** Divisors (factorize.py) *)

Local Open Scope Z_scope.


(** [float(n)] raises [OverflowError] from this integer on: it is the
    least that rounds to no finite double. *)
Definition FLOAT_OVERFLOW : Z := 2 ^ 1024 - 2 ^ 970.

(** [int(n ** 0.5)] for [0 <= n < FLOAT_OVERFLOW], as the platform's
    [pow] computes it. *)
Class FloatPow := int_pow_half : Z → Z.

(** The [pow] that is exact on every integer. *)
Definition exact_pow : FloatPow := Z.sqrt.

Inductive py_error := OverflowError | TypeError.

(** [str(e)] of the two exceptions. *)
Definition error_text (e : py_error) : list N :=
  match e with
  | OverflowError => lit "int too large to convert to float"
  | TypeError =>
      lit "int() argument must be a string, a bytes-like object or a real number, not 'complex'"
  end.

Section Factorize.
Context {F : FloatPow}.

(** [int(number ** 0.5)]: the power first converts [number] to a float,
    which raises for an integer too large in absolute value; a negative
    number then has a complex power, which [int] refuses. *)
Definition int_sqrt (number : Z) : py_error + Z :=
  if number <? 0
  then (if - FLOAT_OVERFLOW <? number then inl TypeError else inl OverflowError)
  else if number <? FLOAT_OVERFLOW then inr (int_pow_half number)
  else inl OverflowError.

(** [range(1, stop)]. *)
Definition range1 (stop : Z) : list Z :=
  Z.of_nat <$> seq 1 (Z.to_nat (stop - 1)).

(** What one turn of the loop of [factorize] appends to [factors]. *)
Definition appended (number num : Z) : list Z :=
  if number mod num =? 0
  then num :: (if negb (num =? number / num) then [number / num] else [])
  else [].

(** The loop of [factorize]; [num] is never 0, so its body raises
    nothing. *)
Definition collect (number : Z) (nums : list Z) : list Z :=
  foldl (λ factors num, factors ++ appended number num) [] nums.

(** [sorted] on integers. *)
Definition sorted (l : list Z) : list Z := merge_sort Z.le l.

(** [Factorize.factorize]: the divisors found, and the message the
    logger gets when the square root raises. *)
Definition factorize (number : Z) : list Z * option (list N) :=
  match int_sqrt number with
  | inr r => (sorted (collect number (range1 (r + 1))), None)
  | inl e => (sorted [], Some (lit "Error in factorize: " ++ error_text e))
  end.

End Factorize.

Local Close Scope Z_scope.

(** ** The rest of factorize.py and of [main] *)

Local Open Scope Z_scope.

Section Parallel.
Context {F : FloatPow}.

(** [Factorize.factorize_all_parallel_chunked]: the pairs appended to
    [result], and the messages [factorize] hands to the logger on the
    way.  [factorize] catches what it raises, so the [except] of this loop
    is never entered. *)
Definition factorize_all_parallel_chunked (chunk : list Z)
  : list (Z * list Z) * list (list N) :=
  foldl (λ acc number,
           let '(factors, logged) := factorize number in
           (acc.1 ++ [(number, factors)], acc.2 ++ option_list logged))
        ([], []) chunk.

(** [numbers[start:end]] for indices that are not negative. *)
Definition slice (numbers : list Z) (start stop : Z) : list Z :=
  take (Z.to_nat stop - Z.to_nat start) (drop (Z.to_nat start) numbers).

(** [range(n)]. *)
Definition range0 (n : Z) : list Z := Z.of_nat <$> seq 0 (Z.to_nat n).

(** The loop of [process_factorization] that cuts the list into one chunk
    per process; the state is [chunks] and [start]. *)
Definition make_chunks (numbers : list Z) (num_processes : Z) : list (list Z) :=
  let chunk_size := Z.of_nat (length numbers) / num_processes in
  let remainder := Z.of_nat (length numbers) mod num_processes in
  (foldl (λ acc process,
            let stop := acc.2 + chunk_size + (if process <? remainder then 1 else 0) in
            (acc.1 ++ [slice numbers acc.2 stop], stop))
         ([], 0) (range0 num_processes)).1.

(** [Factorize.process_factorization]: [completed] is the order in which
    [as_completed] yields the futures, as indices into [chunks].  The
    value is [None] when the body raises (the division by a zero
    [num_processes], or the pool refusing a negative [max_workers]).  The
    second component holds what the [except] branches of this method log;
    what [factorize] logs in a worker is the second component of
    [factorize_all_parallel_chunked]. *)
Definition process_factorization (numbers_to_factorize : list Z)
    (num_processes : Z) (completed : list nat)
  : option (list (Z * list Z)) * list (list N) :=
  if num_processes =? 0
  then (None, [lit "Error in process_factorization: integer division or modulo by zero"])
  else if num_processes <? 0
  then (None, [lit "Error in process_factorization: max_workers must be greater than 0"])
  else
    let chunks := make_chunks numbers_to_factorize num_processes in
    (Some (completed ≫= λ i,
             (factorize_all_parallel_chunked (default [] (chunks !! i))).1),
     []).

End Parallel.

(** The number of processes [main] passes on: a request below 1 counts
    as 2, a long list asks for more, and 22 is the most. *)
Definition choose_processes (number_processes len : Z) : Z :=
  let number_processes := if number_processes <? 1 then 2 else number_processes in
  Z.min 22 (Z.max number_processes (len / 1000)).

Local Close Scope Z_scope.

(** ** The module-level lists as a whole *)

(** The twenty lists main.py defines at module level. *)
Definition all_buckets : list bucket :=
  [ JPEG_IMAGES; JPG_IMAGES; PNG_IMAGES; SVG_IMAGES;
    MP3_AUDIO; OGG_AUDIO; WAV_AUDIO; AMR_AUDIO;
    AVI_VIDEO; MP4_VIDEO; MOV_VIDEO; MKV_VIDEO;
    DOC_DOCS; DOCX_DOCS; TXT_DOCS; PDF_DOCS; XLSX_DOCS; PPTX_DOCS;
    ARCHIVES; MY_OTHER ].

(** Every record of the lists, list after list. *)
Definition recorded (st : globals) : list path := all_buckets ≫= contents st.

(** The extension [scan] adds to [EXTENSIONS] for a file of this name, if
    any. *)
Definition known_of {U : Unicode} (name : list N) : gset (list N) :=
  let extension := get_extension name in
  if decide (extension = []) then ∅
  else match REGISTER_EXTENSION !! extension with
       | Some _ => {[ extension ]}
       | None => ∅
       end.

(** * Properties *)

Section StringFacts.
Context {U : Unicode}.

Lemma rfind_None c s : rfind c s = None ↔ c ∉ s.
Proof.
  induction s as [|x s IH]; simpl.
  - split; [intros _; apply not_elem_of_nil | done].
  - rewrite not_elem_of_cons. destruct (rfind c s) as [i|].
    + split; [done|]. intros [_ H]. apply IH in H. done.
    + destruct (N.eqb_spec x c) as [->|Hne].
      * split; [done | intros [H _]; done].
      * split; [intros _; split; [congruence | by apply IH] | done].
Qed.

Lemma rfind_Some c s i :
  rfind c s = Some i → ∃ s1 s2, s = s1 ++ c :: s2 ∧ length s1 = i ∧ c ∉ s2.
Proof.
  revert i. induction s as [|x s IH]; simpl; [done|]. intros i.
  destruct (rfind c s) as [j|] eqn:E.
  - intros [= <-]. destruct (IH j eq_refl) as (s1 & s2 & -> & <- & Hn).
    by exists (x :: s1), s2.
  - destruct (N.eqb_spec x c) as [->|Hne]; [|done].
    intros [= <-]. exists [], s. split_and!; [done..|]. by apply rfind_None.
Qed.

Lemma rfind_app_last c s1 s2 :
  c ∉ s2 → rfind c (s1 ++ c :: s2) = Some (length s1).
Proof.
  intros Hn. induction s1 as [|x s1 IH]; simpl.
  - apply rfind_None in Hn. rewrite Hn. by rewrite N.eqb_refl.
  - by rewrite IH.
Qed.


Lemma TRANS_entries c v : TRANS !! c = Some v → trans_entry_ok c v = true.
Proof.
  revert c v. change (map_Forall (λ c v, trans_entry_ok c v = true) TRANS).
  apply map_Forall_to_list.
  assert (H : forallb (λ cv, trans_entry_ok cv.1 cv.2) (map_to_list TRANS) = true)
    by (vm_compute; reflexivity).
  apply Forall_forall. intros [c v] Hin. 
  rewrite forallb_forall in H. apply (H (c, v)). by apply list_elem_of_In.
Qed.

#[local] Opaque TRANS.

Lemma TRANS_key_range c v : TRANS !! c = Some v → 0x400 ≤ c.
Proof.
  intros H%TRANS_entries. unfold trans_entry_ok in H.
  apply andb_true_iff in H as [H _]. apply andb_true_iff in H as [H _].
  by apply N.leb_le.
Qed.

Lemma TRANS_ascii_None c : c < 128 → TRANS !! c = None.
Proof.
  intros Hc. destruct (TRANS !! c) as [v|] eqn:E; [|done].
  apply TRANS_key_range in E. lia.
Qed.


Lemma translate_cons c s :
  translate (c :: s) = default [c] (TRANS !! c) ++ translate s.
Proof. reflexivity. Qed.

Lemma sub_nonword_cons c s :
  sub_nonword (c :: s)
  = (if is_word c then c else underscore) :: sub_nonword s.
Proof. reflexivity. Qed.

Lemma translate_untranslated s :
  Forall (λ c, TRANS !! c = None) (translate s).
Proof.
  induction s as [|c s IH]; [constructor|].
  rewrite translate_cons. apply Forall_app. split; [|exact IH].
  destruct (TRANS !! c) as [v|] eqn:E; cbn [default].
  - apply TRANS_entries in E. unfold trans_entry_ok in E.
    apply andb_true_iff in E as [_ E]. rewrite forallb_forall in E.
    apply Forall_forall. intros x Hx. apply TRANS_ascii_None.
    apply N.ltb_lt, E. by apply list_elem_of_In.
  - by apply Forall_singleton.
Qed.

Lemma translate_nil_inv s : translate s = [] → s = [].
Proof.
  destruct s as [|c s]; [done|]. rewrite translate_cons.
  destruct (TRANS !! c) as [v|] eqn:E; cbn [default]; [|done].
  apply TRANS_entries in E. unfold trans_entry_ok in E.
  apply andb_true_iff in E as [E _]. apply andb_true_iff in E as [_ E].
  apply negb_true_iff, bool_decide_eq_false in E.
  intros [H _]%app_eq_nil. done.
Qed.

Lemma sub_nonword_settled s :
  Forall (λ c, TRANS !! c = None) s → Forall settled (sub_nonword s).
Proof.
  induction 1 as [|c s Hc _ IH]; [constructor|].
  rewrite sub_nonword_cons. constructor; [|exact IH].
  destruct (is_word c) eqn:E; split; try done; by apply TRANS_ascii_None.
Qed.

Lemma translate_settled s : Forall settled s → translate s = s.
Proof.
  induction 1 as [|c s [_ Hc] _ IH]; [done|].
  by rewrite translate_cons, Hc, IH.
Qed.

Lemma sub_nonword_word s : Forall settled s → sub_nonword s = s.
Proof.
  induction 1 as [|c s [Hc _] _ IH]; [done|].
  by rewrite sub_nonword_cons, Hc, IH.
Qed.

Lemma settled_not_dot s : Forall settled s → dot ∉ s.
Proof.
  intros H Hin. rewrite Forall_forall in H. by destruct (H _ Hin) as [Hw _].
Qed.

Lemma settled_not_slash s : Forall settled s → slash ∉ s.
Proof.
  intros H Hin. rewrite Forall_forall in H. by destruct (H _ Hin) as [Hw _].
Qed.

(** The stem that [normalize] produces is made of settled characters. *)
Lemma stem_settled s : Forall settled (sub_nonword (translate s)).
Proof. apply sub_nonword_settled, translate_untranslated. Qed.

(** The two shapes of a result of [splitext]. *)
Lemma splitext_cases p :
  splitext p = (p, [])
  ∨ ∃ stem e, p = stem ++ (dot :: e) ∧ splitext p = (stem, dot :: e)
      ∧ stem ≠ [] ∧ (dot ∉ e) ∧ (slash ∉ e).
Proof.
  unfold splitext.
  destruct (rfind dot p) as [d|] eqn:Ed; [|by left].
  set (start := match rfind slash p with Some i => S i | None => 0%nat end).
  destruct (bool_decide (start ≤ d)%nat && _) eqn:Ec; [|by left].
  right. apply andb_true_iff in Ec as [Hle Hex]. apply bool_decide_eq_true in Hle.
  apply rfind_Some in Ed as (s1 & s2 & -> & <- & Hn).
  exists s1, s2. rewrite take_app_length, drop_app_length.
  split_and!; [done..| | done |].
  - intros ->. replace (length (@nil N) - start)%nat with 0%nat in Hex
      by (simpl; lia).
    by rewrite take_0 in Hex.
  - subst start. destruct (rfind slash (s1 ++ dot :: s2)) as [i|] eqn:Es.
    + apply rfind_Some in Es as (t1 & t2 & Heq & <- & Hnt).
      intros Hin. apply Hnt.
      assert (Hs2 : drop (S (length s1)) (s1 ++ dot :: s2) = s2).
      { rewrite cons_middle, app_assoc.
        rewrite drop_app_length'; [done | rewrite length_app; simpl; lia]. }
      assert (Ht2 : drop (S (length t1)) (t1 ++ slash :: t2) = t2).
      { rewrite cons_middle, app_assoc.
        rewrite drop_app_length'; [done | rewrite length_app; simpl; lia]. }
      rewrite Heq in Hs2.
      replace (S (length s1))
        with (S (length t1) + (length s1 - length t1))%nat in Hs2 by lia.
      rewrite <- drop_drop, Ht2 in Hs2. rewrite <- Hs2 in Hin.
      eapply subseteq_drop, Hin.
    + apply rfind_None in Es. intros Hin. apply Es.
      apply elem_of_app. right. by right.
Qed.


(** [splitext] gives back the stem and the extension of a name put
    together from a settled, non-empty stem and an extension. *)
Lemma splitext_rebuilt stem e :
  Forall settled stem → stem ≠ [] → dot ∉ e → slash ∉ e →
  splitext (stem ++ dot :: e) = (stem, dot :: e).
Proof.
  intros Hs Hne Hd Hsl. unfold splitext.
  assert (rfind slash (stem ++ dot :: e) = None) as ->.
  { apply rfind_None. rewrite elem_of_app, elem_of_cons.
    intros [H|[H|H]]; [by apply settled_not_slash in H | done | done]. }
  rewrite rfind_app_last by done.
  rewrite Nat.sub_0_r, drop_0, take_app_length, drop_app_length.
  rewrite bool_decide_eq_true_2 by lia. simpl.
  destruct stem as [|c stem]; [done|]. simpl.
  apply Forall_cons in Hs as [[Hc _] _].
  destruct (N.eqb_spec c dot) as [->|_]; [done|]. done.
Qed.

Lemma splitext_settled s : Forall settled s → splitext s = (s, []).
Proof.
  intros Hs. unfold splitext.
  assert (rfind dot s = None) as ->; [|done].
  by apply rfind_None, settled_not_dot.
Qed.

(** C5. [normalize] is idempotent: normalizing a normalized name gives the
    same name, for every name (and whatever the Unicode database says of
    the characters beyond the table). *)
Theorem normalize_idempotent (x : list N) :
  normalize (normalize x) = normalize x.
Proof.
  unfold normalize at 2 3.
  destruct (splitext_cases x) as [->|(stem & e & -> & -> & Hne & Hd & Hsl)].
  - rewrite app_nil_r. unfold normalize.
    rewrite splitext_settled by apply stem_settled.
    rewrite app_nil_r, translate_settled by apply stem_settled.
    apply sub_nonword_word, stem_settled.
  - unfold normalize. rewrite splitext_rebuilt; [|apply stem_settled| |done..].
    + rewrite translate_settled by apply stem_settled.
      by rewrite sub_nonword_word by apply stem_settled.
    + intros H. unfold sub_nonword in H. apply fmap_nil_inv in H.
      by apply translate_nil_inv in H.
Qed.

End StringFacts.

Section Classification.
Context {U : Unicode}.


Lemma REGISTER_EXTENSION_keys e b :
  REGISTER_EXTENSION !! e = Some b →
  e ≠ [] ∧ Forall (λ c, key_char c = true) e.
Proof.
  revert e b.
  change (map_Forall (λ e _, e ≠ [] ∧ Forall (λ c, key_char c = true) e)
            REGISTER_EXTENSION).
  apply map_Forall_to_list.
  assert (H : forallb (λ eb, negb (bool_decide (eb.1 = [])) && forallb key_char eb.1)
                (map_to_list REGISTER_EXTENSION) = true)
    by (vm_compute; reflexivity).
  apply Forall_forall. intros [e b] Hin%list_elem_of_In.
  rewrite forallb_forall in H. specialize (H _ Hin). cbn [fst snd] in *.
  apply andb_true_iff in H as [H1 H2]. split.
  - by apply negb_true_iff, bool_decide_eq_false in H1.
  - apply Forall_forall. intros c Hc%list_elem_of_In.
    rewrite forallb_forall in H2. by apply H2.
Qed.

#[local] Opaque REGISTER_EXTENSION.

Lemma upper_cons c s : upper (c :: s) = upper_char c ++ upper s.
Proof. reflexivity. Qed.

Lemma upper_char_key c : key_char c = true → upper_char c = [c].
Proof.
  unfold key_char, upper_char, between. intros H.
  repeat match goal with
         | |- context [?a <=? ?b] => destruct (N.leb_spec a b)
         | |- context [?a <? ?b] => destruct (N.ltb_spec a b)
         | H : context [?a <=? ?b] |- _ => destruct (N.leb_spec a b)
         end; simpl in *; try done; lia.
Qed.

Lemma upper_char_lower_key c :
  key_char c = true → upper_char (ascii_lower c) = [c].
Proof.
  unfold key_char, upper_char, ascii_lower, between. intros H.
  repeat match goal with
         | |- context [?a <=? ?b] => destruct (N.leb_spec a b)
         | |- context [?a <? ?b] => destruct (N.ltb_spec a b)
         | H : context [?a <=? ?b] |- _ => destruct (N.leb_spec a b)
         end; simpl in *; try done; try lia; f_equal; lia.
Qed.

(** Upper-casing undoes every casing of a key. *)
Lemma upper_casing s e :
  Forall (λ c, key_char c = true) e → casing_of s e → upper s = e.
Proof.
  intros He Hs. induction Hs as [|c d s e Hcd _ IH]; [done|].
  apply Forall_cons in He as [Hd He]. rewrite upper_cons, IH by done.
  destruct Hcd as [->| ->].
  - by rewrite upper_char_key.
  - by rewrite upper_char_lower_key.
Qed.

Lemma casing_no_dot s e :
  Forall (λ c, key_char c = true) e → casing_of s e → (dot ∉ s) ∧ (slash ∉ s).
Proof.
  intros He Hs. induction Hs as [|c d s e Hcd _ IH].
  - split; apply not_elem_of_nil.
  - apply Forall_cons in He as [Hd He]. destruct (IH He) as [IH1 IH2].
    rewrite !not_elem_of_cons. 
    assert (c ≠ dot ∧ c ≠ slash); [|naive_solver].
    unfold key_char, ascii_lower, between, dot, slash in *.
    destruct Hcd as [->| ->];
    repeat match goal with
         | |- context [?a <=? ?b] => destruct (N.leb_spec a b)
         | H : context [?a <=? ?b] |- _ => destruct (N.leb_spec a b)
         end; simpl in *; try done; lia.
Qed.

Lemma split_on_no_sep sep s : sep ∉ s → split_on sep s = [s].
Proof.
  induction s as [|x s IH]; [done|].
  intros [Hx Hs]%not_elem_of_cons. simpl. rewrite (IH Hs).
  destruct (N.eqb_spec x sep); [congruence | done].
Qed.

(** A name without separator that is neither empty nor "." is its own
    final component. *)
Lemma path_name_simple name :
  slash ∉ name → name ≠ [] → name ≠ [dot] → path_name name = name.
Proof.
  intros Hs Hn Hd. unfold path_name. rewrite split_on_no_sep by done.
  rewrite filter_cons_True by done. reflexivity.
Qed.

Lemma suffix_extension stem s :
  stem ≠ [] → s ≠ [] → dot ∉ s → suffix (stem ++ dot :: s) = dot :: s.
Proof.
  intros Hst Hs Hd. unfold suffix. rewrite rfind_app_last by done.
  rewrite bool_decide_eq_true_2.
  - by rewrite drop_app_length.
  - rewrite length_app. simpl. destruct stem, s; simpl in *; try done; lia.
Qed.

Lemma get_extension_casing stem s e :
  Forall (λ c, key_char c = true) e → e ≠ [] → casing_of s e →
  stem ≠ [] → slash ∉ stem →
  get_extension (stem ++ dot :: s) = e.
Proof.
  intros He Hne Hs Hst Hsl. unfold get_extension.
  destruct (casing_no_dot _ _ He Hs) as [Hd Hsl'].
  assert (s ≠ []) by (intros ->; by inversion Hs).
  rewrite path_name_simple.
  - rewrite suffix_extension by done. simpl. by apply upper_casing.
  - rewrite elem_of_app, elem_of_cons. intros [?|[?|?]]; done.
  - by destruct stem.
  - destruct stem as [|? [|? ?]]; [done| |done]. by destruct s.
Qed.

(** C8. Classification is a function of the name, and it does not see
    the case of a tabled extension: every casing [s] of a key [e] of
    [REGISTER_EXTENSION] is upper-cased to [e] before the lookup, so a
    file [stem.s] lands on the list of [e] and in its category. *)
Theorem classify_case_insensitive (e s stem : list N) (b : bucket) :
  REGISTER_EXTENSION !! e = Some b →
  casing_of s e →
  stem ≠ [] → slash ∉ stem →
  REGISTER_EXTENSION !! upper s = Some b
  ∧ get_extension (stem ++ dot :: s) = e
  ∧ bucket_of (stem ++ dot :: s) = b
  ∧ classify (stem ++ dot :: s) = category_of b.
Proof.
  intros Hb Hs Hst Hsl. destruct (REGISTER_EXTENSION_keys _ _ Hb) as [Hne He].
  assert (Hext : get_extension (stem ++ dot :: s) = e)
    by (by apply get_extension_casing).
  assert (Hbk : bucket_of (stem ++ dot :: s) = b).
  { unfold bucket_of. rewrite Hext, decide_False by done. by rewrite Hb. }
  split_and!; [|done..|].
  - by rewrite (upper_casing s e).
  - unfold classify. by rewrite Hbk.
Qed.

End Classification.

Lemma classify_case_insensitive_witness :
  bucket_of (U:=ascii_only) (lit "song.mP3") = MP3_AUDIO
  ∧ classify (U:=ascii_only) (lit "song.mP3") = Audio
  ∧ classify (U:=ascii_only) (lit "song.mp3")
    = classify (U:=ascii_only) (lit "song.MP3").
Proof.
  assert (Hc : casing_of (lit "mP3") (lit "MP3"))
    by (repeat constructor; by right).
  destruct (classify_case_insensitive (U:=ascii_only)
              (lit "MP3") (lit "mP3") (lit "song") MP3_AUDIO)
    as (_ & _ & Hb & Hk).
  - vm_compute. reflexivity.
  - exact Hc.
  - discriminate.
  - vm_compute. intros H. repeat (inversion H as [|? ? ? H']; clear H; rename H' into H).
  - split_and!; [exact Hb | exact Hk | vm_compute; reflexivity].
Defined.

(** Induction on a listing: the children of a directory come with the
    induction hypothesis. *)
Lemma entry_ind' (P : entry → Prop) :
  (∀ n, P (File n)) →
  (∀ n ch, Forall P ch → P (Dir n ch)) →
  ∀ e, P e.
Proof.
  intros HF HD. fix IH 1. intros [n|n ch]; [apply HF|].
  apply HD. induction ch as [|e ch IHch]; constructor; [apply IH | exact IHch].
Qed.

Section ScanFacts.
Context {U : Unicode}.

#[local] Opaque REGISTER_EXTENSION.


Lemma paths_for_singleton b folder name :
  paths_for b [(folder, name)]
  = if decide (bucket_of name = b) then [folder /: name] else [].
Proof.
  unfold paths_for. destruct (decide (bucket_of name = b)).
  - by rewrite filter_cons_True.
  - by rewrite filter_cons_False.
Qed.

Lemma paths_for_app b l1 l2 :
  paths_for b (l1 ++ l2) = paths_for b l1 ++ paths_for b l2.
Proof. unfold paths_for. by rewrite filter_app, fmap_app. Qed.

Lemma scan_file_contents folder name st b :
  contents (scan_file folder name st) b
  = contents st b ++ paths_for b [(folder, name)].
Proof.
  rewrite paths_for_singleton. unfold scan_file, bucket_of.
  destruct (decide (get_extension name = [])) as [He|He].
  - cbn [contents append_to].
    destruct (decide (b = MY_OTHER)) as [->|Hb].
    + by rewrite decide_True.
    + rewrite decide_False by done. by rewrite app_nil_r.
  - destruct (REGISTER_EXTENSION !! get_extension name) as [b'|];
      cbn [contents append_to add_extension add_unknown default].
    + destruct (decide (b = b')) as [->|Hb].
      * by rewrite decide_True.
      * rewrite decide_False by done. by rewrite app_nil_r.
    + destruct (decide (b = MY_OTHER)) as [->|Hb].
      * by rewrite decide_True.
      * rewrite decide_False by done. by rewrite app_nil_r.
Qed.

Lemma scan_file_unknown folder name st :
  UNKNOWN (scan_file folder name st) = unknown_of name ∪ UNKNOWN st.
Proof.
  unfold scan_file, unknown_of.
  destruct (decide (get_extension name = [])) as [He|He].
  - cbn. by rewrite (left_id_L ∅ (∪)).
  - destruct (REGISTER_EXTENSION !! get_extension name) as [b'|]; cbn.
    + by rewrite (left_id_L ∅ (∪)).
    + done.
Qed.

Lemma scan_file_folders folder name st :
  FOLDERS (scan_file folder name st) = FOLDERS st.
Proof.
  unfold scan_file.
  destruct (decide _); [done|]. by destruct (REGISTER_EXTENSION !! _).
Qed.

Lemma scan_cons folder e items st :
  scan folder (e :: items) st = scan folder items (scan_entry folder e st).
Proof. reflexivity. Qed.

Lemma scan_app folder items1 items2 st :
  scan folder (items1 ++ items2) st = scan folder items2 (scan folder items1 st).
Proof. unfold scan. by rewrite foldl_app. Qed.

Lemma scan_entry_dir folder name children st :
  scan_entry folder (Dir name children) st
  = if decide (name ∈ skipped_names) then st
    else scan (folder /: name) children (add_folder (folder /: name) st).
Proof. reflexivity. Qed.

Lemma visited_cons folder e items :
  visited folder (e :: items) = visited_entry folder e ++ visited folder items.
Proof. reflexivity. Qed.

Lemma visited_entry_dir folder name children :
  visited_entry folder (Dir name children)
  = if decide (name ∈ skipped_names) then []
    else visited (folder /: name) children.
Proof. reflexivity. Qed.

(** [scan] only appends: each list grows by the files reached that go
    to it, in the order of the walk. *)
Lemma scan_entry_contents e : ∀ folder st b,
  contents (scan_entry folder e st) b
  = contents st b ++ paths_for b (visited_entry folder e).
Proof.
  induction e as [n|n ch IH] using entry_ind'; intros folder st b.
  - apply scan_file_contents.
  - rewrite scan_entry_dir, visited_entry_dir.
    destruct (decide (n ∈ skipped_names)); [by rewrite app_nil_r|].
    change (contents st b) with (contents (add_folder (folder /: n) st) b).
    generalize (add_folder (folder /: n) st) as st'.
    generalize (folder /: n) as item. clear st.
    induction IH as [|e ch He _ IHch]; intros item st.
    + by rewrite app_nil_r.
    + rewrite scan_cons, visited_cons, paths_for_app, IHch, He.
      by rewrite app_assoc.
Qed.

Lemma scan_contents folder items st b :
  contents (scan folder items st) b
  = contents st b ++ paths_for b (visited folder items).
Proof.
  revert st. induction items as [|e items IH]; intros st.
  - by rewrite app_nil_r.
  - rewrite scan_cons, visited_cons, paths_for_app, IH, scan_entry_contents.
    by rewrite app_assoc.
Qed.

(** The unknown extensions [scan] adds are those of the files reached. *)
Lemma scan_entry_unknown e : ∀ folder st,
  UNKNOWN (scan_entry folder e st)
  = ⋃ ((λ fn, unknown_of fn.2) <$> visited_entry folder e) ∪ UNKNOWN st.
Proof.
  induction e as [n|n ch IH] using entry_ind'; intros folder st.
  - change (scan_entry folder (File n) st) with (scan_file folder n st).
    rewrite scan_file_unknown. cbn. set_solver.
  - rewrite scan_entry_dir, visited_entry_dir.
    destruct (decide (n ∈ skipped_names)); [cbn; set_solver|].
    change (UNKNOWN st) with (UNKNOWN (add_folder (folder /: n) st)).
    generalize (add_folder (folder /: n) st) as st'.
    generalize (folder /: n) as item. clear st.
    induction IH as [|e ch He _ IHch]; intros item st.
    + cbn. set_solver.
    + rewrite scan_cons, visited_cons, fmap_app, union_list_app_L, IHch, He.
      set_solver.
Qed.

Lemma scan_unknown folder items st :
  UNKNOWN (scan folder items st)
  = ⋃ ((λ fn, unknown_of fn.2) <$> visited folder items) ∪ UNKNOWN st.
Proof.
  revert st. induction items as [|e items IH]; intros st.
  - cbn. set_solver.
  - rewrite scan_cons, visited_cons, fmap_app, union_list_app_L, IH,
      scan_entry_unknown.
    set_solver.
Qed.

Lemma unknown_of_nonempty name : [] ∉ unknown_of name.
Proof.
  unfold unknown_of. destruct (decide _) as [|Hne]; [set_solver|].
  destruct (REGISTER_EXTENSION !! _); set_solver.
Qed.

Lemma elem_of_paths_for b l folder name :
  (folder, name) ∈ l → bucket_of name = b → folder /: name ∈ paths_for b l.
Proof.
  intros Hin Hb. unfold paths_for.
  apply (list_elem_of_fmap_2 (λ fn, fn.1 /: fn.2) _ (folder, name)).
  by apply list_elem_of_filter.
Qed.

(** C9. Of the files [scan] reaches, one without extension goes to
    [MY_OTHER] and records nothing in [UNKNOWN]: the empty extension is
    never added.  One whose extension is not empty and not in the table goes
    to [MY_OTHER] too, and its extension is in [UNKNOWN] afterwards. *)
Theorem scan_routes_to_other (folder : path) (items : list entry)
    (st : globals) (f : path) (name : list N) :
  (f, name) ∈ visited folder items →
  (get_extension name = [] →
     f /: name ∈ contents (scan folder items st) MY_OTHER
     ∧ unknown_of name = ∅
     ∧ ([] ∈ UNKNOWN (scan folder items st) ↔ [] ∈ UNKNOWN st))
  ∧ (get_extension name ≠ [] →
     REGISTER_EXTENSION !! get_extension name = None →
     f /: name ∈ contents (scan folder items st) MY_OTHER
     ∧ get_extension name ∈ UNKNOWN (scan folder items st)).
Proof.
  intros Hin. split.
  - intros He. split_and!.
    + rewrite scan_contents. apply elem_of_app. right.
      apply elem_of_paths_for; [done|].
      unfold bucket_of. by rewrite decide_True.
    + unfold unknown_of. by rewrite decide_True.
    + rewrite scan_unknown, elem_of_union, elem_of_union_list.
      split; [|by right]. intros [(X & HX & Hx)|?]; [|done].
      apply list_elem_of_fmap in HX as ([f' n'] & -> & _).
      by apply unknown_of_nonempty in Hx.
  - intros He Hnone. split.
    + rewrite scan_contents. apply elem_of_app. right.
      apply elem_of_paths_for; [done|].
      unfold bucket_of. rewrite decide_False by done. by rewrite Hnone.
    + rewrite scan_unknown, elem_of_union, elem_of_union_list. left.
      exists (unknown_of name). split.
      * by apply (list_elem_of_fmap_2 (λ fn, unknown_of fn.2) _ (f, name)).
      * unfold unknown_of. rewrite decide_False by done. rewrite Hnone.
        set_solver.
Qed.

End ScanFacts.

Section ScanWalk.
Context {U : Unicode}.

#[local] Opaque REGISTER_EXTENSION.

Lemma scan_entry_folders_mono e : ∀ folder st p,
  p ∈ FOLDERS st → p ∈ FOLDERS (scan_entry folder e st).
Proof.
  induction e as [n|n ch IH] using entry_ind'; intros folder st p Hp.
  - change (scan_entry folder (File n) st) with (scan_file folder n st).
    by rewrite scan_file_folders.
  - rewrite scan_entry_dir. destruct (decide (n ∈ skipped_names)); [done|].
    assert (Hp' : p ∈ FOLDERS (add_folder (folder /: n) st))
      by (cbn; set_solver).
    revert Hp'. generalize (add_folder (folder /: n) st) as st'.
    generalize (folder /: n) as item. clear Hp st.
    induction IH as [|e ch He _ IHch]; intros item st Hp; [done|].
    rewrite scan_cons. by apply IHch, He.
Qed.

Lemma scan_folders_mono folder items st p :
  p ∈ FOLDERS st → p ∈ FOLDERS (scan folder items st).
Proof.
  revert st. induction items as [|e items IH]; intros st Hp; [done|].
  rewrite scan_cons. by apply IH, scan_entry_folders_mono.
Qed.

(** C3, as the code has it. The names [scan] does not enter are archives,
    video, audio, documents, images and MY_OTHER. A directory of one of
    these names leaves no trace in the scan, whatever it holds; a
    directory of any other name is appended to [FOLDERS] and scanned,
    between the entries before it and those after it. *)
Theorem scan_skips_reserved (folder : path) (items1 items2 children : list entry)
    (name : list N) (st : globals) :
  skipped_names
  = lit <$> ["archives"; "video"; "audio"; "documents"; "images";
             "MY_OTHER"]%string
  ∧ (name ∈ skipped_names →
       scan folder (items1 ++ Dir name children :: items2) st
       = scan folder (items1 ++ items2) st)
  ∧ (name ∉ skipped_names →
       scan folder (items1 ++ Dir name children :: items2) st
       = scan folder items2
           (scan (folder /: name) children
              (add_folder (folder /: name) (scan folder items1 st)))
       ∧ folder /: name
         ∈ FOLDERS (scan folder (items1 ++ Dir name children :: items2) st)).
Proof.
  split_and!; [done| |].
  - intros Hin. rewrite !scan_app, scan_cons, scan_entry_dir.
    by rewrite decide_True.
  - intros Hnot.
    assert (Heq : scan folder (items1 ++ Dir name children :: items2) st
       = scan folder items2
           (scan (folder /: name) children
              (add_folder (folder /: name) (scan folder items1 st)))).
    { rewrite !scan_app, scan_cons, scan_entry_dir. by rewrite decide_False. }
    split; [exact Heq|]. rewrite Heq.
    apply scan_folders_mono, scan_folders_mono. cbn. set_solver.
Qed.

(** C4, as the code has it. The lists live at module level and no run
    empties them: after two runs each list holds the records of the first
    run followed by what a scan from the fresh state would have found in
    the second, so every record the first dispatch had in the argument
    list of a task, the second dispatch has in the argument list of the
    same task. *)
Theorem state_persists_across_runs {A : Archives} (folder1 folder2 : path)
    (items1 items2 : list entry) (st0 : globals) (w1 w2 : world) :
  let st1 := (run folder1 items1 st0 w1).1 in
  let st2 := (run folder2 items2 st1 w2).1 in
  (∀ b, contents st2 b
        = contents st1 b ++ contents (run folder2 items2 fresh_globals w2).1 b)
  ∧ ∀ p, (p ∈ images st1 → p ∈ images st2)
         ∧ (p ∈ audio st1 → p ∈ audio st2)
         ∧ (p ∈ video st1 → p ∈ video st2)
         ∧ (p ∈ documents st1 → p ∈ documents st2)
         ∧ (p ∈ contents st1 ARCHIVES → p ∈ contents st2 ARCHIVES)
         ∧ (p ∈ contents st1 MY_OTHER → p ∈ contents st2 MY_OTHER).
Proof.
  intros st1 st2. subst st2. cbn [run fst].
  assert (Hc : ∀ b, contents (scan folder2 items2 st1) b
    = contents st1 b ++ contents (scan folder2 items2 fresh_globals) b)
    by (intros b'; by rewrite !scan_contents).
  split; [apply Hc|].
  assert (Hin : ∀ b p, p ∈ contents st1 b → p ∈ contents (scan folder2 items2 st1) b).
  { intros b' p Hp. rewrite Hc. apply elem_of_app. by left. }
  intros p. unfold images, audio, video, documents.
  rewrite !elem_of_app.
  split_and!.
  - intros [Hp|[Hp|[Hp|Hp]]]; apply Hin in Hp; auto 10.
  - intros [Hp|[Hp|[Hp|Hp]]]; apply Hin in Hp; auto 10.
  - intros [Hp|[Hp|[Hp|Hp]]]; apply Hin in Hp; auto 10.
  - intros [Hp|[Hp|[Hp|[Hp|[Hp|Hp]]]]]; apply Hin in Hp; auto 10.
  - apply Hin.
  - apply Hin.
Qed.

End ScanWalk.

(** A directory named other is entered, one named MY_OTHER is not. *)
Lemma scan_enters_other :
  let tree name := [Dir (lit name) [File (lit "x.mp3")]] in
  let scanned name := scan (U:=ascii_only) [lit "in"] (tree name) fresh_globals in
  FOLDERS (scanned "other"%string) = [[lit "in"; lit "other"]]
  ∧ contents (scanned "other"%string) MP3_AUDIO
    = [[lit "in"; lit "other"; lit "x.mp3"]]
  ∧ FOLDERS (scanned "MY_OTHER"%string) = []
  ∧ contents (scanned "MY_OTHER"%string) MP3_AUDIO = [].
Proof. vm_compute. done. Qed.

(** The second of two runs, on an empty folder, still holds the record of
    the first. *)
Lemma second_run_sees_first :
  let w := {| files := ∅; log := [] |} in
  let run1 :=
    run (U:=ascii_only) (A:=λ _ _, NotAnArchive)
      [lit "one"] [File (lit "a.jpg")] fresh_globals w in
  let run2 st := run (U:=ascii_only) (A:=λ _ _, NotAnArchive) [lit "two"] [] st w in
  contents (run2 run1.1).1 JPG_IMAGES = [[lit "one"; lit "a.jpg"]]
  ∧ contents (run2 fresh_globals).1 JPG_IMAGES = [].
Proof. vm_compute. done. Qed.

(** C6 on the archive data.zip.old.zip: the code removes every ".zip" of
    the name and unpacks into data.old, while the name without its last
    suffix, normalized, is data_zip.old. *)
Lemma archive_folder_drops_inner_suffix :
  let archive := [lit "in"; lit "data.zip.old.zip"] in
  let target := [lit "result"; lit "archives"] in
  folder_for_file (U:=ascii_only) archive target
  = [lit "result"; lit "archives"; lit "data.old"]
  ∧ stem (final_name archive) = lit "data.zip.old"
  ∧ folder_for_stem (U:=ascii_only) archive target
    = [lit "result"; lit "archives"; lit "data_zip.old"].
Proof. vm_compute. done. Qed.

Local Open Scope Z_scope.

Section FactorizeFacts.
Context {F : FloatPow}.

Lemma collect_bind number nums : collect number nums = nums ≫= appended number.
Proof.
  unfold collect.
  assert (H : ∀ acc, foldl (λ factors num, factors ++ appended number num) acc nums
                     = acc ++ (nums ≫= appended number)); [|apply H].
  induction nums as [|x nums IH]; intros acc; cbn [foldl].
  - by rewrite app_nil_r.
  - rewrite IH. by rewrite <- app_assoc.
Qed.

Lemma collect_cons number num nums :
  collect number (num :: nums) = appended number num ++ collect number nums.
Proof. by rewrite !collect_bind. Qed.

Lemma elem_of_appended number num d :
  d ∈ appended number num
  ↔ number mod num = 0 ∧ (d = num ∨ d = number / num).
Proof.
  unfold appended. destruct (Z.eqb_spec (number mod num) 0) as [Hm|Hm].
  - destruct (Z.eqb_spec num (number / num)) as [He|He]; cbn; set_solver.
  - split; [by intros ?%elem_of_nil | by intros [? _]].
Qed.

Lemma appended_NoDup number num : NoDup (appended number num).
Proof.
  unfold appended. destruct (number mod num =? 0); [|constructor].
  destruct (Z.eqb_spec num (number / num)); cbn.
  - apply NoDup_singleton.
  - apply NoDup_cons. split; [set_solver|apply NoDup_singleton].
Qed.

Lemma elem_of_collect number nums d :
  d ∈ collect number nums
  ↔ ∃ num, num ∈ nums ∧ number mod num = 0 ∧ (d = num ∨ d = number / num).
Proof.
  rewrite collect_bind, list_elem_of_bind.
  setoid_rewrite elem_of_appended. naive_solver.
Qed.

Lemma elem_of_range1 stop m : m ∈ range1 stop ↔ 1 ≤ m < stop.
Proof.
  unfold range1. rewrite list_elem_of_fmap. setoid_rewrite elem_of_seq. split.
  - intros (k & -> & Hk). lia.
  - intros Hm. exists (Z.to_nat m). lia.
Qed.

(** Below the square root, the divisors found are all different. *)
Lemma collect_NoDup number (a len : nat) :
  1 ≤ number → (1 ≤ a)%nat →
  (Z.of_nat (a + len) - 1) * (Z.of_nat (a + len) - 1) ≤ number ∨ len = 0%nat →
  NoDup (collect number (Z.of_nat <$> seq a len)).
Proof.
  intros Hn. revert a. induction len as [|len IH]; intros a Ha Hr.
  - cbn. constructor.
  - destruct Hr as [Hr|?]; [|done]. cbn [seq fmap list_fmap].
    rewrite collect_cons.
    assert (Hrest : ∀ d, d ∈ collect number (Z.of_nat <$> seq (S a) len) →
      ∃ m, Z.of_nat a < m ∧ m * m ≤ number ∧ number = m * (number / m)
           ∧ (d = m ∨ d = number / m)).
    { intros d (m & Hin & Hm & Hd)%elem_of_collect.
      apply list_elem_of_fmap in Hin as (k & -> & Hk%elem_of_seq).
      exists (Z.of_nat k). split_and!; [lia|nia| |done].
      apply Z.div_exact in Hm; lia. }
    apply NoDup_app. split_and!.
    + apply appended_NoDup.
    + intros d [Ha0 Hda]%elem_of_appended (m & Hlt & Hmm & Hdiv & Hdm)%Hrest.
      apply Z.div_exact in Ha0; [|lia].
      clear Hrest IH.
      assert (0 < number / m) by nia.
      assert (0 < number / Z.of_nat a) by nia.
      destruct Hda as [->| ->], Hdm as [Hdm|Hdm]; nia.
    + apply IH; [lia|]. left. replace (S a + len)%nat with (a + S len)%nat by lia.
      done.
Qed.

Lemma StronglySorted_le_lt (l : list Z) :
  StronglySorted Z.le l → NoDup l → StronglySorted Z.lt l.
Proof.
  induction 1 as [|x l Hl IH Hx]; intros Hnd; constructor.
  - apply IH. by apply NoDup_cons in Hnd as [_ ?].
  - apply NoDup_cons in Hnd as [Hx' _].
    rewrite Forall_forall in *. intros y Hy.
    specialize (Hx y Hy). assert (x ≠ y) by (intros ->; done). lia.
Qed.

(** C10, as the code has it. For [n >= 1] below the overflow of
    [float(n)], when [int(n ** 0.5)] is the integer square root of [n],
    [factorize n] is the list of the positive divisors of [n] in
    increasing order, each once, and nothing is logged. From the overflow
    on, the error is logged and the list is empty. *)
Theorem factorize_divisors (n : Z) :
  1 ≤ n →
  (n < FLOAT_OVERFLOW → int_pow_half n = Z.sqrt n →
     (factorize n).2 = None
     ∧ StronglySorted Z.lt (factorize n).1
     ∧ ∀ d, d ∈ (factorize n).1 ↔ 0 < d ∧ (d | n))
  ∧ (FLOAT_OVERFLOW ≤ n →
     factorize n
     = ([], Some (lit "Error in factorize: int too large to convert to float"))).
Proof.
  intros Hn. split.
  - intros Hlt Hsqrt. unfold factorize, int_sqrt.
    destruct (Z.ltb_spec n 0); [lia|].
    destruct (Z.ltb_spec n FLOAT_OVERFLOW); [|lia].
    rewrite Hsqrt. cbn [fst snd].
    pose proof (Z.sqrt_spec n ltac:(lia)) as Hs. cbv zeta in Hs.
    pose proof (Z.sqrt_nonneg n) as Hs0.
    set (r := Z.sqrt n) in *.
    assert (Hperm : sorted (collect n (range1 (r + 1)))
                    ≡ₚ collect n (range1 (r + 1)))
      by apply merge_sort_Permutation.
    split_and!; [done| |].
    + apply StronglySorted_le_lt.
      * apply (StronglySorted_merge_sort Z.le).
      * rewrite Hperm. unfold range1. apply collect_NoDup; [done|lia|].
        left. nia.
    + intros d. rewrite Hperm, elem_of_collect.
      setoid_rewrite elem_of_range1. split.
      * intros (m & Hm & Hmod & Hd).
        apply Z.div_exact in Hmod as Hdiv; [|lia].
        assert (0 < n / m) by nia.
        destruct Hd as [->| ->]; (split; [lia|]).
        -- exists (n / m). lia.
        -- exists m. lia.
      * intros [Hd [q Hq]].
        assert (0 < q) by nia.
        destruct (Z.le_gt_cases d r) as [Hle|Hgt].
        -- exists d. split; [lia|]. split; [|by left].
           rewrite Hq. apply Z.mod_mul. lia.
        -- exists q. split; [nia|]. split.
           ++ rewrite Hq, Z.mul_comm. apply Z.mod_mul. lia.
           ++ right. rewrite Hq. symmetry. rewrite Z.mul_comm.
              apply Z.div_mul. lia.
  - intros Hge. unfold factorize, int_sqrt.
    destruct (Z.ltb_spec n 0); [lia|].
    destruct (Z.ltb_spec n FLOAT_OVERFLOW); [lia|]. reflexivity.
Qed.

End FactorizeFacts.

Lemma factorize_divisors_witness :
  (factorize (F:=exact_pow) 36).2 = None
  ∧ StronglySorted Z.lt (factorize (F:=exact_pow) 36).1
  ∧ ∀ d, d ∈ (factorize (F:=exact_pow) 36).1 ↔ 0 < d ∧ (d | 36).
Proof.
  apply (factorize_divisors (F:=exact_pow) 36); [lia| |reflexivity].
  vm_compute. reflexivity.
Defined.

(** From 2^1024 no divisor is returned, not even 1. *)
Lemma factorize_overflow :
  (factorize (F:=exact_pow) (2 ^ 1024)).1 = []
  ∧ (1 | 2 ^ 1024)
  ∧ 1 ≤ 2 ^ 1024.
Proof.
  split_and!.
  - vm_compute. reflexivity.
  - apply Z.divide_1_l.
  - apply Z.leb_le. vm_compute. reflexivity.
Qed.

Local Close Scope Z_scope.

(** ** The monad *)

Lemma bind_unfold {A B} (m : M A) (k : A → M B) w :
  (m ≫= k) w = match m w with
               | (w', inr a) => k a w'
               | (w', inl e) => (w', inl e)
               end.
Proof. reflexivity. Qed.

Lemma for_each_cons {A} (body : A → M unit) x l w :
  for_each body (x :: l) w
  = match body x w with
    | (w', inr _) => for_each body l w'
    | (w', inl e) => (w', inl e)
    end.
Proof. reflexivity. Qed.

(** A loop whose body never raises goes through its whole list. *)
Lemma for_each_total {A} (body : A → M unit) :
  (∀ x w, (body x w).2 = inr ()) →
  ∀ l w, (for_each body l w).2 = inr ()
         ∧ (for_each body l w).1 = foldl (λ w x, (body x w).1) w l.
Proof.
  intros Hb. induction l as [|x l IH]; intros w; [done|].
  rewrite for_each_cons. cbn [foldl]. specialize (Hb x w).
  destruct (body x w) as [w' [e|[]]]; [done|]. apply IH.
Qed.

(** ** Paths *)

Lemma elem_of_prefixes (p q : path) :
  q ∈ prefixes p ↔ q ≠ [] ∧ q `prefix_of` p.
Proof.
  unfold prefixes. rewrite list_elem_of_fmap. setoid_rewrite elem_of_seq. split.
  - intros (n & -> & Hn). split.
    + intros H%(f_equal length). rewrite length_take in H. simpl in H. lia.
    + apply prefix_take.
  - intros [Hne [k ->]]. exists (length q). split.
    + by rewrite take_app_length.
    + rewrite length_app. destruct q; [done|]. simpl. lia.
Qed.

Lemma existsb_False {A} (f : A → bool) l :
  existsb f l = false ↔ ∀ x, x ∈ l → f x = false.
Proof.
  induction l as [|y l IH]; cbn.
  - split; [intros _ x Hx; by apply elem_of_nil in Hx | done].
  - rewrite orb_false_iff, IH. setoid_rewrite elem_of_cons. naive_solver.
Qed.

Lemma lookup_mkdirs (l : list path) (f : gmap path node) q :
  foldr (λ q f, <[q := NDir]> f) f l !! q
  = if decide (q ∈ l) then Some NDir else f !! q.
Proof.
  induction l as [|x l IH]; cbn.
  - rewrite decide_False; [done|apply not_elem_of_nil].
  - destruct (decide (x = q)) as [->|Hne].
    + rewrite lookup_insert_eq. rewrite decide_True; [done|by left].
    + rewrite lookup_insert_ne by done. rewrite IH.
      destruct (decide (q ∈ l)).
      * rewrite decide_True; [done|by right].
      * rewrite decide_False; [done|]. rewrite elem_of_cons. naive_solver.
Qed.

(** ** The library calls *)

(** [mkdir_p] either raises and changes nothing, or makes directories of
    the prefixes of [p], none of which was a file. *)
Lemma mkdir_p_spec p w :
  (∃ e, mkdir_p p w = (w, inl e)
        ∧ (e = FileExistsError ∨ e = NotADirectoryError))
  ∨ (∃ w', mkdir_p p w = (w', inr ()) ∧ log w' = log w
        ∧ is_file_node (files w !! p) = false
        ∧ (∀ q, q ∈ prefixes p → is_file_node (files w !! q) = false)
        ∧ ∀ q, files w' !! q
               = if decide (q ∈ prefixes p) then Some NDir else files w !! q).
Proof.
  unfold mkdir_p.
  destruct (is_file_node (files w !! p)) eqn:E1.
  { left. exists FileExistsError. split; [done|by left]. }
  destruct (existsb _ (prefixes p)) eqn:E2.
  { left. exists NotADirectoryError. split; [done|by right]. }
  right. eexists. split_and!; [done|done|done| |].
  - by apply existsb_False.
  - intros q. cbn. apply lookup_mkdirs.
Qed.

(** A successful [mkdir_p] in four facts. *)
Lemma mkdir_p_ok p w w' :
  mkdir_p p w = (w', inr ()) →
  log w' = log w
  ∧ is_file_node (files w !! p) = false
  ∧ (∀ q, q ∈ prefixes p → files w !! q = None ∨ files w !! q = Some NDir)
  ∧ ∀ q, files w' !! q
         = if decide (q ∈ prefixes p) then Some NDir else files w !! q.
Proof.
  intros H. destruct (mkdir_p_spec p w) as [(e & He & _)|(w'' & He & Hl & Hp & Hq & Hs)].
  - rewrite He in H. by inversion H.
  - rewrite He in H. inversion H; subst. split_and!; [done..| |done].
    intros q Hin. specialize (Hq q Hin).
    destruct (files w !! q) as [[|?]|]; [by right|done|by left].
Qed.

Lemma mkdir_p_keeps p w w' q n :
  mkdir_p p w = (w', inr ()) → files w !! q = Some n → files w' !! q = Some n.
Proof.
  intros (_ & _ & Hp & Hs)%mkdir_p_ok Hq. rewrite Hs.
  destruct (decide (q ∈ prefixes p)) as [Hin|]; [|done].
  destruct (Hp q Hin) as [H|H]; rewrite H in Hq; by inversion Hq.
Qed.

Lemma mkdir_p_raises p w w' e :
  mkdir_p p w = (w', inl e) →
  w' = w ∧ (e = FileExistsError ∨ e = NotADirectoryError).
Proof.
  intros H. destruct (mkdir_p_spec p w) as [(e' & He & Hor)|(w'' & He & _)].
  - rewrite He in H. by inversion H; subst.
  - rewrite He in H. by inversion H.
Qed.

Lemma mkdir_p_log p w : log (mkdir_p p w).1 = log w.
Proof. unfold mkdir_p. by repeat case_match. Qed.

Lemma move_log src dst w : log (move src dst w).1 = log w.
Proof. unfold move. by repeat case_match. Qed.

Lemma bind_log {A B} (m : M A) (k : A → M B) w :
  (∀ w, log (m w).1 = log w) → (∀ a w, log (k a w).1 = log w) →
  log ((m ≫= k) w).1 = log w.
Proof.
  intros Hm Hk. rewrite bind_unfold. specialize (Hm w).
  destruct (m w) as [w' [e|a]]; [done|]. by rewrite Hk.
Qed.

Section Relocation.
Context {U : Unicode}.

Lemma handle_media_unfold file_name target_folder w :
  handle_media file_name target_folder w
  = ((relocate file_name target_folder w).1, inr ()).
Proof.
  unfold handle_media, try_pass.
  by destruct (relocate file_name target_folder w).
Qed.

Lemma handle_media_returns file_name target_folder w :
  (handle_media file_name target_folder w).2 = inr ().
Proof. by rewrite handle_media_unfold. Qed.

Lemma handle_media_log file_name target_folder w :
  log (handle_media file_name target_folder w).1 = log w.
Proof.
  rewrite handle_media_unfold. cbn [fst]. unfold relocate.
  apply bind_log; [apply mkdir_p_log|]. intros _ w'. apply move_log.
Qed.

Lemma process_files_fold file_list target_folder w :
  (process_files file_list target_folder w).2 = inr ()
  ∧ (process_files file_list target_folder w).1
    = foldl (λ w file, (handle_media file target_folder w).1) w file_list.
Proof.
  apply (for_each_total (λ file, handle_media file target_folder)).
  intros. apply handle_media_returns.
Qed.

Lemma process_files_log file_list target_folder w :
  log (process_files file_list target_folder w).1 = log w.
Proof.
  destruct (process_files_fold file_list target_folder w) as [_ ->].
  revert w. induction file_list as [|x l IH]; intros w; [done|].
  cbn [foldl]. by rewrite IH, handle_media_log.
Qed.

(** C7, as the code has it. Whatever the handling of a file raises is
    caught and dropped, and nothing is logged: the call on the file
    returns with the world as the failed attempt left it, [process_files]
    returns normally with the log as it was, and the files after any file
    of the batch are handled as they would be had it stood alone before
    them. *)
Theorem process_files_goes_on (l1 l2 : list path) (file target_folder : path)
    (w : world) :
  let batch := process_files (l1 ++ file :: l2) target_folder w in
  let before := (process_files l1 target_folder w).1 in
  batch.2 = inr ()
  ∧ log batch.1 = log w
  ∧ handle_media file target_folder before
    = ((relocate file target_folder before).1, inr ())
  ∧ batch.1
    = (process_files l2 target_folder
         (handle_media file target_folder before).1).1.
Proof.
  intros batch before. subst batch before.
  destruct (process_files_fold (l1 ++ file :: l2) target_folder w) as [H1 H2].
  split_and!; [done| | |].
  - apply process_files_log.
  - apply handle_media_unfold.
  - rewrite H2, foldl_app. cbn [foldl].
    destruct (process_files_fold l1 target_folder w) as [_ ->].
    by destruct (process_files_fold l2 target_folder
      (handle_media file target_folder
        (foldl (λ w file, (handle_media file target_folder w).1) w l1)).1)
      as [_ ->].
Qed.

End Relocation.

(** Moving a file that is not there raises, nothing is logged, and the
    next file is moved. *)
Lemma failed_move_is_not_logged :
  let w := {| files := {[ [lit "in"; lit "b.png"] := NFile (Original 1) ]};
              log := [] |} in
  let target := [lit "result"; lit "images"] in
  let missing := [lit "in"; lit "a.png"] in
  let batch :=
    process_files (U:=ascii_only) [missing; [lit "in"; lit "b.png"]] target w in
  (relocate (U:=ascii_only) missing target w).2 = inl FileNotFoundError
  ∧ batch.2 = inr ()
  ∧ log batch.1 = []
  ∧ files batch.1 !! [lit "result"; lit "images"; lit "b.png"]
    = Some (NFile (Original 1)).
Proof. vm_compute. done. Qed.

(** ** Extraction *)

Lemma extends_refl base f : extends base f f.
Proof. intros q. by left. Qed.

Lemma extends_trans base f1 f2 f3 :
  extends base f1 f2 → extends base f2 f3 → extends base f1 f3.
Proof.
  intros H12 H23 q.
  destruct (H23 q) as [E23|[(N2 & D3 & Hq & Hm)|(N2 & d & m & Hq & M3)]].
  - rewrite E23. apply H12.
  - destruct (H12 q) as [E12|[(N1 & D2 & _)|(N1 & d & m & _ & M2)]].
    + right; left. by rewrite <- E12.
    + congruence.
    + congruence.
  - right; right. split; [|by exists d, m].
    destruct (H12 q) as [E12|[(N1 & D2 & _)|(N1 & _)]]; [congruence..|done].
Qed.

Lemma parent_prefix (p : path) : parent p `prefix_of` p.
Proof. apply prefix_take. Qed.

Lemma mkdir_p_extends base m w w' r :
  mkdir_p (parent (base ++ m)) w = (w', r) →
  log w' = log w ∧ extends base (files w) (files w')
  ∧ (r = inr () ∨ r = inl FileExistsError ∨ r = inl NotADirectoryError).
Proof.
  intros H. destruct r as [e|[]].
  - apply mkdir_p_raises in H as [-> He]. split_and!; [done|apply extends_refl|].
    naive_solver.
  - apply mkdir_p_ok in H as (Hl & _ & Hp & Hs). split_and!; [done| |by left].
    intros q. rewrite Hs. destruct (decide (q ∈ prefixes _)) as [Hin|]; [|by left].
    destruct (Hp q Hin) as [Hq|Hq]; [|left; by rewrite Hq].
    right; left. apply elem_of_prefixes in Hin as [Hne Hpre].
    split_and!; [done..|]. exists m. etrans; [done|apply parent_prefix].
Qed.

Lemma write_file_extends base d m w w' r :
  write_file (base ++ m) (Member d m) w = (w', r) →
  log w' = log w ∧ extends base (files w) (files w')
  ∧ (r = inr () ∨ r = inl IsADirectoryError).
Proof.
  unfold write_file. destruct (is_dir (files w) (base ++ m)) eqn:E.
  - intros [= <- <-]. split_and!; [done|apply extends_refl|by right].
  - intros [= <- <-]. split_and!; [done| |by left].
    intros q. cbn. destruct (decide (q = base ++ m)) as [->|Hne].
    + right; right. rewrite lookup_insert_eq. split; [|by exists d, m].
      intros Hd. unfold is_dir in E. apply bool_decide_eq_false in E.
      apply E. by right.
    + left. by rewrite lookup_insert_ne.
Qed.

Lemma write_member_extends base d m w w' r :
  write_member base d m w = (w', r) →
  log w' = log w ∧ extends base (files w) (files w')
  ∧ (r = inr () ∨ r = inl FileExistsError ∨ r = inl NotADirectoryError
     ∨ r = inl IsADirectoryError).
Proof.
  unfold write_member. rewrite bind_unfold.
  destruct (mkdir_p _ w) as [w1 r1] eqn:E1.
  apply mkdir_p_extends in E1 as (Hl1 & He1 & Hr1).
  destruct r1 as [e|[]].
  - intros [= <- <-]. split_and!; [done..|]. naive_solver.
  - intros (Hl2 & He2 & Hr2)%write_file_extends. split_and!.
    + congruence.
    + by eapply extends_trans.
    + naive_solver.
Qed.

Lemma write_members_extends base d ms w w' r :
  for_each (write_member base d) ms w = (w', r) →
  log w' = log w ∧ extends base (files w) (files w')
  ∧ (r = inr () ∨ r = inl FileExistsError ∨ r = inl NotADirectoryError
     ∨ r = inl IsADirectoryError).
Proof.
  revert w. induction ms as [|m ms IH]; intros w.
  - intros [= <- <-]. split_and!; [done|apply extends_refl|by left].
  - rewrite for_each_cons.
    destruct (write_member base d m w) as [w1 r1] eqn:E1.
    apply write_member_extends in E1 as (Hl1 & He1 & Hr1).
    destruct r1 as [e|[]].
    + intros [= <- <-]. split_and!; [done..|]. naive_solver.
    + intros (Hl2 & He2 & Hr2)%IH. split_and!.
      * congruence.
      * by eapply extends_trans.
      * done.
Qed.

Section Unpacking.
Context {U : Unicode} {A : Archives}.

(** What [unpack_archive] does to the world, by the way it ends. *)
Lemma unpack_archive_spec filename extract_dir w w' r :
  unpack_archive filename extract_dir w = (w', r) →
  log w' = log w
  ∧ extends extract_dir (files w) (files w')
  ∧ (r = inl ReadError → w' = w)
  ∧ (r = inr () → is_file_node (files w !! filename) = true).
Proof.
  unfold unpack_archive.
  assert (Hsame : ∀ e : exn, (w, inl e) = (w', r) →
    (e = ReadError ∨ e = IsADirectoryError ∨ e = FileNotFoundError) →
    log w' = log w ∧ extends extract_dir (files w) (files w')
    ∧ (r = inl ReadError → w' = w)
    ∧ (r = inr () → is_file_node (files w !! filename) = true)).
  { intros e [= <- <-] _. split_and!; [done|apply extends_refl|done..]. }
  destruct (find_unpack_format _) as [fmt|]; [|intros H; eapply Hsame; eauto].
  destruct (files w !! filename) as [[|d]|] eqn:Ef.
  - intros H; eapply Hsame; [done|]. destruct fmt; auto.
  - clear Hsame. destruct (read_archive fmt d) as [ms| |ms].
    + intros (Hl & He & Hr)%write_members_extends. split_and!; [done..| |done].
      intros ->. naive_solver.
    + intros [= <- <-]. split_and!; [done|apply extends_refl|done..].
    + rewrite bind_unfold.
      destruct (for_each _ ms w) as [w1 r1] eqn:E1.
      apply write_members_extends in E1 as (Hl & He & Hr).
      destruct r1 as [e|[]]; intros [= <- <-]; (split_and!; [done..| |done]).
      * intros [= ->]. naive_solver.
      * done.
  - intros H; eapply Hsame; [done|]. destruct fmt; auto.
Qed.

Lemma unlink_file p w :
  is_file_node (files w !! p) = true →
  unlink p w = (set_files (delete p (files w)) w, inr ()).
Proof. unfold unlink. by destruct (files w !! p) as [[|?]|]. Qed.

Lemma rmdir_empty p w :
  files w !! p = Some NDir →
  (∀ q, p `prefix_of` q → q ≠ p → files w !! q = None) →
  rmdir p w = (set_files (delete p (files w)) w, inr ()).
Proof.
  intros Hp Hempty. unfold rmdir. rewrite Hp.
  rewrite bool_decide_eq_true_2; [done|].
  intros q n Hq [Hpre Hne]. by rewrite (Hempty q) in Hq.
Qed.

Lemma handle_archive_unfold file_name target_folder w w1 :
  (mkdir_p target_folder ;;
   mkdir_p (folder_for_file file_name target_folder)) w = (w1, inr ()) →
  handle_archive file_name target_folder w
  = try_except_return
      (unpack_archive file_name (folder_for_file file_name target_folder))
      ReadError
      (rmdir (folder_for_file file_name target_folder))
      (unlink file_name) w1
  ∧ ∀ q n, files w !! q = Some n → files w1 !! q = Some n.
Proof.
  unfold handle_archive. rewrite !bind_unfold.
  destruct (mkdir_p target_folder w) as [w0 [e|[]]] eqn:E0; [done|].
  rewrite bind_unfold.
  destruct (mkdir_p _ w0) as [w1' [e|[]]] eqn:E1; [done|].
  intros [= ->]. split; [done|].
  intros q n Hq. eapply mkdir_p_keeps; [done|]. by eapply mkdir_p_keeps.
Qed.

(** C2, as the code has it. Take an archive that is a file, and let the
    two folders be made. If unpacking raises [shutil.ReadError] and the
    folder to unpack into holds nothing, the folder is removed and the
    archive stays as it was. If unpacking raises anything else, the call
    raises it too: the archive stays as it was (it does not lie in the
    folder), and the folder is not removed. If unpacking returns, the
    archive is deleted. *)
Theorem handle_archive_outcomes (file_name target_folder : path) (d : data)
    (w w1 : world) :
  let folder := folder_for_file file_name target_folder in
  let unpacked := unpack_archive file_name folder w1 in
  let handled := handle_archive file_name target_folder w in
  files w !! file_name = Some (NFile d) →
  (mkdir_p target_folder ;; mkdir_p folder) w = (w1, inr ()) →
  (unpacked.2 = inl ReadError →
     (∀ q, folder `prefix_of` q → q ≠ folder → files w1 !! q = None) →
     handled.2 = inr ()
     ∧ exists_at (files handled.1) folder = false
     ∧ files handled.1 !! file_name = Some (NFile d))
  ∧ (∀ e, unpacked.2 = inl e → e ≠ ReadError →
     ¬ folder `prefix_of` file_name →
     handled.2 = inl e
     ∧ is_dir (files handled.1) folder = true
     ∧ files handled.1 !! file_name = Some (NFile d))
  ∧ (unpacked.2 = inr () →
     handled.2 = inr () ∧ files handled.1 !! file_name = None).
Proof.
  intros folder unpacked handled Hfile Hmk.
  destruct (handle_archive_unfold _ _ _ _ Hmk) as [Hh Hkeep].
  assert (Hfile1 : files w1 !! file_name = Some (NFile d)) by by apply Hkeep.
  assert (Hfolder : folder ≠ [] → files w1 !! folder = Some NDir).
  { intros Hne. rewrite bind_unfold in Hmk.
    destruct (mkdir_p target_folder w) as [w0 [e|[]]]; [done|].
    apply mkdir_p_ok in Hmk as (_ & _ & _ & Hs). rewrite Hs.
    rewrite decide_True; [done|]. by apply elem_of_prefixes. }
  subst handled. rewrite Hh. unfold try_except_return.
  fold folder. fold unpacked.
  destruct unpacked as [w2 r] eqn:Eu. subst unpacked.
  apply unpack_archive_spec in Eu as (_ & Hext & Hread & Hok). cbn [snd].
  clear Hh. clearbody folder. split_and!.
  - intros -> Hempty. rewrite decide_True by done. rewrite (Hread eq_refl).
    assert (Hne : folder ≠ []).
    { intros He. destruct (decide (file_name = folder)) as [Heq|Hneq].
      - rewrite bind_unfold in Hmk.
        destruct (mkdir_p target_folder w) as [w0 [e|[]]] eqn:E0; [done|].
        apply mkdir_p_ok in Hmk as (_ & Hnf & _).
        rewrite <- Heq in Hnf.
        by rewrite (mkdir_p_keeps _ _ _ _ _ E0 Hfile) in Hnf.
      - rewrite (Hempty file_name) in Hfile1; [done| |done].
        rewrite He. apply prefix_nil. }
    rewrite rmdir_empty; [|by apply Hfolder|done]. cbn.
    split_and!; [done| |].
    + apply bool_decide_eq_false. intros [?|[? Hs]]; [done|].
      by rewrite lookup_delete_eq in Hs.
    + rewrite lookup_delete_ne; [done|]. intros <-.
      rewrite Hfolder in Hfile1; done.
  - intros e -> He Hout. rewrite decide_False by done. cbn.
    split_and!; [done| |].
    + apply bool_decide_eq_true. destruct (decide (folder = [])) as [?|Hne]; [by left|].
      right. destruct (Hext folder) as [->|[(Hn & _)|(Hn & _)]]; [by apply Hfolder|..].
      * by rewrite Hfolder in Hn.
      * by rewrite Hfolder in Hn.
    + destruct (Hext file_name) as [->|[(Hn & _)|(_ & d' & m & Hq & _)]]; [done|..].
      * by rewrite Hfile1 in Hn.
      * destruct Hout. rewrite Hq. by exists m.
  - intros ->.
    rewrite unlink_file.
    + cbn. split; [done|apply lookup_delete_eq].
    + destruct (Hext file_name) as [->|[(Hn & _)|(_ & d' & m & _ & ->)]].
      * by rewrite Hfile1.
      * by rewrite Hfile1 in Hn.
      * done.
Qed.

End Unpacking.

(** ** The steps of a run *)

Lemma joinpath_name (p : path) (name : list N) :
  name ≠ [] → p /: name = p ++ [name].
Proof. intros H. unfold joinpath. by rewrite decide_False. Qed.

Lemma parent_snoc (p : path) (name : list N) : parent (p ++ [name]) = p.
Proof.
  unfold parent. rewrite length_app. cbn.
  replace (length p + 1 - 1)%nat with (length p) by lia.
  by rewrite take_app_length.
Qed.

Lemma prefixes_two (r c : list N) : prefixes [r; c] = [[r]; [r; c]].
Proof. reflexivity. Qed.

Lemma prefixes_three (r c n : list N) :
  prefixes [r; c; n] = [[r]; [r; c]; [r; c; n]].
Proof. reflexivity. Qed.

Lemma prefix_of_cons_inv (x y : list N) (p q : path) :
  x :: p `prefix_of` y :: q → x = y ∧ p `prefix_of` q.
Proof. intros [k Hk]. inversion Hk; subst. split; [done|by exists k]. Qed.

Section Normalize.
Context {U : Unicode}.

Lemma normalize_nonempty name : name ≠ [] → normalize name ≠ [].
Proof.
  intros Hname. unfold normalize. destruct (splitext name) as [s e] eqn:Es.
  destruct (splitext_cases name) as [H|(s' & e' & _ & H & _)];
    rewrite H in Es; inversion Es; subst.
  - rewrite app_nil_r. unfold sub_nonword. intros H'%fmap_nil_inv.
    by apply translate_nil_inv in H'.
  - intros [_ ?]%app_eq_nil. done.
Qed.

End Normalize.

Section Steps.
Context {U : Unicode} {A : Archives}.

(** The body of [handle_media], under the conditions a run keeps: the
    folder [[r; c]] and the one above it are not files, the file has a
    name, and no directory sits at its destination.  A file at the source
    goes to the destination; without one, only the folders are made. *)
Lemma relocate_effect (p : path) (r c : list N) (w : world) :
  let dest := [r; c; normalize (final_name p)] in
  final_name p ≠ [] →
  (files w !! [r] = None ∨ files w !! [r] = Some NDir) →
  (files w !! [r; c] = None ∨ files w !! [r; c] = Some NDir) →
  files w !! dest ≠ Some NDir →
  p ≠ [r] → p ≠ [r; c] →
  files w !! p ≠ Some NDir →
  files (handle_media p [r; c] w).1
  = match files w !! p with
    | Some n => <[dest := n]> (delete p (<[[r] := NDir]> (<[[r; c] := NDir]> (files w))))
    | None => <[[r] := NDir]> (<[[r; c] := NDir]> (files w))
    end.
Proof.
  intros dest Hname Hr Hrc Hdest Hp1 Hp2 Hpd.
  assert (Hn : normalize (final_name p) ≠ []) by by apply normalize_nonempty.
  rewrite handle_media_unfold. cbn [fst]. unfold relocate.
  rewrite bind_unfold.
  destruct (mkdir_p_spec [r; c] w) as [(e & He & _)|(w1 & Hw1 & _ & _ & _ & Hs)].
  { exfalso. unfold mkdir_p in He. rewrite prefixes_two in He. cbn in He.
    destruct Hr as [Hr|Hr], Hrc as [Hrc|Hrc]; rewrite Hr, Hrc in He;
      cbn in He; by inversion He. }
  rewrite Hw1.
  assert (Hf1 : files w1 = <[[r] := NDir]> (<[[r; c] := NDir]> (files w))).
  { unfold mkdir_p in Hw1. repeat case_match; try done. by inversion Hw1. }
  rewrite joinpath_name by done.
  change ([r; c] ++ [normalize (final_name p)]) with dest.
  assert (Hd1 : files w1 !! dest = files w !! dest).
  { rewrite Hf1, !lookup_insert_ne; [done|by intros [=]..]. }
  assert (Hp : files w1 !! p = files w !! p).
  { rewrite Hf1, !lookup_insert_ne; done. }
  unfold move. cbn zeta.
  assert (is_dir (files w1) dest = false) as ->.
  { apply bool_decide_eq_false. intros [?|Hd]; [done|]. by rewrite Hd1 in Hd. }
  cbn [andb]. rewrite Hp.
  destruct (files w !! p) as [[|d]|] eqn:Ep; [done| |cbn; by rewrite Hf1].
  unfold dest at 1. change [r; c; normalize (final_name p)]
    with ([r; c] ++ [normalize (final_name p)]). rewrite parent_snoc.
  assert (is_dir (files w1) [r; c] = true) as ->.
  { apply bool_decide_eq_true. right. rewrite Hf1.
    rewrite lookup_insert_ne by done. apply lookup_insert_eq. }
  cbn. by rewrite Hf1.
Qed.

(** [result_folder.mkdir(exist_ok=True)] when no file is in the way. *)
Lemma make_result_effect (w : world) :
  (files w !! result_folder = None ∨ files w !! result_folder = Some NDir) →
  files (mkdir_exist_ok result_folder w).1 = <[result_folder := NDir]> (files w).
Proof.
  intros Hr. unfold mkdir_exist_ok, is_dir, exists_at.
  destruct Hr as [Hr|Hr]; rewrite Hr.
  - rewrite bool_decide_eq_false_2 by (intros [?|?]; done).
    rewrite bool_decide_eq_false_2 by (intros [?|[? ?]]; done).
    rewrite bool_decide_eq_true_2 by (by left). done.
  - rewrite bool_decide_eq_true_2 by (by right). cbn.
    symmetry. by apply insert_id.
Qed.

Lemma archive_step_refl a f : archive_step a f f.
Proof. intros q. by left. Qed.

Lemma archive_step_trans a f1 f2 f3 :
  archive_step a f1 f2 → archive_step a f2 f3 → archive_step a f1 f3.
Proof.
  intros H12 H23 q. destruct (H23 q) as [E|H]; [|by right].
  rewrite E. apply H12.
Qed.

(** A prefix of a path below [result/archives] is [result] or lies below
    [result/archives] itself. *)
Lemma prefix_below_archives (q m : path) :
  q ≠ [] → q `prefix_of` (result_folder /: lit "archives") ++ m →
  q = result_folder ∨ result_folder /: lit "archives" `prefix_of` q.
Proof.
  intros Hne Hpre. change (result_folder /: lit "archives")
    with [lit "result"; lit "archives"] in *.
  destruct q as [|x [|y q]]; [done| |].
  - apply prefix_of_cons_inv in Hpre as [-> _]. by left.
  - apply prefix_of_cons_inv in Hpre as [-> Hpre].
    apply prefix_of_cons_inv in Hpre as [-> _].
    right. by exists q.
Qed.

Lemma mkdir_p_archive_step a m w :
  archive_step a (files w)
    (files (mkdir_p ((result_folder /: lit "archives") ++ m) w).1).
Proof.
  destruct (mkdir_p _ w) as [w' [e|[]]] eqn:E.
  - apply mkdir_p_raises in E as [-> _]. apply archive_step_refl.
  - apply mkdir_p_ok in E as (_ & _ & _ & Hs). intros q. cbn [fst].
    rewrite Hs. destruct (decide (q ∈ prefixes _)) as [Hin|]; [|by left].
    apply elem_of_prefixes in Hin as [Hne Hpre].
    destruct (prefix_below_archives q m Hne Hpre) as [->|Hq].
    + right; left. done.
    + right; right; left. split; [done|]. by right; left.
Qed.

Lemma extends_archive_step a m f f' :
  extends ((result_folder /: lit "archives") ++ m) f f' → archive_step a f f'.
Proof.
  intros H q. destruct (H q) as [E|[(_ & Hd & Hne & m' & Hpre)|(_ & d & m' & -> & Hm)]].
  - by left.
  - rewrite <- app_assoc in Hpre.
    destruct (prefix_below_archives q _ Hne Hpre) as [->|Hq].
    + right; left. done.
    + right; right; left. split; [done|]. by right; left.
  - right; right; left. split.
    + rewrite <- app_assoc. by eexists.
    + right; right. by exists d, m'.
Qed.

Lemma rmdir_archive_step a m w :
  archive_step a (files w)
    (files (rmdir ((result_folder /: lit "archives") ++ m) w).1).
Proof.
  unfold rmdir. repeat case_match; try apply archive_step_refl.
  intros q. cbn. destruct (decide (q = (result_folder /: lit "archives") ++ m)) as [->|Hne].
  - right; right; left. split; [by eexists|]. left. apply lookup_delete_eq.
  - left. by apply lookup_delete_ne.
Qed.

Lemma unlink_archive_step a w :
  archive_step a (files w) (files (unlink a w).1).
Proof.
  unfold unlink. repeat case_match; try apply archive_step_refl.
  intros q. cbn. destruct (decide (q = a)) as [->|Hne].
  - right; right; right. split; [done|apply lookup_delete_eq].
  - left. by apply lookup_delete_ne.
Qed.

Lemma folder_for_file_below a :
  ∃ m, folder_for_file a (result_folder /: lit "archives")
       = (result_folder /: lit "archives") ++ m.
Proof.
  unfold folder_for_file. generalize (normalize (replace (suffix (final_name a)) [] (final_name a))).
  intros x. unfold joinpath at 1. destruct (decide (x = [])).
  - exists []. by rewrite app_nil_r.
  - by exists [x].
Qed.

(** Whatever way [handle_archive] goes, it changes the file system within
    [archive_step]. *)
Lemma handle_archive_effect (a : path) (w : world) :
  archive_step a (files w)
    (files (handle_archive a (result_folder /: lit "archives") w).1).
Proof.
  unfold handle_archive.
  destruct (folder_for_file_below a) as [m ->].
  rewrite bind_unfold.
  pose proof (mkdir_p_archive_step a [] w) as H0. rewrite app_nil_r in H0.
  destruct (mkdir_p (result_folder /: lit "archives") w) as [w0 [e|[]]]; [done|].
  cbn [fst] in H0. eapply archive_step_trans; [exact H0|]. clear H0.
  rewrite bind_unfold.
  pose proof (mkdir_p_archive_step a m w0) as H1.
  destruct (mkdir_p _ w0) as [w1 [e|[]]]; [done|].
  cbn [fst] in H1. eapply archive_step_trans; [exact H1|]. clear H1.
  unfold try_except_return.
  destruct (unpack_archive a _ w1) as [w2 r] eqn:Eu.
  apply unpack_archive_spec in Eu as (_ & Hext & _).
  eapply archive_step_trans; [by eapply extends_archive_step|].
  destruct r as [e|[]].
  - destruct (decide (e = ReadError)); [apply rmdir_archive_step|apply archive_step_refl].
  - apply unlink_archive_step.
Qed.

End Steps.

Lemma NoDup_fmap_inj {A B} (f : A → B) (l : list A) x y :
  NoDup (f <$> l) → x ∈ l → y ∈ l → f x = f y → x = y.
Proof.
  induction l as [|z l IH]; [by intros _ ?%elem_of_nil|].
  rewrite fmap_cons, NoDup_cons, !elem_of_cons.
  intros [Hz Hnd] [->|Hx] [->|Hy] Hxy; [done| | |by apply IH].
  - destruct Hz. rewrite Hxy. by apply list_elem_of_fmap_2.
  - destruct Hz. rewrite <- Hxy. by apply list_elem_of_fmap_2.
Qed.

(** ** Folders that cannot be made *)

Lemma blocked_two (f : gmap path node) (r c : list N) :
  blocked f [r; c]
  ↔ is_file_node (f !! [r]) = true ∨ is_file_node (f !! [r; c]) = true.
Proof.
  unfold blocked. rewrite prefixes_two, Exists_cons, Exists_cons, Exists_nil.
  naive_solver.
Qed.

#[global] Instance blocked_dec f t : Decision (blocked f t).
Proof. unfold blocked. apply _. Defined.

(** [mkdir_p] raises on a blocked folder, and changes nothing. *)
Lemma mkdir_p_blocked p w :
  blocked (files w) p → ∃ e, mkdir_p p w = (w, inl e).
Proof.
  intros Hb. unfold mkdir_p.
  destruct (is_file_node (files w !! p)); [by eexists|].
  destruct (existsb _ (prefixes p)) eqn:E; [by eexists|].
  exfalso. apply Exists_exists in Hb as (q & Hq & Hf).
  rewrite existsb_False in E. by rewrite (E q Hq) in Hf.
Qed.

Section Blocked.
Context {U : Unicode} {A : Archives}.

Lemma handle_media_blocked p t w :
  blocked (files w) t → (handle_media p t w).1 = w.
Proof.
  intros [e He]%mkdir_p_blocked. rewrite handle_media_unfold. cbn [fst].
  unfold relocate. by rewrite bind_unfold, He.
Qed.

Lemma handle_archive_blocked a t w :
  blocked (files w) t → (handle_archive a t w).1 = w.
Proof.
  intros [e He]%mkdir_p_blocked. unfold handle_archive.
  by rewrite bind_unfold, He.
Qed.

Lemma make_result_blocked w :
  is_file_node (files w !! result_folder) = true →
  mkdir_exist_ok result_folder w = (w, inl FileExistsError).
Proof.
  intros Hf. unfold mkdir_exist_ok, is_dir, exists_at.
  destruct (files w !! result_folder) as [[|d]|] eqn:E; [done| |done].
  rewrite bool_decide_eq_false_2 by (intros [?|?]; done).
  by rewrite bool_decide_eq_true_2 by (right; eauto).
Qed.

End Blocked.

Section Run.
Context {U : Unicode} {A : Archives}.
Context (st : globals) (f0 : gmap path node).
Context (Hclean : clean_start st f0).

Lemma relocations_shape j :
  j ∈ relocations st →
  ∃ p c, j = Relocate p [lit "result"; c] ∧ c ≠ lit "archives".
Proof.
  unfold relocations. rewrite !elem_of_app, !list_elem_of_fmap.
  intros [(p & -> & _)|[(p & -> & _)|[(p & -> & _)|[(p & -> & _)|(p & -> & _)]]]];
    eexists p, _; (split; [reflexivity|]); intros H; vm_compute in H; congruence.
Qed.

Lemma unpackings_shape j :
  j ∈ unpackings st →
  ∃ a, j = Unpack a (result_folder /: lit "archives").
Proof.
  unfold unpackings. rewrite list_elem_of_fmap. intros (a & -> & _). by exists a.
Qed.

Lemma source_in j :
  j ∈ relocations st ∨ j ∈ unpackings st → source_of j ∈ sources st.
Proof.
  intros H. unfold sources. apply list_elem_of_fmap_2, elem_of_app. done.
Qed.

Lemma source_is_file j :
  j ∈ relocations st ∨ j ∈ unpackings st →
  ∃ d, f0 !! source_of j = Some (NFile d).
Proof.
  intros H%source_in. apply (cs_sources _ _ Hclean) in H as [H _].
  destruct (f0 !! source_of j) as [[|d]|]; [done| |done]. by exists d.
Qed.

Lemma source_outside j :
  j ∈ relocations st ∨ j ∈ unpackings st →
  ¬ result_folder `prefix_of` source_of j.
Proof. intros H%source_in. by apply (cs_outside _ _ Hclean). Qed.

Lemma source_inj j1 j2 :
  j1 ∈ relocations st ∨ j1 ∈ unpackings st →
  j2 ∈ relocations st ∨ j2 ∈ unpackings st →
  source_of j1 = source_of j2 → j1 = j2.
Proof.
  intros H1 H2. apply (NoDup_fmap_inj source_of (relocations st ++ unpackings st)).
  - apply (cs_nodup_sources _ _ Hclean).
  - by apply elem_of_app.
  - by apply elem_of_app.
Qed.

Lemma destination_inj j1 j2 :
  j1 ∈ relocations st → j2 ∈ relocations st →
  destination j1 = destination j2 → j1 = j2.
Proof.
  apply (NoDup_fmap_inj destination (relocations st)).
  apply (cs_nodup_destinations _ _ Hclean).
Qed.

Lemma destination_shape p c :
  Relocate p [lit "result"; c] ∈ relocations st →
  destination (Relocate p [lit "result"; c])
  = [lit "result"; c; normalize (final_name p)].
Proof.
  intros Hj. cbn [destination]. rewrite joinpath_name; [done|].
  apply normalize_nonempty.
  assert (Hs : p ∈ sources st)
    by (apply (source_in (Relocate p [lit "result"; c])); by left).
  by destruct (cs_sources _ _ Hclean p Hs).
Qed.

Lemma destination_below j :
  j ∈ relocations st → result_folder `prefix_of` destination j.
Proof.
  intros Hj. destruct (relocations_shape j Hj) as (p & c & -> & _).
  rewrite destination_shape by done. by eexists [_; _].
Qed.

Lemma destination_in j : j ∈ relocations st → destination j ∈ destinations st.
Proof. intros Hj. by apply list_elem_of_fmap_2. Qed.

(** Nothing is at a destination when the run starts. *)
Lemma destination_free j : j ∈ relocations st → f0 !! destination j = None.
Proof.
  intros Hj. destruct (cs_fresh _ _ Hclean _ (destination_below j Hj)) as [H|H];
    [done|].
  destruct (relocations_shape j Hj) as (p & c & -> & _).
  rewrite destination_shape in H by done. cbn in H. lia.
Qed.

(** A folder of the run is no destination. *)
Lemma folder_no_destination (q : path) :
  (length q ≤ 2)%nat → q ∉ destinations st.
Proof.
  intros Hq (j & -> & Hj)%list_elem_of_fmap.
  destruct (relocations_shape j Hj) as (p & c & -> & _).
  rewrite destination_shape in Hq by done. cbn in Hq. lia.
Qed.

(** The start of a run. *)
Lemma underway_start : underway st f0 [] f0.
Proof.
  split.
  - intros j Hj. left. split_and!; [done|by apply destination_free|].
    right. apply not_elem_of_nil.
  - intros j _. by left.
  - done.
  - intros q Hq _. split; [done|].
    destruct (f0 !! q) as [[|d]|]; [by right; left|done|by left].
  - intros q _ Hf. destruct (f0 !! q) as [[|d]|]; [by right|done|by left].
Qed.

(** A regular file in the way of a folder stays in the way. *)
Lemma blocked_persists att f c :
  underway st f0 att f →
  blocked f0 [lit "result"; c] → blocked f [lit "result"; c].
Proof.
  intros Huw. rewrite !blocked_two.
  assert (Hkeep : ∀ q, result_folder `prefix_of` q → (length q ≤ 2)%nat →
            is_file_node (f0 !! q) = true → is_file_node (f !! q) = true).
  { intros q Hpre Hlen Hf.
    destruct (uw_result _ _ _ _ Huw q Hpre (folder_no_destination q Hlen))
      as [Hsame _].
    by rewrite (Hsame Hf). }
  intros [H|H]; [left|right]; (apply Hkeep; [|cbn; lia|done]).
  - done.
  - by eexists [_].
Qed.

(** An attempt that changes nothing: a call that is no relocation, or a
    relocation into a blocked folder. *)
Lemma underway_attempt att j f :
  underway st f0 att f →
  (j ∈ relocations st → blocked f0 (target_of j)) →
  underway st f0 (att ++ [j]) f.
Proof.
  intros Huw Hj. split.
  - intros j' Hj'.
    destruct (uw_relocated _ _ _ _ Huw _ Hj') as [(H1 & H2 & H3)|H]; [|by right].
    left. split_and!; [done..|].
    destruct H3 as [H3|H3]; [by left|].
    destruct (decide (j' = j)) as [->|Hne]; [left; by apply Hj|].
    right. rewrite elem_of_app, list_elem_of_singleton. naive_solver.
  - intros j' Hj'.
    destruct (uw_archives _ _ _ _ Huw _ Hj') as [H|(H1 & H2 & H3)]; [by left|].
    right. split_and!; [done| |done]. apply elem_of_app. by left.
  - apply (uw_elsewhere _ _ _ _ Huw).
  - apply (uw_result _ _ _ _ Huw).
  - apply (uw_folders _ _ _ _ Huw).
Qed.

(** One relocation into a folder that is not blocked, from a state of
    the run: the file is at its destination afterwards, the two folders
    are directories, and every other path has what it had. *)
Lemma relocation_result p c att w :
  underway st f0 att (files w) →
  Relocate p [lit "result"; c] ∈ relocations st →
  ¬ blocked f0 [lit "result"; c] →
  let f' := files (handle_media p [lit "result"; c] w).1 in
  let dest := destination (Relocate p [lit "result"; c]) in
  f' !! p = None
  ∧ f' !! dest = f0 !! p
  ∧ ∀ q, q ≠ p → q ≠ dest →
      f' !! q = if decide (q = [lit "result"] ∨ q = [lit "result"; c])
                then Some NDir else files w !! q.
Proof.
  intros Huw Hj Hfree f' dest. subst f'.
  assert (Hdest : dest = [lit "result"; c; normalize (final_name p)])
    by by apply destination_shape.
  assert (Hdd : destination (Relocate p [lit "result"; c]) = dest) by done.
  clearbody dest.
  assert (Hsrc : Relocate p [lit "result"; c] ∈ relocations st
                 ∨ Relocate p [lit "result"; c] ∈ unpackings st) by by left.
  destruct (source_is_file _ Hsrc) as [d Hd]. cbn [source_of] in Hd.
  pose proof (source_outside _ Hsrc) as Hout. cbn [source_of] in Hout.
  assert (Hname : final_name p ≠ []).
  { apply (cs_sources _ _ Hclean p), (source_in _ Hsrc). }
  assert (Hp1 : p ≠ [lit "result"]) by (intros ->; by apply Hout).
  assert (Hp2 : p ≠ [lit "result"; c]) by (intros ->; apply Hout; by eexists [_]).
  assert (Hpd : p ≠ dest).
  { intros ->. apply Hout. rewrite Hdest. by eexists [_; _]. }
  assert (Hstate : (files w !! p = Some (NFile d) ∧ files w !! dest = None)
                   ∨ (files w !! p = None ∧ files w !! dest = Some (NFile d))).
  { destruct (uw_relocated _ _ _ _ Huw _ Hj) as [(H1 & H2 & _)|(_ & H1 & H2)];
      cbn [source_of] in *; rewrite Hdd in H2; rewrite ?Hd in *; auto. }
  rewrite blocked_two in Hfree.
  assert (Hr : is_file_node (f0 !! [lit "result"]) = false)
    by (destruct (is_file_node (f0 !! [lit "result"])); [destruct Hfree; auto|done]).
  assert (Hrc : is_file_node (f0 !! [lit "result"; c]) = false)
    by (destruct (is_file_node (f0 !! [lit "result"; c])); [destruct Hfree; auto|done]).
  rewrite relocate_effect; [|done| | | | done | done |].
  - rewrite <- Hdest.
    destruct Hstate as [[Hs1 Hs2]|[Hs1 Hs2]]; rewrite Hs1.
    + split_and!.
      * rewrite lookup_insert_ne by done. apply lookup_delete_eq.
      * by rewrite lookup_insert_eq.
      * intros q Hq1 Hq2. rewrite lookup_insert_ne, lookup_delete_ne by done.
        case_decide as Hq; [destruct Hq as [->| ->]|].
        -- apply lookup_insert_eq.
        -- rewrite lookup_insert_ne by done. apply lookup_insert_eq.
        -- rewrite !lookup_insert_ne; [done|naive_solver..].
    + split_and!.
      * rewrite !lookup_insert_ne; done.
      * rewrite Hd, <- Hs2, !lookup_insert_ne; [done|rewrite Hdest; by intros [=]..].
      * intros q Hq1 Hq2.
        case_decide as Hq; [destruct Hq as [->| ->]|].
        -- apply lookup_insert_eq.
        -- rewrite lookup_insert_ne by done. apply lookup_insert_eq.
        -- rewrite !lookup_insert_ne; [done|naive_solver..].
  - apply (uw_folders _ _ _ _ Huw); [by left|done].
  - apply (uw_folders _ _ _ _ Huw); [|done]. right. by eexists (Relocate p _).
  - rewrite <- Hdest. destruct Hstate as [[_ ->]|[_ ->]]; done.
  - destruct Hstate as [[-> _]|[-> _]]; done.
Qed.

Lemma destination_not_folder j q :
  j ∈ relocations st →
  q = result_folder ∨ (∃ j', j' ∈ relocations st ∧ q = target_of j') →
  q ≠ destination j.
Proof.
  intros Hj Hq. destruct (relocations_shape j Hj) as (p & c & -> & _).
  rewrite destination_shape by done.
  destruct Hq as [->|(j' & Hj' & ->)]; [done|].
  by destruct (relocations_shape j' Hj') as (p' & c' & -> & _).
Qed.

Lemma folder_below q :
  q = result_folder ∨ (∃ j', j' ∈ relocations st ∧ q = target_of j') →
  result_folder `prefix_of` q.
Proof.
  intros [->|(j' & Hj' & ->)]; [done|].
  destruct (relocations_shape j' Hj') as (p' & c' & -> & _). by eexists [_].
Qed.

Lemma step_relocate j att w :
  underway st f0 att (files w) → j ∈ relocations st →
  underway st f0 (att ++ [j]) (files (exec_job j w).1).
Proof.
  intros Huw Hj. destruct (relocations_shape j Hj) as (p & c & Hjeq & Hc).
  subst j. cbn [exec_job].
  destruct (decide (blocked f0 [lit "result"; c])) as [Hb|Hfree].
  { rewrite handle_media_blocked by by eapply blocked_persists.
    by apply underway_attempt. }
  destruct (relocation_result p c att w Huw Hj Hfree) as (Hp & Hd & Hq).
  cbv zeta in Hp, Hd, Hq.
  set (j := Relocate p [lit "result"; c]) in *.
  set (f' := files (handle_media p [lit "result"; c] w).1) in *.
  assert (Hout : ¬ result_folder `prefix_of` p)
    by (apply (source_outside j); by left).
  assert (Hbelow : result_folder `prefix_of` destination j)
    by by apply destination_below.
  assert (Hfolders : ∀ q, q = [lit "result"] ∨ q = [lit "result"; c] →
            result_folder `prefix_of` q
            ∧ is_file_node (f0 !! q) = false
            ∧ ∀ j', j' ∈ relocations st → q ≠ destination j').
  { intros q Hqq. split_and!.
    - destruct Hqq as [->| ->]; [done|by eexists [_]].
    - rewrite blocked_two in Hfree.
      destruct (is_file_node (f0 !! q)) eqn:E; [|done].
      destruct Hfree. destruct Hqq as [->| ->]; auto.
    - intros j' Hj'. apply destination_not_folder; [done|].
      destruct Hqq as [->| ->]; [by left|]. right. by exists j. }
  split.
  - intros j' Hj'. destruct (decide (j' = j)) as [->|Hne].
    { right. done. }
    assert (Hs : source_of j' ≠ p).
    { intros Heq. apply Hne. apply source_inj; [by left..|done]. }
    assert (Hdd : destination j' ≠ destination j).
    { intros Heq. apply Hne. by apply destination_inj. }
    assert (Hsd : source_of j' ≠ destination j).
    { intros Heq. apply (source_outside j'); [by left|]. by rewrite Heq. }
    assert (Hds : destination j' ≠ p).
    { intros Heq. apply Hout. rewrite <- Heq. by apply destination_below. }
    rewrite (Hq (source_of j')), (Hq (destination j')) by done.
    rewrite decide_False.
    2:{ intros Hqq. apply Hfolders in Hqq as [Hpre _].
        apply (source_outside j'); [by left|done]. }
    rewrite decide_False.
    2:{ intros Hqq. apply Hfolders in Hqq as (_ & _ & Hnd). by apply (Hnd j'). }
    destruct (uw_relocated _ _ _ _ Huw _ Hj') as [(H1 & H2 & H3)|H]; [|by right].
    left. split_and!; [done..|]. destruct H3 as [H3|H3]; [by left|right].
    rewrite elem_of_app, list_elem_of_singleton. naive_solver.
  - intros j' Hj'.
    assert (Hs : source_of j' ≠ p).
    { intros Heq. destruct (unpackings_shape _ Hj') as [a ->].
      assert (Unpack a (result_folder /: lit "archives") = j)
        by (apply source_inj; [by right|by left|done]). done. }
    assert (Hsd : source_of j' ≠ destination j).
    { intros Heq. apply (source_outside j'); [by right|]. by rewrite Heq. }
    rewrite (Hq (source_of j')) by done.
    rewrite decide_False.
    2:{ intros Hqq. apply Hfolders in Hqq as [Hpre _].
        apply (source_outside j'); [by right|done]. }
    destruct (uw_archives _ _ _ _ Huw _ Hj') as [H|(H1 & H2 & H3)]; [by left|].
    right. split_and!; [done| |done]. apply elem_of_app. by left.
  - intros q Hq1 Hq2.
    rewrite Hq.
    + rewrite decide_False; [by apply (uw_elsewhere _ _ _ _ Huw)|].
      intros Hqq. by apply Hfolders in Hqq as [Hpre _].
    + intros ->. apply Hq2. apply (source_in j). by left.
    + intros ->. done.
  - intros q Hq1 Hq2.
    rewrite Hq.
    + case_decide as Hqq; [|by apply (uw_result _ _ _ _ Huw)].
      apply Hfolders in Hqq as (_ & Hnf & _). split; [congruence|].
      intros _. by right; left.
    + intros ->. done.
    + intros ->. apply Hq2. by apply destination_in.
  - intros q Hqf Hnf.
    rewrite Hq.
    + case_decide; [by right|]. by apply (uw_folders _ _ _ _ Huw).
    + intros ->. by apply Hout, folder_below.
    + by apply destination_not_folder.
Qed.

Lemma step_unpack j att w :
  underway st f0 att (files w) → j ∈ unpackings st →
  underway st f0 (att ++ [j]) (files (exec_job j w).1).
Proof.
  intros Huw Hj. destruct (unpackings_shape j Hj) as (a & Hjeq).
  pose proof (source_outside j (or_intror Hj)) as Hout.
  assert (Hnr : j ∉ relocations st).
  { intros Hr. destruct (relocations_shape j Hr) as (? & ? & ? & _). congruence. }
  subst j. cbn [exec_job source_of] in *.
  change (result_folder /: lit "archives") with [lit "result"; lit "archives"] in *.
  destruct (decide (blocked (files w) [lit "result"; lit "archives"]))
    as [Hb|Hfree].
  { rewrite handle_archive_blocked by done. by apply underway_attempt. }
  assert (Hfree0 : ¬ blocked f0 [lit "result"; lit "archives"]).
  { intros Hb. apply Hfree. by eapply blocked_persists. }
  rewrite blocked_two in Hfree.
  pose proof (handle_archive_effect a w) as Hstep.
  change (result_folder /: lit "archives") with [lit "result"; lit "archives"] in *.
  set (f' := files (handle_archive a [lit "result"; lit "archives"] w).1) in *.
  assert (Hsame : ∀ q, ¬ result_folder `prefix_of` q → q ≠ a →
            f' !! q = files w !! q).
  { intros q Hq1 Hq2.
    destruct (Hstep q) as [E|[[-> _]|[[Hpre _]|[-> _]]]]; [done| | |done].
    - destruct Hq1. reflexivity.
    - destruct Hq1. etrans; [|exact Hpre]. by eexists [_]. }
  assert (Hmedia : ∀ q c n, c ≠ lit "archives" → q = [lit "result"; c; n] →
            f' !! q = files w !! q).
  { intros q c n Hc ->.
    destruct (Hstep [lit "result"; c; n]) as [E|[[? _]|[[Hpre _]|[Ha _]]]];
      [done|done|..].
    - apply prefix_of_cons_inv in Hpre as [_ Hpre].
      by apply prefix_of_cons_inv in Hpre as [? _].
    - destruct Hout. rewrite <- Ha. by exists [c; n]. }
  assert (Hkept : ∀ q, result_folder `prefix_of` q → q ∉ destinations st →
            is_file_node (f0 !! q) = true →
            q ≠ [lit "result"] ∧ ¬ [lit "result"; lit "archives"] `prefix_of` q).
  { intros q Hpre Hnd Hf.
    destruct (uw_result _ _ _ _ Huw q Hpre Hnd) as [Hsame' _].
    specialize (Hsame' Hf).
    assert (Hlen : (length q ≤ 2)%nat).
    { destruct (cs_fresh _ _ Hclean q Hpre) as [E|E]; [by rewrite E in Hf|done]. }
    split.
    - intros ->. apply Hfree. left. by rewrite Hsame'.
    - intros Hpa. assert (q = [lit "result"; lit "archives"]) as ->.
      { destruct Hpa as [k ->]. destruct k; [done|]. cbn in Hlen. lia. }
      apply Hfree. right. by rewrite Hsame'. }
  split.
  - intros j' Hj'. destruct (relocations_shape j' Hj') as (p & c & -> & Hc).
    rewrite (Hmedia (destination _) c (normalize (final_name p)));
      [|done|by apply destination_shape].
    rewrite Hsame.
    + destruct (uw_relocated _ _ _ _ Huw _ Hj') as [(H1 & H2 & H3)|H]; [|by right].
      left. split_and!; [done..|]. destruct H3 as [H3|H3]; [by left|right].
      rewrite elem_of_app, list_elem_of_singleton. naive_solver.
    + apply (source_outside (Relocate p _)). by left.
    + cbn. intros ->.
      assert (Relocate a [lit "result"; c] = Unpack a [lit "result"; lit "archives"])
        by (apply source_inj; [by left|by right|done]). done.
  - intros j' Hj'. destruct (unpackings_shape j' Hj') as (a' & ->). cbn [source_of].
    change (result_folder /: lit "archives") with [lit "result"; lit "archives"] in *.
    destruct (decide (a' = a)) as [->|Hne].
    + destruct (Hstep a) as [E|[[-> _]|[[Hpre _]|[_ E]]]].
      * rewrite E.
        destruct (uw_archives _ _ _ _ Huw _ Hj') as [H|(H1 & H2 & H3)]; [by left|].
        right. split_and!; [done| |done]. apply elem_of_app. by left.
      * destruct Hout. reflexivity.
      * destruct Hout. etrans; [|exact Hpre]. by eexists [_].
      * right. split_and!; [done| |done].
        apply elem_of_app. right. by apply list_elem_of_singleton.
    + rewrite Hsame; [| |done].
      * destruct (uw_archives _ _ _ _ Huw _ Hj') as [H|(H1 & H2 & H3)]; [by left|].
        right. split_and!; [done| |done]. apply elem_of_app. by left.
      * apply (source_outside (Unpack a' [lit "result"; lit "archives"])).
        by right.
  - intros q Hq1 Hq2. rewrite Hsame; [by apply (uw_elsewhere _ _ _ _ Huw)|done|].
    intros ->. apply Hq2.
    apply (source_in (Unpack a [lit "result"; lit "archives"])). by right.
  - intros q Hq1 Hq2.
    destruct (uw_result _ _ _ _ Huw q Hq1 Hq2) as [Hfile Hother].
    destruct (Hstep q) as [E|[[-> E]|[[Hpre E]|[-> E]]]].
    + rewrite E. done.
    + split; [|intros _; by right; left].
      intros Hf. by destruct (Hkept _ Hq1 Hq2 Hf) as [? _].
    + split; [|done].
      intros Hf. by destruct (Hkept _ Hq1 Hq2 Hf) as [_ ?].
    + by destruct Hout.
  - intros q Hqf Hnf.
    destruct (Hstep q) as [E|[[-> E]|[[Hpre E]|[-> E]]]].
    + rewrite E. by apply (uw_folders _ _ _ _ Huw).
    + by right.
    + destruct E as [E|[E|(d & m & E)]]; [by left|by right|].
      exfalso. destruct Hqf as [->|(j' & Hj' & ->)].
      * apply prefix_of_cons_inv in Hpre as [_ Hpre]. by destruct Hpre as [? ?].
      * destruct (relocations_shape j' Hj') as (p' & c' & -> & Hc').
        apply prefix_of_cons_inv in Hpre as [_ Hpre].
        by apply prefix_of_cons_inv in Hpre as [? _].
    + by left.
Qed.

Lemma step_make_result att w :
  underway st f0 att (files w) →
  underway st f0 (att ++ [MakeResult]) (files (exec_job MakeResult w).1).
Proof.
  intros Huw. cbn [exec_job].
  assert (Hnr : MakeResult ∈ relocations st → blocked f0 (target_of MakeResult)).
  { intros Hr. by destruct (relocations_shape _ Hr) as (? & ? & ? & _). }
  destruct (is_file_node (files w !! result_folder)) eqn:Ef.
  { rewrite make_result_blocked by done. by apply underway_attempt. }
  assert (Hnone : files w !! result_folder = None
                  ∨ files w !! result_folder = Some NDir)
    by (destruct (files w !! result_folder) as [[|?]|]; auto; done).
  assert (Hf0 : is_file_node (f0 !! result_folder) = false).
  { destruct (is_file_node (f0 !! result_folder)) eqn:E0; [|done].
    destruct (uw_result _ _ _ _ Huw result_folder) as [Hsame _]; [done| |].
    - apply folder_no_destination. cbn. lia.
    - by rewrite (Hsame E0), E0 in Ef. }
  rewrite make_result_effect by done.
  assert (Hsame : ∀ q, q ≠ result_folder →
            <[result_folder := NDir]> (files w) !! q = files w !! q)
    by (intros q Hq; by rewrite lookup_insert_ne).
  split.
  - intros j Hj. rewrite !Hsame.
    + destruct (uw_relocated _ _ _ _ Huw _ Hj) as [(H1 & H2 & H3)|H]; [|by right].
      left. split_and!; [done..|]. destruct H3 as [H3|H3]; [by left|right].
      rewrite elem_of_app, list_elem_of_singleton.
      intros [?| ->]; [done|].
      by destruct (relocations_shape _ Hj) as (? & ? & ? & _).
    + symmetry. apply destination_not_folder; [done|by left].
    + intros Heq. apply (source_outside j); [by left|]. by rewrite Heq.
  - intros j Hj. rewrite Hsame.
    + destruct (uw_archives _ _ _ _ Huw _ Hj) as [H|(H1 & H2 & H3)]; [by left|].
      right. split_and!; [done| |done]. apply elem_of_app. by left.
    + intros Heq. apply (source_outside j); [by right|]. by rewrite Heq.
  - intros q Hq1 Hq2. rewrite Hsame; [by apply (uw_elsewhere _ _ _ _ Huw)|].
    intros ->. apply Hq1. reflexivity.
  - intros q Hq1 Hq2. destruct (decide (q = result_folder)) as [->|Hne].
    + rewrite lookup_insert_eq. split; [congruence|]. intros _. by right; left.
    + rewrite Hsame by done. by apply (uw_result _ _ _ _ Huw).
  - intros q Hqf Hnf. destruct (decide (q = result_folder)) as [->|Hne].
    + rewrite lookup_insert_eq. by right.
    + rewrite Hsame by done. by apply (uw_folders _ _ _ _ Huw).
Qed.

(** A schedule keeps the run underway, and has attempted its calls. *)
Lemma run_jobs_underway sched : ∀ att w,
  underway st f0 att (files w) →
  Forall (valid_job st) sched →
  underway st f0 (att ++ sched) (files (run_jobs sched w)).
Proof.
  induction sched as [|j sched IH]; intros att w Huw Hall.
  - by rewrite app_nil_r.
  - apply Forall_cons in Hall as [Hj Hall].
    change (run_jobs (j :: sched) w) with (run_jobs sched (exec_job j w).1).
    rewrite cons_middle, app_assoc. apply IH; [|done].
    destruct Hj as [->|[Hj|Hj]].
    + by apply step_make_result.
    + by apply step_relocate.
    + by apply step_unpack.
Qed.

(** Where a file of the start can be when the calls [sched] are made,
    every relocation into a folder that is not blocked among them: at
    the destination of such a relocation, or where it was. *)
Lemma file_places sched w0 p d q :
  files w0 = f0 →
  Forall (valid_job st) sched →
  (∀ j, j ∈ relocations st → ¬ blocked f0 (target_of j) → j ∈ sched) →
  f0 !! p = Some (NFile d) →
  files (run_jobs sched w0) !! q = Some (NFile d) →
  (∃ j, j ∈ relocations st ∧ source_of j = p ∧ ¬ blocked f0 (target_of j)
        ∧ q = destination j)
  ∨ (q = p
     ∧ (p ∉ sources st
        ∨ (∃ j, j ∈ unpackings st ∧ source_of j = p)
        ∨ (∃ j, j ∈ relocations st ∧ source_of j = p
                ∧ blocked f0 (target_of j)))).
Proof.
  intros Hw0 Hall Hevery Hp Hq.
  assert (Huw : underway st f0 sched (files (run_jobs sched w0))).
  { apply (run_jobs_underway sched [] w0); [|done].
    rewrite Hw0. apply underway_start. }
  destruct (cs_original _ _ Hclean _ _ Hp) as [i ->].
  destruct (decide (q ∈ sources st)) as [Hin|Hin].
  - right. apply list_elem_of_fmap in Hin as (j & -> & Hj).
    apply elem_of_app in Hj as [Hj|Hj].
    + destruct (uw_relocated _ _ _ _ Huw _ Hj) as [(H1 & _ & H3)|(_ & H1 & _)];
        [|by rewrite H1 in Hq].
      rewrite H1 in Hq.
      assert (source_of j = p)
        by by apply (cs_one_path _ _ Hclean _ _ (Original i)).
      split; [done|]. right; right. exists j. split_and!; [done..|].
      destruct H3 as [H3|H3]; [done|].
      destruct (decide (blocked f0 (target_of j))) as [|Hfree]; [done|].
      destruct H3. by apply Hevery.
    + destruct (uw_archives _ _ _ _ Huw _ Hj) as [H|(H & _)]; rewrite H in Hq;
        [|done].
      assert (source_of j = p)
        by by apply (cs_one_path _ _ Hclean _ _ (Original i)).
      split; [done|]. right; left. by exists j.
  - destruct (decide (result_folder `prefix_of` q)) as [Hpre|Hpre].
    + destruct (decide (q ∈ destinations st)) as [Hd|Hd].
      * apply list_elem_of_fmap in Hd as (j & -> & Hj). left. exists j.
        destruct (uw_relocated _ _ _ _ Huw _ Hj) as [(_ & H2 & _)|(Hfree & _ & H2)];
          [by rewrite H2 in Hq|].
        rewrite H2 in Hq. split_and!; [done| |done..].
        by apply (cs_one_path _ _ Hclean _ _ (Original i)).
      * right. destruct (uw_result _ _ _ _ Huw _ Hpre Hd) as [Hfile Hother].
        destruct (is_file_node (f0 !! q)) eqn:Ef.
        -- rewrite (Hfile eq_refl) in Hq.
           assert (q = p) as ->
             by by apply (cs_one_path _ _ Hclean _ _ (Original i)).
           split; [done|by left].
        -- destruct (Hother eq_refl) as [H|[H|(d' & m & H)]];
             rewrite H in Hq; done.
    + right. rewrite (uw_elsewhere _ _ _ _ Huw _ Hpre Hin) in Hq.
      assert (q = p) as -> by by apply (cs_one_path _ _ Hclean _ _ (Original i)).
      split; [done|by left].
Qed.

Lemma final_places sched w0 p d :
  files w0 = f0 →
  Forall (valid_job st) sched →
  (∀ j, j ∈ relocations st → ¬ blocked f0 (target_of j) → j ∈ sched) →
  f0 !! p = Some (NFile d) →
  placed st f0 sched p d (files (run_jobs sched w0)).
Proof.
  intros Hw0 Hall Hevery Hp. set (f' := files (run_jobs sched w0)).
  unfold placed.
  pose proof (λ q, file_places sched w0 p d q Hw0 Hall Hevery Hp) as Hplaces.
  fold f' in Hplaces.
  assert (Huw : underway st f0 sched f').
  { apply (run_jobs_underway sched [] w0); [|done].
    rewrite Hw0. apply underway_start. }
  split_and!.
  - intros t Hj.
    assert (Hown : ∀ j, j ∈ relocations st ∨ j ∈ unpackings st →
              source_of j = p → j = Relocate p t)
      by (intros j Hj' Hs; apply source_inj; [done|by left|done]).
    split.
    + intros Hb q. split.
      * intros Hq.
        destruct (Hplaces q Hq) as [(j & Hj' & Hs & Hfree & _)|[-> _]]; [|done].
        rewrite (Hown j) in Hfree by auto. done.
      * intros ->.
        destruct (uw_relocated _ _ _ _ Huw _ Hj) as [(H1 & _)|(Hfree & _)];
          [|done].
        cbn [source_of] in H1. by rewrite H1.
    + intros Hfree. split; [by apply (destination_below (Relocate p t))|].
      intros q. split.
      * intros Hq.
        destruct (Hplaces q Hq)
          as [(j & Hj' & Hs & _ & ->)|[-> [Hn|[(j & Hj' & Hs)|(j & Hj' & Hs & Hb)]]]].
        -- by rewrite (Hown j) by auto.
        -- destruct Hn. apply (source_in (Relocate p t)). by left.
        -- rewrite (Hown j) in Hj' by auto.
           by destruct (unpackings_shape _ Hj').
        -- rewrite (Hown j) in Hb by auto. done.
      * intros ->.
        destruct (uw_relocated _ _ _ _ Huw _ Hj) as [(_ & _ & H3)|(_ & _ & H2)].
        -- destruct H3 as [H3|H3]; [done|]. destruct H3. by apply Hevery.
        -- cbn [destination source_of] in H2. by rewrite H2.
  - intros t Hj.
    assert (Hown : ∀ j, j ∈ relocations st ∨ j ∈ unpackings st →
              source_of j = p → j = Unpack p t)
      by (intros j Hj' Hs; apply source_inj; [done|by right|done]).
    split_and!.
    + intros q Hq.
      destruct (Hplaces q Hq) as [(j & Hj' & Hs & _)|[-> _]]; [|done].
      rewrite (Hown j) in Hj' by auto.
      by destruct (relocations_shape _ Hj') as (? & ? & ? & _).
    + intros Hb.
      destruct (uw_archives _ _ _ _ Huw _ Hj) as [H|(_ & _ & Hfree)]; [|done].
      cbn [source_of] in H. by rewrite H.
    + intros Hgone.
      destruct (uw_archives _ _ _ _ Huw _ Hj) as [H|(_ & Hin & _)]; [|done].
      cbn [source_of] in H. rewrite Hgone, Hp in H. done.
  - intros Hn q. split.
    + intros Hq.
      destruct (Hplaces q Hq)
        as [(j & Hj' & Hs & _)|[-> _]]; [|done].
      destruct Hn. rewrite <- Hs. apply source_in. by left.
    + intros ->.
      destruct (decide (result_folder `prefix_of` p)) as [Hpre|Hpre].
      * destruct (uw_result _ _ _ _ Huw p Hpre) as [Hfile _].
        -- intros (j & Hd & Hj)%list_elem_of_fmap.
           pose proof (destination_free j Hj) as Hnone.
           rewrite <- Hd, Hp in Hnone. done.
        -- rewrite Hfile; [done|]. by rewrite Hp.
      * by rewrite (uw_elsewhere _ _ _ _ Huw).
Qed.

End Run.

(** ** The run in the order of submission is a schedule *)

Section Sequential.
Context {U : Unicode} {A : Archives}.

Lemma run_jobs_cons j sched w :
  run_jobs (j :: sched) w = run_jobs sched (exec_job j w).1.
Proof. reflexivity. Qed.

Lemma run_jobs_app s1 s2 w :
  run_jobs (s1 ++ s2) w = run_jobs s2 (run_jobs s1 w).
Proof. unfold run_jobs. by rewrite foldl_app. Qed.

Lemma process_files_jobs l t w :
  process_files l t w = (run_jobs ((λ f, Relocate f t) <$> l) w, inr ()).
Proof.
  destruct (process_files_fold l t w) as [H2 H1].
  destruct (process_files l t w) as [w' r]. cbn in *. subst r. f_equal.
  rewrite H1. clear H1. revert w. induction l as [|x l IH]; intros w; [done|].
  cbn [foldl fmap list_fmap]. rewrite run_jobs_cons. apply IH.
Qed.

(** [process_archives] stops at the first archive that makes
    [handle_archive] raise. *)
Lemma process_archives_jobs l t w :
  ∃ l', l' `prefix_of` l
        ∧ (process_archives l t w).1 = run_jobs ((λ a, Unpack a t) <$> l') w.
Proof.
  unfold process_archives. revert w. induction l as [|a l IH]; intros w.
  - by exists [].
  - rewrite for_each_cons.
    destruct (handle_archive a t w) as [w1 [e|[]]] eqn:E.
    + exists [a]. split; [by exists l|].
      cbn [fmap list_fmap]. rewrite run_jobs_cons. cbn [exec_job].
      by rewrite E.
    + destruct (IH w1) as (l' & Hpre & Hrun). exists (a :: l'). split.
      * by apply prefix_cons.
      * cbn [fmap list_fmap]. rewrite run_jobs_cons. cbn [exec_job].
        by rewrite E.
Qed.

Lemma submit_unfold (m : M unit) w : submit m w = ((m w).1, inr ()).
Proof. unfold submit, try_pass. by destruct (m w). Qed.

Lemma submit_bind (m k : M unit) w : (submit m ;; k) w = k (m w).1.
Proof. rewrite bind_unfold, submit_unfold. done. Qed.

(** The six tasks, one after the other. *)
Lemma dispatch_jobs st w :
  ∃ sched, Forall (valid_job st) sched
           ∧ (∀ j, j ∈ relocations st → j ∈ sched)
           ∧ dispatch st w = (run_jobs sched w, inr ()).
Proof.
  unfold dispatch, process_images, process_audio, process_video,
    process_documents.
  rewrite !submit_bind, submit_unfold, !process_files_jobs. cbn [fst].
  set (s1 := (λ f, Relocate f (result_folder /: lit "images")) <$> images st).
  set (s2 := (λ f, Relocate f (result_folder /: lit "audio")) <$> audio st).
  set (s3 := (λ f, Relocate f (result_folder /: lit "video")) <$> video st).
  set (s4 := (λ f, Relocate f (result_folder /: lit "documents")) <$> documents st).
  set (s6 := (λ f, Relocate f (result_folder /: lit "MY_OTHER")) <$> contents st MY_OTHER).
  set (w4 := run_jobs s4 (run_jobs s3 (run_jobs s2 (run_jobs s1 w)))).
  destruct (process_archives_jobs (contents st ARCHIVES)
              (result_folder /: lit "archives") w4) as (l' & Hpre & Hrun).
  fold s1 s2 s3 s4 s6 w4. rewrite Hrun.
  exists (s1 ++ s2 ++ s3 ++ s4 ++ ((λ a, Unpack a (result_folder /: lit "archives")) <$> l') ++ s6).
  split_and!.
  - rewrite !Forall_app. unfold valid_job, relocations.
    fold s1 s2 s3 s4 s6.
    split_and!; apply Forall_forall; intros j Hj;
      try (right; left; rewrite !elem_of_app; by auto 10).
    right; right. unfold unpackings.
    apply list_elem_of_fmap in Hj as (a & -> & Ha).
    apply list_elem_of_fmap. exists a. split; [done|].
    destruct Hpre as [k ->]. apply elem_of_app. by left.
  - intros j. unfold relocations. fold s1 s2 s3 s4 s6.
    rewrite !elem_of_app. naive_solver.
  - by rewrite !run_jobs_app.
Qed.

Lemma process_subfolder_jobs st e : ∀ w,
  ∃ sched, Forall (valid_job st) sched
           ∧ process_subfolder st e w = (run_jobs sched w, inr ()).
Proof.
  induction e as [n|n ch IH] using entry_ind'; intros w.
  - by exists [].
  - cbn [process_subfolder]. rewrite submit_unfold.
    assert (Hch : ∀ w, ∃ sched, Forall (valid_job st) sched
      ∧ for_each (process_subfolder st) ch w = (run_jobs sched w, inr ())).
    { clear w. induction IH as [|e ch He _ IHch]; intros w.
      - by exists [].
      - rewrite for_each_cons. destruct (He w) as (s1 & Hv1 & ->).
        destruct (IHch (run_jobs s1 w)) as (s2 & Hv2 & ->).
        exists (s1 ++ s2). split; [by apply Forall_app|].
        by rewrite run_jobs_app. }
    rewrite bind_unfold.
    destruct (mkdir_exist_ok result_folder w) as [w1 [e|[]]] eqn:E.
    + exists [MakeResult]. split; [repeat constructor; by left|].
      rewrite run_jobs_cons. cbn [exec_job]. by rewrite E.
    + rewrite bind_unfold. destruct (Hch w1) as (s1 & Hv1 & ->).
      destruct (dispatch_jobs st (run_jobs s1 w1)) as (s2 & Hv2 & _ & ->).
      exists (MakeResult :: s1 ++ s2). split.
      * constructor; [by left|by apply Forall_app].
      * rewrite run_jobs_cons, run_jobs_app. cbn [exec_job]. by rewrite E.
Qed.

(** [process_folder], its tasks run in the order of submission, is a run
    of a schedule; when the result folder can be made, of a schedule of
    the dispatch, and the call returns. *)
Lemma process_folder_jobs st items w :
  ∃ sched, Forall (valid_job st) sched
    ∧ (process_folder st items w).1 = run_jobs sched w
    ∧ ((mkdir_exist_ok result_folder w).2 = inr () →
       (process_folder st items w).2 = inr ()
       ∧ ∀ j, j ∈ relocations st → j ∈ sched).
Proof.
  unfold process_folder. rewrite bind_unfold.
  destruct (mkdir_exist_ok result_folder w) as [w1 [e|[]]] eqn:E.
  - exists [MakeResult]. split_and!; [repeat constructor; by left| |done].
    rewrite run_jobs_cons. cbn [exec_job]. by rewrite E.
  - assert (Hch : ∀ w, ∃ sched, Forall (valid_job st) sched
      ∧ for_each (process_subfolder st) items w = (run_jobs sched w, inr ())).
    { clear. induction items as [|e items IH]; intros w.
      - by exists [].
      - rewrite for_each_cons.
        destruct (process_subfolder_jobs st e w) as (s1 & Hv1 & ->).
        destruct (IH (run_jobs s1 w)) as (s2 & Hv2 & ->).
        exists (s1 ++ s2). split; [by apply Forall_app|].
        by rewrite run_jobs_app. }
    rewrite bind_unfold. destruct (Hch w1) as (s1 & Hv1 & ->).
    destruct (dispatch_jobs st (run_jobs s1 w1)) as (s2 & Hv2 & Hall & ->).
    exists (MakeResult :: s1 ++ s2). split_and!.
    + constructor; [by left|by apply Forall_app].
    + rewrite run_jobs_cons, run_jobs_app. cbn [exec_job]. by rewrite E.
    + intros _. split; [done|]. intros j Hj. right. apply elem_of_app.
      right. by apply Hall.
Qed.

End Sequential.


(** A clean start, from conditions that can be computed. *)
Lemma clean_start_intro {U : Unicode} (st : globals) (f : gmap path node) :
  map_Forall (λ q n, (¬ result_folder `prefix_of` q ∨ (length q ≤ 2)%nat)
                     ∧ is_original n = true) f →
  map_Forall (λ p n, map_Forall (λ q n', n = n' → n = NDir ∨ p = q) f) f →
  Forall (λ p, is_file_node (f !! p) = true ∧ final_name p ≠ []
               ∧ ¬ result_folder `prefix_of` p) (sources st) →
  NoDup (sources st) →
  NoDup (destinations st) →
  clean_start st f.
Proof.
  intros H1 H2 H3 H4 H5. rewrite Forall_forall in H3.
  constructor; [| | | | |done|done].
  - intros q Hpre. destruct (f !! q) as [n|] eqn:E; [|by left].
    destruct (H1 q n E) as [[?|?] _]; [done|by right].
  - intros p Hp. by destruct (H3 p Hp) as (_ & _ & ?).
  - intros q d E. destruct (H1 q _ E) as [_ Ho].
    destruct d as [i|]; [by exists i|done].
  - intros p q d Ep Eq. by destruct (H2 p _ Ep q _ Eq eq_refl).
  - intros p Hp. by destruct (H3 p Hp) as (? & ? & _).
Qed.

(** The sample folder beside a result folder in which a regular file is
    in the way of the folder for documents: a clean start. *)
Lemma obstructed_clean_start :
  clean_start (U:=ascii_only)
    (scan (U:=ascii_only) [lit "in"] sample_listing fresh_globals)
    (files obstructed_world).
Proof.
  apply clean_start_intro; apply (bool_decide_unpack _); vm_compute; exact I.
Qed.



Lemma handle_archive_outcomes_witness :
  let handled :=
    handle_archive (U:=ascii_only) (A:=sample_archives)
      [lit "in"; lit "archive.zip"] [lit "result"; lit "archives"] sample_world in
  handled.2 = inr () ∧ files handled.1 !! [lit "in"; lit "archive.zip"] = None.
Proof.
  apply (handle_archive_outcomes (U:=ascii_only) (A:=sample_archives)
           [lit "in"; lit "archive.zip"] [lit "result"; lit "archives"]
           (Original 3) sample_world
           ((mkdir_p [lit "result"; lit "archives"] ;;
             mkdir_p [lit "result"; lit "archives"; lit "archive"])
              sample_world).1).
  - vm_compute. reflexivity.
  - vm_compute. reflexivity.
  - vm_compute. reflexivity.
Defined.

(** An archive whose extraction raises something else than
    [shutil.ReadError]: the folder made for it stays. *)
Lemma folder_stays_after_failed_extraction :
  let folder := [lit "result"; lit "archives"; lit "truncated"] in
  let handled :=
    handle_archive (U:=ascii_only) (A:=sample_archives)
      [lit "in"; lit "truncated.zip"] [lit "result"; lit "archives"]
      truncated_world in
  handled.2 = inl ExtractionError
  ∧ files truncated_world !! folder = None
  ∧ files handled.1 !! folder = Some NDir
  ∧ files handled.1 !! [lit "in"; lit "truncated.zip"] = Some (NFile (Original 6)).
Proof. vm_compute. done. Qed.

Lemma scan_routes_to_other_witness :
  let items := [File (lit "README"); File (lit "data.xyz")] in
  let st := scan (U:=ascii_only) [lit "in"] items fresh_globals in
  [lit "in"; lit "README"] ∈ contents st MY_OTHER
  ∧ lit "XYZ" ∈ UNKNOWN st.
Proof.
  intros items st.
  assert (H1 : ([lit "in"], lit "README") ∈ visited [lit "in"] items)
    by (vm_compute; left).
  assert (H2 : ([lit "in"], lit "data.xyz") ∈ visited [lit "in"] items)
    by (vm_compute; right; left).
  destruct (scan_routes_to_other (U:=ascii_only) [lit "in"] items fresh_globals
              [lit "in"] (lit "README") H1) as [Hnone _].
  destruct (scan_routes_to_other (U:=ascii_only) [lit "in"] items fresh_globals
              [lit "in"] (lit "data.xyz") H2) as [_ Hunknown].
  split.
  - apply Hnone. vm_compute. reflexivity.
  - apply Hunknown.
    + vm_compute. discriminate.
    + vm_compute. reflexivity.
Defined.

Local Open Scope Z_scope.

Section FactorizeMore.
Context {F : FloatPow}.

(** X1. Whatever [int(n ** 0.5)] comes to, [factorize] returns nothing but
    positive divisors of [n >= 1], in increasing order. *)
Theorem factorize_only_divisors (n : Z) :
  1 ≤ n →
  Sorted Z.le (factorize n).1
  ∧ ∀ d, d ∈ (factorize n).1 → 0 < d ∧ (d | n).
Proof.
  intros Hn. unfold factorize. destruct (int_sqrt n) as [e|r]; cbn [fst].
  - split; [constructor|]. by intros d ?%elem_of_nil.
  - split; [apply (Sorted_merge_sort Z.le)|].
    intros d. unfold sorted. rewrite merge_sort_Permutation, elem_of_collect.
    setoid_rewrite elem_of_range1.
    intros (m & Hm & Hmod & Hd).
    apply Z.div_exact in Hmod as Hdiv; [|lia].
    assert (0 < n / m) by nia.
    destruct Hd as [->| ->]; (split; [lia|]).
    + exists (n / m). lia.
    + exists m. lia.
Qed.

(** X2. When [int(n ** 0.5)] is not below the integer square root, no
    positive divisor of [n] is missing. *)
Theorem factorize_misses_nothing (n d : Z) :
  1 ≤ n → n < FLOAT_OVERFLOW → Z.sqrt n ≤ int_pow_half n →
  0 < d → (d | n) → d ∈ (factorize n).1.
Proof.
  intros Hn Hlt Hsqrt Hd [q Hq]. unfold factorize, int_sqrt.
  destruct (Z.ltb_spec n 0); [lia|].
  destruct (Z.ltb_spec n FLOAT_OVERFLOW); [|lia]. cbn [fst].
  unfold sorted. rewrite merge_sort_Permutation, elem_of_collect.
  setoid_rewrite elem_of_range1.
  pose proof (Z.sqrt_spec n ltac:(lia)) as Hs. cbv zeta in Hs.
  pose proof (Z.sqrt_nonneg n) as Hs0.
  assert (0 < q) by nia.
  destruct (Z.le_gt_cases d (Z.sqrt n)) as [Hle|Hgt].
  - exists d. split; [lia|]. split; [|by left].
    rewrite Hq. apply Z.mod_mul. lia.
  - exists q. split; [nia|]. split.
    + rewrite Hq, Z.mul_comm. apply Z.mod_mul. lia.
    + right. rewrite Hq. symmetry. rewrite Z.mul_comm. apply Z.div_mul. lia.
Qed.

(** X3. When [int(n ** 0.5)] is not above the integer square root, no divisor
    is listed twice. *)
Theorem factorize_lists_once (n : Z) :
  1 ≤ n → int_pow_half n ≤ Z.sqrt n → NoDup (factorize n).1.
Proof.
  intros Hn Hsqrt. unfold factorize, int_sqrt.
  destruct (Z.ltb_spec n 0); [lia|].
  destruct (Z.ltb_spec n FLOAT_OVERFLOW); cbn [fst]; [|constructor].
  unfold sorted. rewrite merge_sort_Permutation. unfold range1.
  pose proof (Z.sqrt_spec n ltac:(lia)) as Hs. cbv zeta in Hs.
  pose proof (Z.sqrt_nonneg n) as Hs0.
  apply collect_NoDup; [done|lia|].
  destruct (Z.le_gt_cases (int_pow_half n) 0) as [Hle|Hgt].
  - right. lia.
  - left. nia.
Qed.

(** X4. Divisors come in pairs, whatever [int(n ** 0.5)] comes to: with
    [d] the list holds [n // d]. *)
Theorem factorize_pairs (n d : Z) :
  1 ≤ n → d ∈ (factorize n).1 → n / d ∈ (factorize n).1.
Proof.
  intros Hn. unfold factorize. destruct (int_sqrt n) as [e|r]; cbn [fst].
  - by intros ?%elem_of_nil.
  - unfold sorted. rewrite !merge_sort_Permutation, !elem_of_collect.
    setoid_rewrite elem_of_range1.
    intros (m & Hm & Hmod & Hd). exists m. split; [done|]. split; [done|].
    destruct Hd as [->| ->]; [by right|left].
    apply Z.div_exact in Hmod as Hdiv; [|lia].
    assert (0 < n / m) by nia.
    symmetry. apply (Z.div_unique_exact n (n / m) m); lia.
Qed.

End FactorizeMore.

Lemma factorize_only_divisors_witness :
  Sorted Z.le (factorize (F:=exact_pow) 12).1
  ∧ ∀ d, d ∈ (factorize (F:=exact_pow) 12).1 → 0 < d ∧ (d | 12).
Proof. apply (factorize_only_divisors (F:=exact_pow) 12). lia. Defined.

Lemma factorize_misses_nothing_witness : 4 ∈ (factorize (F:=exact_pow) 12).1.
Proof.
  apply (factorize_misses_nothing (F:=exact_pow) 12 4).
  - lia.
  - vm_compute. reflexivity.
  - vm_compute. discriminate.
  - lia.
  - by exists 3.
Defined.

Lemma factorize_lists_once_witness : NoDup (factorize (F:=exact_pow) 36).1.
Proof.
  apply (factorize_lists_once (F:=exact_pow) 36).
  - lia.
  - vm_compute. discriminate.
Defined.

Lemma factorize_pairs_witness : 12 / 2 ∈ (factorize (F:=exact_pow) 12).1.
Proof.
  apply (factorize_pairs (F:=exact_pow) 12 2); [lia|].
  apply (bool_decide_unpack _). vm_compute. exact I.
Defined.

Local Close Scope Z_scope.

Local Open Scope Z_scope.

Section ParallelFacts.
Context {F : FloatPow}.

Lemma chunked_fold (chunk : list Z) acc :
  foldl (λ acc number,
           let '(factors, logged) := factorize number in
           (acc.1 ++ [(number, factors)], acc.2 ++ option_list logged))
        acc chunk
  = (acc.1 ++ ((λ n, (n, (factorize n).1)) <$> chunk),
     acc.2 ++ (chunk ≫= λ n, option_list (factorize n).2)).
Proof.
  revert acc. induction chunk as [|n chunk IH]; intros [res logged].
  - cbn [foldl fst snd]. change (?f <$> []) with (@nil (Z * list Z)).
    change ([] ≫= ?f) with (@nil (list N)). by rewrite !app_nil_r.
  - cbn [foldl]. rewrite IH, fmap_cons, bind_cons.
    destruct (factorize n) as [factors msg].
    cbn [fst snd]. by rewrite <- !app_assoc.
Qed.

(** [factorize_all_parallel_chunked] as a map over the chunk. *)
Lemma chunked_answers_each (chunk : list Z) :
  (factorize_all_parallel_chunked chunk).1
  = (λ n, (n, (factorize n).1)) <$> chunk
  ∧ (factorize_all_parallel_chunked chunk).2
    = chunk ≫= λ n, option_list (factorize n).2.
Proof. unfold factorize_all_parallel_chunked. by rewrite chunked_fold. Qed.

(** The state of the chunking loop after [k] turns. *)
Lemma chunks_loop (numbers : list Z) (np : Z) (k : nat) :
  let len := Z.of_nat (length numbers) in
  let q := len / np in
  let r := len mod np in
  1 ≤ np → (Z.of_nat k ≤ np) →
  let acc := foldl (λ acc process,
            let stop := acc.2 + q + (if process <? r then 1 else 0) in
            (acc.1 ++ [slice numbers acc.2 stop], stop))
         ([], 0) (Z.of_nat <$> seq 0 k) in
  acc.2 = Z.of_nat k * q + Z.min (Z.of_nat k) r
  ∧ concat acc.1 = take (Z.to_nat acc.2) numbers
  ∧ length acc.1 = k
  ∧ Forall (λ c, q ≤ Z.of_nat (length c) ≤ q + 1) acc.1.
Proof.
  intros len q r Hnp. 
  assert (Hlen : len = np * q + r) by (apply Z.div_mod; lia).
  assert (Hr : 0 ≤ r < np) by (apply Z.mod_pos_bound; lia).
  assert (Hq : 0 ≤ q) by (apply Z.div_pos; lia).
  induction k as [|k IH]; intros Hk acc.
  - subst acc. cbn. split_and!; [lia|done|done|constructor].
  - subst acc. rewrite seq_S, fmap_app, foldl_app. cbn [foldl fmap list_fmap plus].
    specialize (IH ltac:(lia)). cbv zeta in IH.
    destruct (foldl _ _ (Z.of_nat <$> seq 0 k)) as [chunks start] eqn:E.
    cbn [fst snd] in *. destruct IH as (Hstart & Hconcat & Hlength & Hsizes).
    set (stop := start + q + (if Z.of_nat k <? r then 1 else 0)).
    assert (Hstop : stop = Z.of_nat (S k) * q + Z.min (Z.of_nat (S k)) r).
    { subst stop. destruct (Z.ltb_spec (Z.of_nat k) r); lia. }
    assert (Hbound : 0 ≤ start ≤ stop ∧ stop ≤ len).
    { subst stop. destruct (Z.ltb_spec (Z.of_nat k) r); nia. }
    assert (Hslice : length (slice numbers start stop)
                     = (Z.to_nat stop - Z.to_nat start)%nat).
    { unfold slice. rewrite length_take, length_drop. subst len. lia. }
    split_and!.
    + done.
    + rewrite concat_app, Hconcat. cbn [concat]. rewrite app_nil_r.
      unfold slice. rewrite take_take_drop. f_equal. lia.
    + rewrite length_app. cbn. lia.
    + apply Forall_app. split; [done|]. constructor; [|constructor].
      rewrite Hslice. subst stop.
      destruct (Z.ltb_spec (Z.of_nat k) r); lia.
Qed.

(** X6. For a positive number of processes the chunks are as many as the
    processes, put end to end they are the list, and their lengths differ
    by one at most. *)
Theorem chunks_partition (numbers : list Z) (num_processes : Z) :
  1 ≤ num_processes →
  let chunks := make_chunks numbers num_processes in
  let chunk_size := Z.of_nat (length numbers) / num_processes in
  concat chunks = numbers
  ∧ length chunks = Z.to_nat num_processes
  ∧ Forall (λ c, chunk_size ≤ Z.of_nat (length c) ≤ chunk_size + 1) chunks.
Proof.
  intros Hnp chunks chunk_size. subst chunks. unfold make_chunks, range0.
  pose proof (chunks_loop numbers num_processes (Z.to_nat num_processes) Hnp
                ltac:(lia)) as H.
  cbv zeta in H. destruct H as (Hstart & Hconcat & Hlength & Hsizes).
  split_and!; [|done|done].
  rewrite Hconcat, Hstart. apply take_ge.
  assert (Hlen : Z.of_nat (length numbers)
                 = num_processes * (Z.of_nat (length numbers) / num_processes)
                   + Z.of_nat (length numbers) mod num_processes)
    by (apply Z.div_mod; lia).
  assert (Hr : 0 ≤ Z.of_nat (length numbers) mod num_processes < num_processes)
    by (apply Z.mod_pos_bound; lia).
  rewrite Z2Nat.id by lia. lia.
Qed.

Lemma bind_seq_lookup {B} (l : list (list Z)) (h : list Z → list B) :
  seq 0 (length l) ≫= (λ i, h (default [] (l !! i))) = l ≫= h.
Proof.
  induction l as [|x l IH] using rev_ind; [done|].
  rewrite length_app. cbn [length]. rewrite Nat.add_1_r, seq_S, !bind_app.
  rewrite !bind_cons. change ([] ≫= ?f) with (@nil B). rewrite !app_nil_r.
  cbn [plus]. f_equal.
  - rewrite <- IH. apply Forall_bind_ext, Forall_forall.
    intros i Hi%elem_of_seq. rewrite lookup_app_l; [done|lia].
  - rewrite list_lookup_middle by done. done.
Qed.

(** X7. [process_factorization] with a positive number of processes: in
    whatever order the futures complete, the result holds the answer for
    every number of the list, each once; in the order of the chunks it is
    the list of answers itself.  Nothing is logged. *)
Theorem process_factorization_answers_all (numbers : list Z)
    (num_processes : Z) (completed : list nat) :
  1 ≤ num_processes →
  completed ≡ₚ seq 0 (Z.to_nat num_processes) →
  ∃ result,
    process_factorization numbers num_processes completed = (Some result, [])
    ∧ result ≡ₚ (λ n, (n, (factorize n).1)) <$> numbers
    ∧ (completed = seq 0 (Z.to_nat num_processes) →
       result = (λ n, (n, (factorize n).1)) <$> numbers).
Proof.
  intros Hnp Hperm. unfold process_factorization.
  destruct (Z.eqb_spec num_processes 0); [lia|].
  destruct (Z.ltb_spec num_processes 0); [lia|].
  eexists. split; [reflexivity|].
  destruct (chunks_partition numbers num_processes Hnp) as (Hconcat & Hlength & _).
  set (chunks := make_chunks numbers num_processes) in *.
  assert (Hall : seq 0 (Z.to_nat num_processes) ≫=
            (λ i, (factorize_all_parallel_chunked (default [] (chunks !! i))).1)
          = (λ n, (n, (factorize n).1)) <$> numbers).
  { rewrite <- Hlength, (bind_seq_lookup chunks (λ c, (factorize_all_parallel_chunked c).1)).
    clearbody chunks. rewrite <- Hconcat. clear.
    induction chunks as [|c chunks IH]; [done|].
    cbn [concat]. rewrite fmap_app, <- IH. cbn.
    by destruct (chunked_answers_each c) as [-> _]. }
  split.
  - rewrite <- Hall. by rewrite Hperm.
  - by intros ->.
Qed.

(** X9. The number of processes [main] chooses is between 1 and 22 whatever
    the user enters, and is the number asked for when that is between 1
    and 22 and the list is short; so the call of [process_factorization]
    from [main] returns a result. *)
Theorem main_chooses_processes (number_processes : Z) (numbers : list Z)
    (completed : list nat) :
  let chosen := choose_processes number_processes (Z.of_nat (length numbers)) in
  1 ≤ chosen ≤ 22
  ∧ (1 ≤ number_processes ≤ 22 → Z.of_nat (length numbers) < 1000 * number_processes →
     chosen = number_processes)
  ∧ (process_factorization numbers chosen completed).1 ≠ None.
Proof.
  intros chosen.
  assert (Hb : 1 ≤ chosen ≤ 22).
  { subst chosen. unfold choose_processes.
    destruct (Z.ltb_spec number_processes 1); cbv beta iota zeta; lia. }
  split; [done|]. split.
  - intros Hreq Hlen. subst chosen. unfold choose_processes.
    destruct (Z.ltb_spec number_processes 1); [lia|]. cbv beta iota zeta.
    assert (Z.of_nat (length numbers) / 1000 ≤ number_processes).
    { apply Z.lt_succ_r. apply Z.div_lt_upper_bound; lia. }
    lia.
  - unfold process_factorization.
    destruct (Z.eqb_spec chosen 0); [lia|].
    destruct (Z.ltb_spec chosen 0); [lia|done].
Qed.

End ParallelFacts.

Lemma chunks_partition_witness :
  concat (make_chunks [1; 2; 3; 4; 5; 6; 7] 3) = [1; 2; 3; 4; 5; 6; 7]
  ∧ length (make_chunks [1; 2; 3; 4; 5; 6; 7] 3) = 3%nat
  ∧ Forall (λ c, 2 ≤ Z.of_nat (length c) ≤ 2 + 1)
      (make_chunks [1; 2; 3; 4; 5; 6; 7] 3).
Proof. apply (chunks_partition [1; 2; 3; 4; 5; 6; 7] 3). lia. Defined.

Lemma process_factorization_answers_all_witness :
  ∃ result,
    process_factorization (F:=exact_pow) [4; 5; 6; 7] 2 [1%nat; 0%nat]
    = (Some result, [])
    ∧ result ≡ₚ (λ n, (n, (factorize (F:=exact_pow) n).1)) <$> [4; 5; 6; 7]
    ∧ ([1%nat; 0%nat] = seq 0 (Z.to_nat 2) →
       result = (λ n, (n, (factorize (F:=exact_pow) n).1)) <$> [4; 5; 6; 7]).
Proof.
  apply (process_factorization_answers_all (F:=exact_pow) [4; 5; 6; 7] 2
           [1%nat; 0%nat]).
  - lia.
  - apply perm_swap.
Defined.

Local Close Scope Z_scope.

Section NameFacts.
Context {U : Unicode}.

#[local] Opaque TRANS REGISTER_EXTENSION.

Lemma splitext_join x : (splitext x).1 ++ (splitext x).2 = x.
Proof.
  destruct (splitext_cases x) as [->|(stem & e & Hx & -> & _)]; cbn.
  - apply app_nil_r.
  - done.
Qed.

Lemma normalize_unfold x :
  normalize x = sub_nonword (translate (splitext x).1) ++ (splitext x).2.
Proof. unfold normalize. by destruct (splitext x). Qed.

(** X10. The names [normalize] leaves as they are: those whose stem is made
    of word characters the table does not translate. *)
Theorem normalize_fixed_points (x : list N) :
  normalize x = x ↔ Forall settled (splitext x).1.
Proof.
  rewrite normalize_unfold. split.
  - intros H. rewrite <- (splitext_join x) in H at 3.
    apply app_inv_tail in H. rewrite <- H. apply stem_settled.
  - intros H. rewrite translate_settled, sub_nonword_word by done.
    apply splitext_join.
Qed.

(** X11. [normalize] keeps the extension letter for letter, and the stem it
    returns is made of word characters. *)
Theorem normalize_keeps_extension (x : list N) :
  (splitext (normalize x)).2 = (splitext x).2
  ∧ Forall (λ c, is_word c = true) (splitext (normalize x)).1.
Proof.
  assert (Hw : ∀ s, Forall settled s → Forall (λ c, is_word c = true) s).
  { intros s Hs. eapply Forall_impl; [exact Hs|]. by intros c [? _]. }
  rewrite normalize_unfold.
  destruct (splitext_cases x) as [->|(stem & e & -> & -> & Hne & Hd & Hsl)];
    cbn [fst snd].
  - rewrite app_nil_r, splitext_settled by apply stem_settled.
    split; [done|]. apply Hw, stem_settled.
  - rewrite splitext_rebuilt; [|apply stem_settled| |done..].
    + split; [done|]. apply Hw, stem_settled.
    + intros H. unfold sub_nonword in H. apply fmap_nil_inv in H.
      by apply translate_nil_inv in H.
Qed.

Lemma sub_nonword_length s : length (sub_nonword s) = length s.
Proof. apply length_fmap. Qed.

Lemma translate_length s : (length s ≤ length (translate s))%nat.
Proof.
  induction s as [|c s IH]; [done|].
  rewrite translate_cons, length_app. cbn [length].
  destruct (TRANS !! c) as [v|] eqn:E; cbn [default from_option id length]; [|lia].
  apply TRANS_entries in E. unfold trans_entry_ok in E.
  apply andb_true_iff in E as [E _]. apply andb_true_iff in E as [_ E].
  apply negb_true_iff, bool_decide_eq_false in E.
  destruct v; [done|]. cbn [length]. lia.
Qed.

(** X12. [normalize] never makes a name shorter: every character gives at
    least one. *)
Theorem normalize_never_shortens (x : list N) :
  (length x ≤ length (normalize x))%nat.
Proof.
  rewrite normalize_unfold. rewrite <- (splitext_join x) at 1.
  rewrite !length_app, sub_nonword_length.
  pose proof (translate_length (splitext x).1). lia.
Qed.

Lemma suffix_no_dot s : dot ∉ s → suffix s = [].
Proof. intros H%rfind_None. unfold suffix. by rewrite H. Qed.

Lemma path_name_no_slash name :
  slash ∉ name → path_name name = name ∨ path_name name = [].
Proof.
  intros Hs. unfold path_name. rewrite split_on_no_sep by done.
  destruct (decide (name ≠ [] ∧ name ≠ [dot])).
  - rewrite filter_cons_True by done. by left.
  - rewrite filter_cons_False by done. by right.
Qed.

Lemma suffix_nil : suffix [] = [].
Proof. reflexivity. Qed.

(** The extension is what follows the last dot, upper-cased, whatever
    dots the stem has. *)
Lemma get_extension_last_suffix (stem e : list N) :
  stem ≠ [] → e ≠ [] → slash ∉ stem → slash ∉ e → dot ∉ e →
  get_extension (stem ++ dot :: e) = upper e.
Proof.
  intros Hst He Hs1 Hs2 Hd. unfold get_extension.
  rewrite path_name_simple.
  - by rewrite suffix_extension.
  - rewrite elem_of_app, elem_of_cons. intros [?|[?|?]]; done.
  - by destruct stem.
  - destruct stem as [|? [|? ?]]; [done| |done]. by destruct e.
Qed.

Lemma get_extension_leading_dot s :
  slash ∉ s → dot ∉ s → get_extension (dot :: s) = [].
Proof.
  intros Hs Hd. unfold get_extension.
  destruct (path_name_no_slash (dot :: s)) as [-> | ->]; [| |done].
  - rewrite not_elem_of_cons. split; [done|done].
  - unfold suffix. cbn [rfind]. apply rfind_None in Hd. rewrite Hd.
    cbn. done.
Qed.

Lemma get_extension_trailing_dot s :
  slash ∉ s → get_extension (s ++ [dot]) = [].
Proof.
  intros Hs. unfold get_extension.
  destruct (path_name_no_slash (s ++ [dot])) as [-> | ->]; [| |done].
  - rewrite elem_of_app, elem_of_cons. intros [?|[?|?%elem_of_nil]]; done.
  - unfold suffix. rewrite rfind_app_last by apply not_elem_of_nil.
    rewrite bool_decide_eq_false_2; [done|].
    rewrite length_app. cbn. lia.
Qed.

(** X13. A file whose name starts with its only dot, or ends with a dot,
    has no extension for [get_extension]: [scan], coming to it at the end
    of a listing, appends its path to [MY_OTHER] and changes nothing else,
    neither another list nor [UNKNOWN] nor [EXTENSIONS]. *)
Theorem dot_at_the_edge_is_no_extension (folder : path) (items : list entry)
    (st : globals) (s name : list N) :
  let before := scan folder items st in
  let after := scan folder (items ++ [File name]) st in
  slash ∉ s →
  (name = dot :: s ∧ dot ∉ s) ∨ name = s ++ [dot] →
  get_extension name = []
  ∧ contents after MY_OTHER = contents before MY_OTHER ++ [folder /: name]
  ∧ (∀ b, b ≠ MY_OTHER → contents after b = contents before b)
  ∧ UNKNOWN after = UNKNOWN before
  ∧ EXTENSIONS after = EXTENSIONS before.
Proof.
  intros before after Hs Hname.
  assert (He : get_extension name = []).
  { destruct Hname as [[-> Hd]| ->].
    - by apply get_extension_leading_dot.
    - by apply get_extension_trailing_dot. }
  split; [done|].
  assert (Hafter : after = append_to MY_OTHER (folder /: name) before).
  { subst after before. rewrite scan_app.
    change (scan folder [File name] ?x) with (scan_file folder name x).
    unfold scan_file. by rewrite decide_True. }
  rewrite Hafter. cbn [contents append_to UNKNOWN EXTENSIONS].
  split_and!; [by rewrite decide_True| |done..].
  intros b Hb. by rewrite decide_False.
Qed.

(** X14. Renaming does not change what a file is taken for: a name of one
    component that does not start with a dot has the extension after
    [normalize] that it had before. *)
Theorem normalize_keeps_classification (x : list N) :
  slash ∉ x → head x ≠ Some dot →
  get_extension (normalize x) = get_extension x
  ∧ bucket_of (normalize x) = bucket_of x.
Proof.
  intros Hs Hh.
  assert (He : get_extension (normalize x) = get_extension x);
    [|split; [done|]; unfold bucket_of; by rewrite He].
  rewrite normalize_unfold.
  destruct (splitext_cases x) as [Hx|(stem & e & -> & -> & Hne & Hd & Hsl)].
  - rewrite Hx. cbn [fst snd]. rewrite app_nil_r.
    assert (Hset := stem_settled x).
    assert (get_extension (sub_nonword (translate x)) = []) as ->.
    { unfold get_extension.
      destruct (path_name_no_slash (sub_nonword (translate x))) as [-> | ->];
        [by apply settled_not_slash| |done].
      by rewrite suffix_no_dot by by apply settled_not_dot. }
    symmetry. unfold get_extension.
    destruct (path_name_no_slash x Hs) as [-> | ->]; [|done].
    unfold splitext in Hx.
    apply rfind_None in Hs. rewrite Hs in Hx.
    unfold suffix. destruct (rfind dot x) as [d|] eqn:Ed; [|done].
    rewrite Nat.sub_0_r, drop_0 in Hx.
    rewrite bool_decide_eq_true_2 in Hx by lia. cbn [andb] in Hx.
    destruct (existsb _ _) eqn:Ex in Hx.
    { apply (f_equal snd) in Hx. cbn in Hx.
      apply rfind_Some in Ed as (s1 & s2 & -> & <- & _).
      by rewrite drop_app_length in Hx. }
    apply rfind_Some in Ed as (s1 & s2 & -> & <- & _).
    rewrite take_app_length in Ex.
    destruct s1 as [|c s1].
    + rewrite bool_decide_eq_false_2; [done|]. cbn. lia.
    + exfalso. cbn in Ex. apply orb_false_iff in Ex as [Ex _].
      apply negb_false_iff in Ex. apply N.eqb_eq in Ex. subst c.
      by apply Hh.
  - cbn [fst snd].
    assert (Hst : sub_nonword (translate stem) ≠ []).
    { intros H. unfold sub_nonword in H. apply fmap_nil_inv in H.
      by apply translate_nil_inv in H. }
    assert (Hsl1 : slash ∉ stem).
    { intros H. apply Hs. apply elem_of_app. by left. }
    destruct (decide (e = [])) as [->|Hen].
    + assert (∀ s, slash ∉ s → get_extension (s ++ [dot]) = []) as Hedge.
      { intros s Hss. unfold get_extension.
        destruct (path_name_no_slash (s ++ [dot])) as [-> | ->]; [| |done].
        - rewrite elem_of_app, elem_of_cons.
          intros [?|[?|?%elem_of_nil]]; done.
        - unfold suffix. rewrite rfind_app_last by apply not_elem_of_nil.
          rewrite bool_decide_eq_false_2; [done|].
          rewrite length_app. cbn. lia. }
      rewrite !Hedge; [done|done|].
      apply settled_not_slash, stem_settled.
    + rewrite !get_extension_last_suffix; try done.
      apply settled_not_slash, stem_settled.
Qed.

End NameFacts.

Lemma dot_at_the_edge_is_no_extension_witness :
  let before := scan (U:=ascii_only) [lit "in"] [File (lit "a.png")]
                  fresh_globals in
  let after := scan (U:=ascii_only) [lit "in"]
                 ([File (lit "a.png")] ++ [File (dot :: lit "bashrc")])
                 fresh_globals in
  get_extension (U:=ascii_only) (dot :: lit "bashrc") = []
  ∧ contents after MY_OTHER
    = contents before MY_OTHER ++ [[lit "in"] /: (dot :: lit "bashrc")]
  ∧ (∀ b, b ≠ MY_OTHER → contents after b = contents before b)
  ∧ UNKNOWN after = UNKNOWN before
  ∧ EXTENSIONS after = EXTENSIONS before.
Proof.
  apply (dot_at_the_edge_is_no_extension (U:=ascii_only) [lit "in"]
           [File (lit "a.png")] fresh_globals (lit "bashrc")
           (dot :: lit "bashrc")).
  - apply (bool_decide_unpack _). vm_compute. reflexivity.
  - left. split; [reflexivity|].
    apply (bool_decide_unpack _). vm_compute. reflexivity.
Defined.

Lemma normalize_keeps_classification_witness :
  get_extension (U:=ascii_only) (normalize (U:=ascii_only) (lit "my notes.TXT"))
  = get_extension (U:=ascii_only) (lit "my notes.TXT")
  ∧ bucket_of (U:=ascii_only) (normalize (U:=ascii_only) (lit "my notes.TXT"))
    = bucket_of (U:=ascii_only) (lit "my notes.TXT").
Proof.
  apply (normalize_keeps_classification (U:=ascii_only) (lit "my notes.TXT")).
  - apply (bool_decide_unpack _). vm_compute. reflexivity.
  - discriminate.
Defined.

Section ScanMore.
Context {U : Unicode}.

#[local] Opaque REGISTER_EXTENSION.

Lemma bucket_once (b : bucket) (p : path) :
  all_buckets ≫= (λ b', if decide (b = b') then [p] else []) = [p].
Proof. by destruct b. Qed.

Lemma recorded_paths_for (l : list (path * list N)) :
  all_buckets ≫= (λ b, paths_for b l) ≡ₚ (λ fn, fn.1 /: fn.2) <$> l.
Proof.
  induction l as [|[folder name] l IH].
  - by vm_compute.
  - rewrite fmap_cons, <- IH. cbn [fst snd].
    transitivity
      ((all_buckets ≫= (λ b', if decide (bucket_of name = b')
                               then [folder /: name] else []))
       ++ (all_buckets ≫= λ b, paths_for b l)).
    2: { by rewrite bucket_once. }
    generalize all_buckets as bs. intros bs.
    induction bs as [|b bs IHbs]; [done|].
    rewrite !bind_cons, IHbs.
    change ((folder, name) :: l) with ([(folder, name)] ++ l).
    rewrite paths_for_app, paths_for_singleton.
    rewrite <- !app_assoc. apply Permutation_app_head.
    rewrite !app_assoc. apply Permutation_app_tail.
    apply Permutation_app_comm.
Qed.

(** X15. [scan] files every file it reaches on one of the twenty lists, and
    on one only: after the scan the lists hold what they held and the
    files reached, each as often as the walk reaches it. *)
Theorem scan_files_each_once (folder : path) (items : list entry) (st : globals) :
  recorded (scan folder items st)
  ≡ₚ recorded st ++ ((λ fn, fn.1 /: fn.2) <$> visited folder items).
Proof.
  unfold recorded. rewrite <- recorded_paths_for.
  generalize all_buckets as bs. intros bs.
  induction bs as [|b bs IH]; [done|].
  rewrite !bind_cons, IH, scan_contents.
  rewrite <- !app_assoc. apply Permutation_app_head.
  rewrite !app_assoc. apply Permutation_app_tail.
  apply Permutation_app_comm.
Qed.

Lemma scan_file_extensions folder name st :
  EXTENSIONS (scan_file folder name st) = known_of name ∪ EXTENSIONS st.
Proof.
  unfold scan_file, known_of.
  destruct (decide (get_extension name = [])) as [He|He].
  - cbn. set_solver.
  - destruct (REGISTER_EXTENSION !! get_extension name); cbn; set_solver.
Qed.

Lemma scan_entry_extensions e : ∀ folder st,
  EXTENSIONS (scan_entry folder e st)
  = ⋃ ((λ fn, known_of fn.2) <$> visited_entry folder e) ∪ EXTENSIONS st.
Proof.
  induction e as [n|n ch IH] using entry_ind'; intros folder st.
  - change (scan_entry folder (File n) st) with (scan_file folder n st).
    rewrite scan_file_extensions. cbn. set_solver.
  - rewrite scan_entry_dir, visited_entry_dir.
    destruct (decide (n ∈ skipped_names)); [cbn; set_solver|].
    change (EXTENSIONS st) with (EXTENSIONS (add_folder (folder /: n) st)).
    generalize (add_folder (folder /: n) st) as st'.
    generalize (folder /: n) as item. clear st.
    induction IH as [|e ch He _ IHch]; intros item st.
    + cbn. set_solver.
    + rewrite scan_cons, visited_cons, fmap_app, union_list_app_L, IHch, He.
      set_solver.
Qed.

Lemma scan_extensions folder items st :
  EXTENSIONS (scan folder items st)
  = ⋃ ((λ fn, known_of fn.2) <$> visited folder items) ∪ EXTENSIONS st.
Proof.
  revert st. induction items as [|e items IH]; intros st.
  - cbn. set_solver.
  - rewrite scan_cons, visited_cons, fmap_app, union_list_app_L, IH,
      scan_entry_extensions.
    set_solver.
Qed.

Lemma elem_of_known_of e name :
  e ∈ known_of name ↔ e = get_extension name ∧ is_Some (REGISTER_EXTENSION !! e).
Proof.
  unfold known_of. destruct (decide (get_extension name = [])) as [He|He].
  - split; [set_solver|]. intros [-> [b Hb]].
    apply REGISTER_EXTENSION_keys in Hb as [Hb _]. done.
  - destruct (REGISTER_EXTENSION !! get_extension name) as [b|] eqn:E.
    + rewrite elem_of_singleton. split; [intros ->; by rewrite E|by intros [-> _]].
    + split; [set_solver|]. intros [-> [b Hb]]. congruence.
Qed.

Lemma elem_of_unknown_of e name :
  e ∈ unknown_of name
  ↔ e = get_extension name ∧ e ≠ [] ∧ REGISTER_EXTENSION !! e = None.
Proof.
  unfold unknown_of. destruct (decide (get_extension name = [])) as [He|He].
  - split; [set_solver|]. intros (-> & ? & _). done.
  - destruct (REGISTER_EXTENSION !! get_extension name) as [b|] eqn:E.
    + split; [set_solver|]. intros (-> & _ & ?). congruence.
    + rewrite elem_of_singleton. split; [by intros ->|by intros [-> _]].
Qed.

(** X16. After a scan from the state of a fresh import, [EXTENSIONS] holds
    the extensions of the files reached that the table has, [UNKNOWN]
    those it has not, the empty one apart: the two sets share nothing,
    and every non-empty extension met is in one of them. *)
Theorem scan_sorts_extensions (folder : path) (items : list entry) (e : list N) :
  let st := scan folder items fresh_globals in
  (e ∈ EXTENSIONS st
   ↔ is_Some (REGISTER_EXTENSION !! e)
     ∧ ∃ fn, fn ∈ visited folder items ∧ get_extension fn.2 = e)
  ∧ (e ∈ UNKNOWN st
     ↔ REGISTER_EXTENSION !! e = None ∧ e ≠ []
       ∧ ∃ fn, fn ∈ visited folder items ∧ get_extension fn.2 = e)
  ∧ ¬ (e ∈ EXTENSIONS st ∧ e ∈ UNKNOWN st).
Proof.
  intros st.
  assert (H1 : e ∈ EXTENSIONS st
   ↔ is_Some (REGISTER_EXTENSION !! e)
     ∧ ∃ fn, fn ∈ visited folder items ∧ get_extension fn.2 = e).
  { subst st. rewrite scan_extensions, elem_of_union, elem_of_union_list.
    cbn [EXTENSIONS fresh_globals]. split.
    - intros [(X & HX & He)|He]; [|set_solver].
      apply list_elem_of_fmap in HX as (fn & -> & Hfn).
      apply elem_of_known_of in He as [-> Hs]. split; [done|]. by exists fn.
    - intros (Hs & fn & Hfn & <-). left. exists (known_of fn.2).
      split; [apply list_elem_of_fmap; by exists fn|].
      by apply elem_of_known_of. }
  assert (H2 : e ∈ UNKNOWN st
     ↔ REGISTER_EXTENSION !! e = None ∧ e ≠ []
       ∧ ∃ fn, fn ∈ visited folder items ∧ get_extension fn.2 = e).
  { subst st. rewrite scan_unknown, elem_of_union, elem_of_union_list.
    cbn [UNKNOWN fresh_globals]. split.
    - intros [(X & HX & He)|He]; [|set_solver].
      apply list_elem_of_fmap in HX as (fn & -> & Hfn).
      apply elem_of_unknown_of in He as (-> & Hne & Hn).
      split_and!; [done..|]. by exists fn.
    - intros (Hn & Hne & fn & Hfn & <-). left. exists (unknown_of fn.2).
      split; [apply list_elem_of_fmap; by exists fn|].
      by apply elem_of_unknown_of. }
  split_and!; [done..|].
  rewrite H1, H2. intros [[[b Hb] _] [Hn _]]. congruence.
Qed.

Lemma visited_perm folder items items' :
  items ≡ₚ items' → visited folder items ≡ₚ visited folder items'.
Proof. intros H. unfold visited. by rewrite H. Qed.

Lemma paths_for_perm b l l' : l ≡ₚ l' → paths_for b l ≡ₚ paths_for b l'.
Proof. intros H. unfold paths_for. by rewrite H. Qed.

(** X17. The order in which the operating system lists the folder decides
    the order of the records only: listed in another order, every list
    receives the same files and the two sets are the same. *)
Theorem scan_listing_order (folder : path) (items items' : list entry)
    (st : globals) :
  items ≡ₚ items' →
  (∀ b, contents (scan folder items st) b ≡ₚ contents (scan folder items' st) b)
  ∧ EXTENSIONS (scan folder items st) = EXTENSIONS (scan folder items' st)
  ∧ UNKNOWN (scan folder items st) = UNKNOWN (scan folder items' st).
Proof.
  intros H. split_and!.
  - intros b. rewrite !scan_contents.
    apply Permutation_app_head, paths_for_perm, visited_perm, H.
  - rewrite !scan_extensions. f_equal. apply set_eq. intros e.
    rewrite !elem_of_union_list.
    by setoid_rewrite (visited_perm folder items items' H).
  - rewrite !scan_unknown. f_equal. apply set_eq. intros e.
    rewrite !elem_of_union_list.
    by setoid_rewrite (visited_perm folder items items' H).
Qed.

End ScanMore.

Lemma scan_listing_order_witness :
  let items := [File (lit "a.png"); File (lit "b.txt")] in
  let items' := [File (lit "b.txt"); File (lit "a.png")] in
  (∀ b, contents (scan (U:=ascii_only) [lit "in"] items fresh_globals) b
        ≡ₚ contents (scan (U:=ascii_only) [lit "in"] items' fresh_globals) b)
  ∧ EXTENSIONS (scan (U:=ascii_only) [lit "in"] items fresh_globals)
    = EXTENSIONS (scan (U:=ascii_only) [lit "in"] items' fresh_globals)
  ∧ UNKNOWN (scan (U:=ascii_only) [lit "in"] items fresh_globals)
    = UNKNOWN (scan (U:=ascii_only) [lit "in"] items' fresh_globals).
Proof.
  apply (scan_listing_order (U:=ascii_only) [lit "in"]
           [File (lit "a.png"); File (lit "b.txt")]
           [File (lit "b.txt"); File (lit "a.png")] fresh_globals).
  apply perm_swap.
Defined.

(** ** More on the handlers *)

Lemma for_each_app {A} (body : A → M unit) l1 l2 w w1 :
  for_each body l1 w = (w1, inr ()) →
  for_each body (l1 ++ l2) w = for_each body l2 w1.
Proof.
  revert w. induction l1 as [|x l1 IH]; intros w.
  - by intros [= ->].
  - cbn [app]. rewrite !for_each_cons.
    destruct (body x w) as [w' [e|[]]]; [done|]. apply IH.
Qed.

Lemma for_each_log {A} (body : A → M unit) l w :
  (∀ x w, log (body x w).1 = log w) → log (for_each body l w).1 = log w.
Proof.
  intros Hb. revert w. induction l as [|x l IH]; intros w; [done|].
  rewrite for_each_cons. specialize (Hb x w).
  destruct (body x w) as [w' [e|[]]]; [done|]. by rewrite IH.
Qed.

Lemma for_each_ext {A} (f g : A → M unit) l w :
  Forall (λ x, ∀ w, f x w = g x w) l → for_each f l w = for_each g l w.
Proof.
  intros H. revert w. induction H as [|x l Hx _ IH]; intros w; [done|].
  rewrite !for_each_cons, Hx. destruct (g x w) as [w' [e|[]]]; [done|]. apply IH.
Qed.

Lemma mkdir_exist_ok_log p w : log (mkdir_exist_ok p w).1 = log w.
Proof. unfold mkdir_exist_ok. by repeat case_match. Qed.

Lemma rmdir_log p w : log (rmdir p w).1 = log w.
Proof. unfold rmdir. by repeat case_match. Qed.

Lemma unlink_log p w : log (unlink p w).1 = log w.
Proof. unfold unlink. by repeat case_match. Qed.

Lemma submit_log (m : M unit) w :
  (∀ w, log (m w).1 = log w) → log (submit m w).1 = log w.
Proof. intros H. unfold submit, try_pass. specialize (H w). by destruct (m w). Qed.

Section HandlersMore.
Context {U : Unicode} {A : Archives}.

Lemma handle_archive_log a t w : log (handle_archive a t w).1 = log w.
Proof.
  unfold handle_archive.
  apply bind_log; [apply mkdir_p_log|]. intros _ w1.
  apply bind_log; [apply mkdir_p_log|]. intros _ w2.
  unfold try_except_return.
  destruct (unpack_archive a _ w2) as [w3 r] eqn:E.
  apply unpack_archive_spec in E as (Hl & _).
  destruct r as [e|[]].
  - destruct (decide (e = ReadError)); [|done]. by rewrite rmdir_log.
  - by rewrite unlink_log.
Qed.

Lemma process_archives_log l t w : log (process_archives l t w).1 = log w.
Proof. apply for_each_log. intros. apply handle_archive_log. Qed.

Lemma dispatch_log st w : log (dispatch st w).1 = log w.
Proof.
  unfold dispatch, process_images, process_audio, process_video,
    process_documents.
  repeat (apply bind_log;
          [intros; apply submit_log; intros; apply process_files_log|intros _ ?]).
  apply bind_log; [intros; apply submit_log; intros; apply process_archives_log|].
  intros _ ?. apply submit_log. intros. apply process_files_log.
Qed.

Lemma process_subfolder_log st e : ∀ w, log (process_subfolder st e w).1 = log w.
Proof.
  induction e as [n|n ch IH] using entry_ind'; intros w; [done|].
  cbn [process_subfolder]. apply submit_log. clear w. intros w.
  apply bind_log; [apply mkdir_exist_ok_log|]. intros _ w1.
  apply bind_log; [|intros; apply dispatch_log].
  clear w w1. intros w. revert w.
  induction IH as [|e ch He _ IHch]; intros w; [done|].
  rewrite for_each_cons. specialize (He w).
  destruct (process_subfolder st e w) as [w' [x|[]]]; [done|].
  by rewrite IHch.
Qed.

(** X18. [MediaHandler] holds a logger and never calls it: a run leaves the
    log as it found it, whatever its handlers raised and dropped. *)
Theorem run_logs_nothing (folder : path) (items : list entry) (st : globals)
    (w : world) :
  log (run folder items st w).2.1 = log w.
Proof.
  unfold run. cbn [snd]. unfold process_folder.
  apply bind_log; [apply mkdir_exist_ok_log|]. intros _ w1.
  apply bind_log; [|intros; apply dispatch_log].
  intros w2. apply for_each_log. intros. apply process_subfolder_log.
Qed.

(** X19. A file named [result] in the working directory: the run stops at
    [result_folder.mkdir] with [FileExistsError], with no file touched;
    the scan has filled the lists all the same. *)
Theorem result_in_the_way (folder : path) (items : list entry) (st : globals)
    (w : world) (d : data) :
  files w !! result_folder = Some (NFile d) →
  run folder items st w = (scan folder items st, (w, inl FileExistsError)).
Proof.
  intros Hr. unfold run. f_equal. unfold process_folder.
  rewrite bind_unfold. unfold mkdir_exist_ok, is_dir, exists_at.
  rewrite Hr.
  rewrite bool_decide_eq_false_2 by (intros [?|?]; done).
  rewrite bool_decide_eq_true_2 by (right; eauto). done.
Qed.

(** X20. [process_archives] has no [try] of its own: the first archive whose
    handling raises ends the loop, and the archives after it are not
    handled. *)
Theorem process_archives_stops (l1 l2 : list path) (a t : path)
    (w w1 w2 : world) (e : exn) :
  process_archives l1 t w = (w1, inr ()) →
  handle_archive a t w1 = (w2, inl e) →
  process_archives (l1 ++ a :: l2) t w = (w2, inl e).
Proof.
  intros H1 H2. unfold process_archives in *.
  rewrite (for_each_app _ _ _ _ _ H1), for_each_cons. by rewrite H2.
Qed.

(** X21. The tasks read the twenty lists only: [FOLDERS], [EXTENSIONS] and
    [UNKNOWN] are filled by [scan] and never looked at. *)
Theorem process_folder_reads_lists (st st' : globals) (items : list entry)
    (w : world) :
  (∀ b, contents st b = contents st' b) →
  process_folder st items w = process_folder st' items w.
Proof.
  intros Hc.
  assert (Hd : ∀ w, dispatch st w = dispatch st' w).
  { intros w'. unfold dispatch, images, audio, video, documents.
    by rewrite !Hc. }
  assert (Hs : ∀ e w, process_subfolder st e w = process_subfolder st' e w).
  { induction e as [n|n ch IH] using entry_ind'; intros w'; [done|].
    cbn [process_subfolder]. unfold submit, try_pass.
    rewrite !bind_unfold. destruct (mkdir_exist_ok result_folder w') as [w1 [x|[]]];
      [done|].
    rewrite !bind_unfold, (for_each_ext _ (process_subfolder st') ch w1 IH).
    destruct (for_each _ ch w1) as [w2 [x|[]]]; [done|]. by rewrite Hd. }
  unfold process_folder. rewrite !bind_unfold.
  destruct (mkdir_exist_ok result_folder w) as [w1 [x|[]]]; [done|].
  rewrite !bind_unfold, (for_each_ext _ (process_subfolder st') items w1).
  - destruct (for_each _ items w1) as [w2 [x|[]]]; [done|]. apply Hd.
  - apply Forall_forall. intros e _. apply Hs.
Qed.

End HandlersMore.

Lemma result_in_the_way_witness :
  let w := {| files := {[ result_folder := NFile (Original 1) ]}; log := [] |} in
  run (U:=ascii_only) (A:=sample_archives) [lit "in"] sample_listing
    fresh_globals w
  = (scan (U:=ascii_only) [lit "in"] sample_listing fresh_globals,
     (w, inl FileExistsError)).
Proof.
  intros w.
  apply (result_in_the_way (U:=ascii_only) (A:=sample_archives)
           [lit "in"] sample_listing fresh_globals w (Original 1)).
  vm_compute. reflexivity.
Defined.

Lemma process_archives_stops_witness :
  process_archives (U:=ascii_only) (A:=sample_archives)
    ([] ++ [lit "in"; lit "truncated.zip"] :: [[lit "in"; lit "later.zip"]])
    [lit "result"; lit "archives"] truncated_world
  = ((handle_archive (U:=ascii_only) (A:=sample_archives)
        [lit "in"; lit "truncated.zip"] [lit "result"; lit "archives"]
        truncated_world).1,
     inl ExtractionError).
Proof.
  apply (process_archives_stops (U:=ascii_only) (A:=sample_archives)
           [] [[lit "in"; lit "later.zip"]] [lit "in"; lit "truncated.zip"]
           [lit "result"; lit "archives"] truncated_world truncated_world).
  - reflexivity.
  - vm_compute. reflexivity.
Defined.

Lemma process_folder_reads_lists_witness :
  process_folder (U:=ascii_only) (A:=sample_archives)
    (scan (U:=ascii_only) [lit "in"] sample_listing fresh_globals)
    sample_listing sample_world
  = process_folder (U:=ascii_only) (A:=sample_archives)
      (add_unknown (lit "XYZ")
         (scan (U:=ascii_only) [lit "in"] sample_listing fresh_globals))
      sample_listing sample_world.
Proof.
  apply (process_folder_reads_lists (U:=ascii_only) (A:=sample_archives)).
  intros b. reflexivity.
Defined.

Section Collisions.
Context {U : Unicode}.

Lemma normalize_nil : normalize [] = [].
Proof. reflexivity. Qed.

(** X22. Two files whose names normalize to the same name go to the same
    place, and the second replaces the first: after [process_files] on
    the two, the content of the first is nowhere. *)
Theorem same_name_overwrites (p1 p2 : path) (r c : list N) (d1 d2 : data)
    (w : world) :
  let dest := [r; c; normalize (final_name p1)] in
  let w' := (process_files [p1; p2] [r; c] w).1 in
  normalize (final_name p1) = normalize (final_name p2) →
  final_name p1 ≠ [] →
  files w !! p1 = Some (NFile d1) →
  files w !! p2 = Some (NFile d2) →
  p1 ≠ p2 → p2 ≠ dest →
  (∀ q, files w !! q = Some (NFile d1) → q = p1) →
  (files w !! [r] = None ∨ files w !! [r] = Some NDir) →
  (files w !! [r; c] = None ∨ files w !! [r; c] = Some NDir) →
  files w !! dest ≠ Some NDir →
  files w' !! dest = Some (NFile d2)
  ∧ ∀ q, files w' !! q ≠ Some (NFile d1).
Proof.
  intros dest w' Hsame Hname Hp1 Hp2 Hne Hpd Honly Hr Hrc Hdest.
  assert (Hname2 : final_name p2 ≠ []).
  { intros H. rewrite H, normalize_nil in Hsame.
    by apply normalize_nonempty in Hname. }
  assert (Hp1r : p1 ≠ [r]) by (intros ->; destruct Hr; congruence).
  assert (Hp1rc : p1 ≠ [r; c]) by (intros ->; destruct Hrc; congruence).
  assert (Hp2r : p2 ≠ [r]) by (intros ->; destruct Hr; congruence).
  assert (Hp2rc : p2 ≠ [r; c]) by (intros ->; destruct Hrc; congruence).
  assert (Hd12 : d1 ≠ d2).
  { intros ->. by apply Hne, eq_sym, Honly. }
  destruct (process_files_fold [p1; p2] [r; c] w) as [_ Hfold].
  subst w'. rewrite Hfold. cbn [foldl]. clear Hfold.
  pose proof (relocate_effect p1 r c w Hname Hr Hrc Hdest Hp1r Hp1rc
                ltac:(by rewrite Hp1)) as H1.
  cbv zeta in H1. rewrite Hp1 in H1. fold dest in H1.
  set (w1 := (handle_media p1 [r; c] w).1) in *. clearbody w1.
  assert (Hw1p2 : files w1 !! p2 = Some (NFile d2)).
  { rewrite H1. rewrite lookup_insert_ne, lookup_delete_ne, !lookup_insert_ne; done. }
  pose proof (relocate_effect p2 r c w1 Hname2) as H2. cbv zeta in H2.
  rewrite <- Hsame in H2. fold dest in H2. rewrite Hw1p2 in H2.
  rewrite H2; clear H2.
  - split; [apply lookup_insert_eq|].
    intros q. destruct (decide (q = dest)) as [->|Hq1].
    { rewrite lookup_insert_eq. congruence. }
    rewrite lookup_insert_ne by done.
    destruct (decide (q = p2)) as [->|Hq2]; [by rewrite lookup_delete_eq|].
    rewrite lookup_delete_ne by done.
    destruct (decide (q = [r])) as [->|Hq3]; [by rewrite lookup_insert_eq|].
    rewrite lookup_insert_ne by done.
    destruct (decide (q = [r; c])) as [->|Hq4]; [by rewrite lookup_insert_eq|].
    rewrite lookup_insert_ne by done.
    rewrite H1, lookup_insert_ne by done.
    destruct (decide (q = p1)) as [->|Hq5]; [by rewrite lookup_delete_eq|].
    rewrite lookup_delete_ne, !lookup_insert_ne by done.
    intros H. by apply Hq5, Honly.
  - right. rewrite H1. rewrite lookup_insert_ne by (by intros [=]).
    destruct (decide (p1 = [r])) as [->|?]; [done|].
    rewrite lookup_delete_ne by done. apply lookup_insert_eq.
  - right. rewrite H1. rewrite lookup_insert_ne by (by intros [=]).
    rewrite lookup_delete_ne by done. rewrite lookup_insert_ne by done.
    apply lookup_insert_eq.
  - rewrite H1, lookup_insert_eq. done.
  - done.
  - done.
  - done.
Qed.

(** X23. Handling a file a second time changes nothing: the folders are
    there, the file is not at its source any more, and what [shutil.move]
    raises is dropped. *)
Theorem handle_media_twice (p : path) (r c : list N) (w : world) :
  let once := (handle_media p [r; c] w).1 in
  final_name p ≠ [] →
  (files w !! [r] = None ∨ files w !! [r] = Some NDir) →
  (files w !! [r; c] = None ∨ files w !! [r; c] = Some NDir) →
  files w !! [r; c; normalize (final_name p)] ≠ Some NDir →
  p ≠ [r] → p ≠ [r; c] →
  files w !! p ≠ Some NDir →
  files (handle_media p [r; c] once).1 = files once.
Proof.
  intros once Hname Hr Hrc Hdest Hp1 Hp2 Hpd.
  pose proof (relocate_effect p r c w Hname Hr Hrc Hdest Hp1 Hp2 Hpd) as H1.
  cbv zeta in H1. fold once in H1. clearbody once.
  set (dest := [r; c; normalize (final_name p)]) in *.
  set (base := <[[r] := NDir]> (<[[r; c] := NDir]> (files w))) in *.
  assert (Hbr : base !! [r] = Some NDir) by apply lookup_insert_eq.
  assert (Hbrc : base !! [r; c] = Some NDir).
  { unfold base. rewrite lookup_insert_ne by done. apply lookup_insert_eq. }
  assert (Hr1 : files once !! [r] = Some NDir).
  { rewrite H1. destruct (files w !! p);
      [rewrite lookup_insert_ne by (by intros [=]);
       rewrite lookup_delete_ne by done|]; done. }
  assert (Hrc1 : files once !! [r; c] = Some NDir).
  { rewrite H1. destruct (files w !! p);
      [rewrite lookup_insert_ne by (by intros [=]);
       rewrite lookup_delete_ne by done|]; done. }
  assert (Hd1 : files once !! dest ≠ Some NDir).
  { rewrite H1. destruct (files w !! p) as [n|] eqn:Ep.
    - rewrite lookup_insert_eq. congruence.
    - unfold base. rewrite !lookup_insert_ne by (by intros [=]). done. }
  assert (Hp1' : files once !! p ≠ Some NDir).
  { rewrite H1. destruct (files w !! p) as [n|] eqn:Ep.
    - rewrite lookup_insert. case_decide; [congruence|].
      by rewrite lookup_delete_eq.
    - unfold base. rewrite !lookup_insert_ne by done. by rewrite Ep. }
  rewrite (relocate_effect p r c once Hname (or_intror Hr1) (or_intror Hrc1)
             Hd1 Hp1 Hp2 Hp1').
  fold dest.
  assert (Hid : <[[r] := NDir]> (<[[r; c] := NDir]> (files once)) = files once).
  { rewrite (insert_id (files once) [r; c]) by done. by apply insert_id. }
  rewrite Hid.
  destruct (files once !! p) as [n|] eqn:E1; [|done].
  rewrite H1 in E1. destruct (files w !! p) as [n0|] eqn:Ep.
  - destruct (decide (p = dest)) as [Heq|Hne].
    + apply map_eq. intros q. destruct (decide (q = dest)) as [Hq|Hq].
      * rewrite Hq, lookup_insert_eq, H1, lookup_insert_eq.
        rewrite Heq, lookup_insert_eq in E1. done.
      * rewrite lookup_insert_ne by done.
        rewrite lookup_delete_ne; [done|congruence].
    + rewrite lookup_insert_ne, lookup_delete_eq in E1 by done. done.
  - unfold base in E1. rewrite !lookup_insert_ne in E1 by done. congruence.
Qed.

End Collisions.

Lemma same_name_overwrites_witness :
  let w := {| files := list_to_map
                [ ([lit "in"; lit "a b.txt"], NFile (Original 1));
                  ([lit "in"; lit "a_b.txt"], NFile (Original 2)) ];
              log := [] |} in
  let w' := (process_files (U:=ascii_only)
               [[lit "in"; lit "a b.txt"]; [lit "in"; lit "a_b.txt"]]
               [lit "result"; lit "documents"] w).1 in
  files w' !! [lit "result"; lit "documents";
               normalize (U:=ascii_only) (final_name [lit "in"; lit "a b.txt"])]
  = Some (NFile (Original 2))
  ∧ ∀ q, files w' !! q ≠ Some (NFile (Original 1)).
Proof.
  intros w.
  apply (same_name_overwrites (U:=ascii_only)
           [lit "in"; lit "a b.txt"] [lit "in"; lit "a_b.txt"]
           (lit "result") (lit "documents") (Original 1) (Original 2) w).
  - vm_compute. reflexivity.
  - discriminate.
  - vm_compute. reflexivity.
  - vm_compute. reflexivity.
  - discriminate.
  - discriminate.
  - intros q Hq.
    destruct (decide (q = [lit "in"; lit "a b.txt"])) as [|Hn1]; [done|].
    destruct (decide (q = [lit "in"; lit "a_b.txt"])) as [->|Hn2];
      [by vm_compute in Hq|].
    exfalso. revert Hq. unfold w. cbn [files list_to_map foldr fst snd uncurry].
    rewrite !lookup_insert_ne by done. by rewrite lookup_empty.
  - left. vm_compute. reflexivity.
  - left. vm_compute. reflexivity.
  - vm_compute. discriminate.
Defined.

Lemma handle_media_twice_witness :
  let w := {| files := {[ [lit "in"; lit "a.png"] := NFile (Original 1) ]};
              log := [] |} in
  let once := (handle_media (U:=ascii_only) [lit "in"; lit "a.png"]
                 [lit "result"; lit "images"] w).1 in
  files (handle_media (U:=ascii_only) [lit "in"; lit "a.png"]
           [lit "result"; lit "images"] once).1 = files once.
Proof.
  intros w.
  apply (handle_media_twice (U:=ascii_only) [lit "in"; lit "a.png"]
           (lit "result") (lit "images") w).
  - discriminate.
  - left. vm_compute. reflexivity.
  - left. vm_compute. reflexivity.
  - vm_compute. discriminate.
  - discriminate.
  - discriminate.
  - vm_compute. discriminate.
Defined.

(** ** Archives: names, folders and members *)

Lemma suffix_last (sfx name : list N) c c' :
  last sfx = Some c' → last name = Some c → sfx `suffix_of` name → c = c'.
Proof. intros Hs Hn [k ->]. rewrite last_app, Hs in Hn. congruence. Qed.

(** Every name [shutil] has an unpacker for ends in r, z, 2 or p. *)
Lemma find_unpack_format_last name c :
  last name = Some c → c ∉ [114; 122; 50; 112] →
  find_unpack_format name = None.
Proof.
  intros Hl Hc.
  assert (H : ∀ e c', last (lit e) = Some c' → c' ∈ [114; 122; 50; 112] →
                ¬ lit e `suffix_of` name).
  { intros e c' He Hc' Hs. apply Hc.
    by rewrite (suffix_last _ _ _ _ He Hl Hs). }
  unfold find_unpack_format.
  rewrite bool_decide_eq_false_2.
  - rewrite bool_decide_eq_false_2; [done|].
    eapply H; [reflexivity|]. apply (bool_decide_unpack _). by vm_compute.
  - intros (e & Hin & Hs)%Exists_exists. revert Hs.
    repeat (apply elem_of_cons in Hin as [->|Hin];
            [eapply H; [reflexivity|apply (bool_decide_unpack _); by vm_compute]|]).
    by apply elem_of_nil in Hin.
Qed.

Lemma REGISTER_archives e :
  REGISTER_EXTENSION !! e = Some ARCHIVES →
  e = lit "ZIP" ∨ e = lit "GZ" ∨ e = lit "TAR".
Proof.
  revert e.
  assert (Hall : map_Forall (λ e b, b = ARCHIVES →
                   e = lit "ZIP" ∨ e = lit "GZ" ∨ e = lit "TAR")
                   REGISTER_EXTENSION).
  { apply map_Forall_to_list.
    assert (H : forallb (λ eb, negb (bool_decide (eb.2 = ARCHIVES))
                  || bool_decide (eb.1 ∈ [lit "ZIP"; lit "GZ"; lit "TAR"]))
                  (map_to_list REGISTER_EXTENSION) = true)
      by (vm_compute; reflexivity).
    apply Forall_forall. intros [e b] Hin%list_elem_of_In.
    rewrite forallb_forall in H. specialize (H _ Hin). clear Hin.
    cbn [fst snd] in *.
    intros ->. apply orb_true_iff in H as [H|H].
    - by apply negb_true_iff, bool_decide_eq_false in H.
    - apply bool_decide_eq_true in H.
      apply elem_of_cons in H as [?|H]; [auto|].
      apply elem_of_cons in H as [?|H]; [auto|].
      apply elem_of_cons in H as [?|H]; [auto|].
      by apply elem_of_nil in H. }
  intros e He. apply (Hall e ARCHIVES); [exact He|reflexivity].
Qed.

Section ArchiveNames.
Context {U : Unicode}.

(** A name that ends in ZIP, GZ or TAR in capitals has no unpacker. *)
Lemma capital_archive_no_format (stem e : list N) :
  REGISTER_EXTENSION !! e = Some ARCHIVES →
  find_unpack_format (stem ++ dot :: e) = None.
Proof.
  intros He. apply REGISTER_archives in He as [He|[He|He]]; subst e.
  - apply (find_unpack_format_last _ 80); [by rewrite last_app_cons|].
    apply (bool_decide_unpack _). by vm_compute.
  - apply (find_unpack_format_last _ 90); [by rewrite last_app_cons|].
    apply (bool_decide_unpack _). by vm_compute.
  - apply (find_unpack_format_last _ 82); [by rewrite last_app_cons|].
    apply (bool_decide_unpack _). by vm_compute.
Qed.

Lemma replace_from_skip (old new s : list N) (k : nat) :
  (length s ≤ k)%nat → replace_from old new k s = [].
Proof.
  revert k. induction s as [|x s IH]; intros k Hk; [done|].
  destruct k as [|k]; [cbn in Hk; lia|]. cbn. apply IH. cbn in Hk. lia.
Qed.

Lemma replace_suffix_once (stem e : list N) :
  dot ∉ stem → replace (dot :: e) [] (stem ++ dot :: e) = stem.
Proof.
  intros Hd. unfold replace. induction stem as [|x stem IH].
  - cbn [app replace_from]. rewrite bool_decide_eq_true_2 by done.
    cbn [app]. apply replace_from_skip. cbn [length]. lia.
  - apply not_elem_of_cons in Hd as [Hx Hd]. cbn [app replace_from].
    rewrite bool_decide_eq_false_2.
    + by rewrite IH.
    + intros [k Hk]. inversion Hk. congruence.
Qed.

(** X25. Where the suffix occurs once in the name, at its end, the folder an
    archive is unpacked into is named after the stem. *)
Theorem archive_folder_is_stem (file_name target_folder : path)
    (name e : list N) :
  final_name file_name = name ++ dot :: e →
  name ≠ [] → e ≠ [] → dot ∉ name → dot ∉ e →
  folder_for_file file_name target_folder = target_folder /: normalize name
  ∧ folder_for_file file_name target_folder
    = folder_for_stem file_name target_folder.
Proof.
  intros Hf Hn He Hdn Hde. unfold folder_for_file, folder_for_stem, stem.
  rewrite Hf, suffix_extension by done.
  rewrite replace_suffix_once by done. split; [done|].
  do 2 f_equal. rewrite length_app.
  replace (length name + length (dot :: e) - length (dot :: e))%nat
    with (length name) by lia.
  by rewrite take_app_length.
Qed.

End ArchiveNames.

Section Unpacked.
Context {U : Unicode} {A : Archives}.

(** [handle_archive] on a file [shutil] has no unpacker for, once the
    two folders are made: the folder for the archive is removed again and
    the archive stays. *)
Lemma handle_archive_no_format (file_name target_folder : path)
    (d : data) (w w1 : world) :
  let folder := folder_for_file file_name target_folder in
  let handled := handle_archive file_name target_folder w in
  find_unpack_format (final_name file_name) = None →
  files w !! file_name = Some (NFile d) →
  (mkdir_p target_folder ;; mkdir_p folder) w = (w1, inr ()) →
  (∀ q, folder `prefix_of` q → q ≠ folder → files w1 !! q = None) →
  handled.2 = inr ()
  ∧ files handled.1 !! file_name = Some (NFile d)
  ∧ files handled.1 !! folder = None
  ∧ ∀ q, q ≠ folder → files handled.1 !! q = files w1 !! q.
Proof.
  intros folder handled Hfmt Hfile Hmk Hempty.
  destruct (handle_archive_unfold _ _ _ _ Hmk) as [Hh Hkeep].
  assert (Hfile1 : files w1 !! file_name = Some (NFile d)) by by apply Hkeep.
  assert (Hfolder : folder ≠ [] → files w1 !! folder = Some NDir).
  { intros Hne. rewrite bind_unfold in Hmk.
    destruct (mkdir_p target_folder w) as [w0 [e|[]]]; [done|].
    apply mkdir_p_ok in Hmk as (_ & _ & _ & Hs). rewrite Hs.
    rewrite decide_True; [done|]. by apply elem_of_prefixes. }
  assert (Hne : folder ≠ []).
  { intros He. destruct (decide (file_name = folder)) as [Heq|Hneq].
    - rewrite bind_unfold in Hmk.
      destruct (mkdir_p target_folder w) as [w0 [e|[]]] eqn:E0; [done|].
      apply mkdir_p_ok in Hmk as (_ & Hnf & _).
      rewrite <- Heq in Hnf.
      by rewrite (mkdir_p_keeps _ _ _ _ _ E0 Hfile) in Hnf.
    - rewrite (Hempty file_name) in Hfile1; [done| |done].
      rewrite He. apply prefix_nil. }
  subst handled. rewrite Hh. unfold try_except_return, unpack_archive.
  fold folder. rewrite Hfmt, decide_True by done.
  rewrite rmdir_empty; [|by apply Hfolder|done]. cbn [fst snd files set_files].
  split_and!; [done| |apply lookup_delete_eq|].
  - rewrite lookup_delete_ne; [done|]. intros Heq.
    specialize (Hfolder Hne). by rewrite Heq, Hfile1 in Hfolder.
  - intros q Hq. by rewrite lookup_delete_ne.
Qed.

(** [mkdir_p] where no regular file is in the way. *)
Lemma mkdir_p_free p w :
  p ≠ [] → (∀ q, q ∈ prefixes p → is_file_node (files w !! q) = false) →
  ∃ w', mkdir_p p w = (w', inr ())
        ∧ ∀ q, files w' !! q
               = if decide (q ∈ prefixes p) then Some NDir else files w !! q.
Proof.
  intros Hne Hfree.
  destruct (mkdir_p_spec p w) as [(e & He & _)|(w' & Hw' & _ & _ & _ & Hs)];
    [|by exists w'].
  exfalso. unfold mkdir_p in He.
  rewrite (Hfree p) in He by (by apply elem_of_prefixes).
  destruct (existsb _ (prefixes p)) eqn:E; [|done].
  apply existsb_exists in E as (q & Hq%list_elem_of_In & Hf).
  by rewrite (Hfree q Hq) in Hf.
Qed.

Lemma joinpath_prefix (p : path) (x : list N) : p `prefix_of` p /: x.
Proof.
  unfold joinpath. destruct (decide (x = [])); [done|]. by exists [x].
Qed.

(** X27. A file [shutil] has no unpacker for (data.gz is one, which
    [scan] lists as an archive), handed to [handle_archive] where no
    regular file is in the way of the folders and the folder for the
    archive holds nothing: the call returns, nothing is logged, and
    compared with the world before the call the folder for the archive is
    not there, the folders above it are directories, and every other path,
    the archive among them, has what it had. *)
Theorem unknown_format_keeps_archive (file_name target_folder : path)
    (d : data) (w : world) :
  let folder := folder_for_file file_name target_folder in
  let handled := handle_archive file_name target_folder w in
  find_unpack_format (final_name file_name) = None →
  files w !! file_name = Some (NFile d) →
  target_folder ≠ [] →
  (∀ q, q ∈ prefixes folder → is_file_node (files w !! q) = false) →
  (∀ q, folder `prefix_of` q → q ≠ folder → files w !! q = None) →
  handled.2 = inr ()
  ∧ log handled.1 = log w
  ∧ files handled.1 !! file_name = Some (NFile d)
  ∧ ∀ q, files handled.1 !! q
         = if decide (q = folder) then None
           else if decide (q ∈ prefixes folder) then Some NDir
           else files w !! q.
Proof.
  intros folder handled Hfmt Hfile Htarget Hfree Hempty.
  assert (Hpre : target_folder `prefix_of` folder) by apply joinpath_prefix.
  assert (Hfne : folder ≠ []).
  { intros He. rewrite He in Hpre. by apply prefix_nil_inv in Hpre. }
  assert (Hsub : ∀ q, q ∈ prefixes target_folder → q ∈ prefixes folder).
  { intros q [Hq1 Hq2]%elem_of_prefixes. apply elem_of_prefixes.
    split; [done|]. by etrans. }
  destruct (mkdir_p_free target_folder w Htarget) as (w0 & Hw0 & Hs0).
  { intros q Hq. by apply Hfree, Hsub. }
  destruct (mkdir_p_free folder w0 Hfne) as (w1 & Hw1 & Hs1).
  { intros q Hq. rewrite Hs0. case_decide; [done|]. by apply Hfree. }
  assert (Hs : ∀ q, files w1 !! q
             = if decide (q ∈ prefixes folder) then Some NDir else files w !! q).
  { intros q. rewrite Hs1. case_decide as Hq; [done|]. rewrite Hs0.
    rewrite decide_False; [done|]. intros Hq'. by apply Hq, Hsub. }
  assert (Hmk : (mkdir_p target_folder ;; mkdir_p folder) w = (w1, inr ())).
  { by rewrite bind_unfold, Hw0. }
  destruct (handle_archive_no_format file_name target_folder d w w1
              Hfmt Hfile Hmk) as (Hret & Hkept & Hgone & Hrest).
  { intros q Hq1 Hq2. rewrite Hs. rewrite decide_False; [by apply Hempty|].
    intros [_ Hq3]%elem_of_prefixes. apply Hq2.
    by apply (anti_symm prefix). }
  fold handled in Hret, Hkept, Hgone, Hrest.
  split_and!; [done|apply handle_archive_log|done|].
  intros q. case_decide as Hq; [by subst q|].
  by rewrite Hrest, Hs.
Qed.

(** X24. An archive of the folder whose name ends in ZIP, GZ or TAR in
    capitals: [scan], coming to it at the end of a listing, appends it to
    [ARCHIVES] (the extension is upper-cased before the lookup), and
    [handle_archive], called on it once the folders are made, returns with
    the archive left where it is and the folder made for it removed (the
    unpacker is looked for by the end of the name as it is written): the
    file is listed as an archive and never unpacked. *)
Theorem listed_but_not_unpacked (folder target_folder : path)
    (items : list entry) (st : globals) (stem e : list N) (d : data)
    (w w1 : world) :
  let name := stem ++ dot :: e in
  let file_name := folder /: name in
  let unpack_folder := folder_for_file file_name target_folder in
  let handled := handle_archive file_name target_folder w in
  stem ≠ [] → slash ∉ stem →
  REGISTER_EXTENSION !! e = Some ARCHIVES →
  files w !! file_name = Some (NFile d) →
  (mkdir_p target_folder ;; mkdir_p unpack_folder) w = (w1, inr ()) →
  (∀ q, unpack_folder `prefix_of` q → q ≠ unpack_folder →
        files w1 !! q = None) →
  contents (scan folder (items ++ [File name]) st) ARCHIVES
  = contents (scan folder items st) ARCHIVES ++ [file_name]
  ∧ handled.2 = inr ()
  ∧ files handled.1 !! file_name = Some (NFile d)
  ∧ files handled.1 !! unpack_folder = None.
Proof.
  intros name file_name unpack_folder handled Hst Hsl He Hfile Hmk Hempty.
  split.
  - rewrite scan_app.
    change (scan folder [File name] ?x) with (scan_file folder name x).
    unfold scan_file.
    destruct (REGISTER_EXTENSION_keys _ _ He) as [Hne Hk].
    assert (Hext : get_extension name = e).
    { apply (get_extension_casing stem e e); [done|done| |done|done].
      clear. induction e; constructor; auto. }
    rewrite Hext, decide_False by done. rewrite He.
    cbn [contents add_extension append_to]. by rewrite decide_True.
  - assert (Hname : final_name file_name = name).
    { unfold file_name. rewrite joinpath_name by (by destruct stem).
      unfold final_name. by rewrite last_snoc. }
    destruct (handle_archive_no_format file_name target_folder d w w1)
      as (H1 & H2 & H3 & _); [|done..].
    rewrite Hname. by apply capital_archive_no_format.
Qed.

End Unpacked.

Lemma listed_but_not_unpacked_witness :
  let w := {| files := {[ [lit "in"; lit "PHOTOS.ZIP"] := NFile (Original 1) ]};
              log := [] |} in
  let file_name := [lit "in"] /: (lit "PHOTOS" ++ dot :: lit "ZIP") in
  let handled := handle_archive (U:=ascii_only) (A:=sample_archives)
                   file_name [lit "result"; lit "archives"] w in
  contents (scan (U:=ascii_only) [lit "in"]
              ([] ++ [File (lit "PHOTOS" ++ dot :: lit "ZIP")]) fresh_globals)
    ARCHIVES
  = contents (scan (U:=ascii_only) [lit "in"] [] fresh_globals) ARCHIVES
    ++ [file_name]
  ∧ handled.2 = inr ()
  ∧ files handled.1 !! file_name = Some (NFile (Original 1))
  ∧ files handled.1
      !! folder_for_file (U:=ascii_only) file_name [lit "result"; lit "archives"]
    = None.
Proof.
  intros w.
  apply (listed_but_not_unpacked (U:=ascii_only) (A:=sample_archives)
           [lit "in"] [lit "result"; lit "archives"] [] fresh_globals
           (lit "PHOTOS") (lit "ZIP") (Original 1) w
           ((mkdir_p [lit "result"; lit "archives"] ;;
             mkdir_p [lit "result"; lit "archives"; lit "PHOTOS"]) w).1).
  - discriminate.
  - apply (bool_decide_unpack _). vm_compute. reflexivity.
  - vm_compute. reflexivity.
  - vm_compute. reflexivity.
  - vm_compute. reflexivity.
  - intros q Hpre Hne.
    destruct (files ((mkdir_p [lit "result"; lit "archives"] ;;
                mkdir_p [lit "result"; lit "archives"; lit "PHOTOS"]) w).1 !! q)
      as [n|] eqn:E; [exfalso|reflexivity].
    assert (Hall : map_Forall
              (λ q _, ¬ (folder_for_file (U:=ascii_only)
                           ([lit "in"] /: (lit "PHOTOS" ++ dot :: lit "ZIP"))
                           [lit "result"; lit "archives"] `prefix_of` q
                         ∧ q ≠ folder_for_file (U:=ascii_only)
                                 ([lit "in"] /: (lit "PHOTOS" ++ dot :: lit "ZIP"))
                                 [lit "result"; lit "archives"]))
              (files ((mkdir_p [lit "result"; lit "archives"] ;;
                mkdir_p [lit "result"; lit "archives"; lit "PHOTOS"]) w).1)).
    { apply (bool_decide_unpack _). vm_compute. exact I. }
    apply (Hall q n E). split; assumption.
Defined.

Lemma archive_folder_is_stem_witness :
  folder_for_file (U:=ascii_only) [lit "in"; lit "backup.zip"]
    [lit "result"; lit "archives"]
  = [lit "result"; lit "archives"] /: normalize (U:=ascii_only) (lit "backup")
  ∧ folder_for_file (U:=ascii_only) [lit "in"; lit "backup.zip"]
      [lit "result"; lit "archives"]
    = folder_for_stem (U:=ascii_only) [lit "in"; lit "backup.zip"]
        [lit "result"; lit "archives"].
Proof.
  apply (archive_folder_is_stem (U:=ascii_only) [lit "in"; lit "backup.zip"]
           [lit "result"; lit "archives"] (lit "backup") (lit "zip")).
  - vm_compute. reflexivity.
  - discriminate.
  - discriminate.
  - apply (bool_decide_unpack _). vm_compute. reflexivity.
  - apply (bool_decide_unpack _). vm_compute. reflexivity.
Defined.

Lemma unknown_format_keeps_archive_witness :
  let w := {| files := {[ [lit "in"; lit "data.gz"] := NFile (Original 1) ]};
              log := [] |} in
  let folder := folder_for_file (U:=ascii_only) [lit "in"; lit "data.gz"]
                  [lit "result"; lit "archives"] in
  let handled := handle_archive (U:=ascii_only) (A:=sample_archives)
                   [lit "in"; lit "data.gz"] [lit "result"; lit "archives"] w in
  handled.2 = inr ()
  ∧ log handled.1 = log w
  ∧ files handled.1 !! [lit "in"; lit "data.gz"] = Some (NFile (Original 1))
  ∧ ∀ q, files handled.1 !! q
         = if decide (q = folder) then None
           else if decide (q ∈ prefixes folder) then Some NDir
           else files w !! q.
Proof.
  intros w.
  apply (unknown_format_keeps_archive (U:=ascii_only) (A:=sample_archives)
           [lit "in"; lit "data.gz"] [lit "result"; lit "archives"]
           (Original 1) w).
  - vm_compute. reflexivity.
  - vm_compute. reflexivity.
  - discriminate.
  - intros q Hq.
    assert (Hall : Forall (λ q, is_file_node (files w !! q) = false)
              (prefixes (folder_for_file (U:=ascii_only)
                           [lit "in"; lit "data.gz"]
                           [lit "result"; lit "archives"]))).
    { apply (bool_decide_unpack _). vm_compute. exact I. }
    rewrite Forall_forall in Hall. by apply Hall.
  - intros q Hpre Hne.
    destruct (files w !! q) as [n|] eqn:E; [exfalso|reflexivity].
    assert (Hall : map_Forall
              (λ q _, ¬ (folder_for_file (U:=ascii_only) [lit "in"; lit "data.gz"]
                           [lit "result"; lit "archives"] `prefix_of` q))
              (files w)).
    { apply (bool_decide_unpack _). vm_compute. exact I. }
    by apply (Hall q n E).
Defined.

